(** * concert-playlist: extraction-and-reconciliation engine

    A shallow embedding of the venue-data updater
    ([scripts/updateVenueData.ts], [scripts/updateVenueDataUtils.ts],
    [src/server/venues/utils.ts], the comparator of
    [scripts/buildAllVenues.ts]) and the properties its specification
    states about it, followed by the row builders and the scraper of
    [src/server/venues/bottomOfTheHill.ts] and [theIndependent.ts], the
    text utilities of [utils.ts], [slugify] of [src/server/venues/index.ts],
    and what the code itself shows of them.

    JavaScript strings are sequences of UTF-16 code units; the embedding
    uses [string], whose characters are read as code units below 256. *)

From Stdlib Require Import ZArith String Ascii List Lia Bool Permutation Sorted.
From Stdlib Require DecimalString HexadecimalString OrderedTypeEx.
From Stdlib Require HexadecimalFacts HexadecimalPos HexadecimalN.
From stdpp Require Import base gmap sets list strings sorting.

Set Warnings "-clear-no-such-hyp".

Local Open Scope string_scope.
Local Open Scope list_scope.
Local Open Scope nat_scope.

(** ** JavaScript primitives used by the scripts *)

Module JS.

(** [Array.prototype.join(sep)] on an array of strings. *)
Definition join (sep : string) (parts : list string) : string :=
  String.concat sep parts.

(** [value ?? fallback] on a nullable string. *)
Definition orElse (value : option string) (fallback : string) : string :=
  match value with
  | Some s => s
  | None => fallback
  end.

(** Truthiness of a string: only the empty string is falsy. *)
Definition truthy (s : string) : bool :=
  match s with
  | EmptyString => false
  | String _ _ => true
  end.

(** [s.charCodeAt(i)] for the character [c] at position [i]. *)
Definition charCode (c : ascii) : Z := Z.of_N (N_of_ascii c).

Definition isDigit (c : ascii) : bool :=
  (48 <=? charCode c)%Z && (charCode c <=? 57)%Z.

(** White space and line terminators ([\s], and what [parseInt] skips),
    among the code units below 256: TAB, LF, VT, FF, CR, SP, NBSP. *)
Definition isSpace (c : ascii) : bool :=
  let n := charCode c in
  ((9 <=? n)%Z && (n <=? 13)%Z) || (n =? 32)%Z || (n =? 160)%Z.

(** [String.prototype.toLowerCase] on code units below 256: A-Z and the
    Latin-1 capitals U+00C0-U+00DE other than the multiplication sign. *)
Definition lowerChar (c : ascii) : ascii :=
  let n := charCode c in
  if ((65 <=? n)%Z && (n <=? 90)%Z)
     || ((192 <=? n)%Z && (n <=? 222)%Z && negb (n =? 215)%Z)
  then ascii_of_N (Z.to_N (n + 32))
  else c.

Fixpoint toLowerCase (s : string) : string :=
  match s with
  | EmptyString => EmptyString
  | String c rest => String (lowerChar c) (toLowerCase rest)
  end.

Fixpoint dropSpaces (s : string) : string :=
  match s with
  | String c rest => if isSpace c then dropSpaces rest else s
  | EmptyString => EmptyString
  end.

(** The longest prefix of decimal digits, most significant first, read
    as a number on top of [acc]; [None] when there is no digit. *)
Fixpoint readDigits (s : string) (acc : option Z) : option Z :=
  match s with
  | String c rest =>
      if isDigit c
      then readDigits rest (Some (10 * default 0%Z acc + (charCode c - 48))%Z)
      else acc
  | EmptyString => acc
  end.

(** [Number.parseInt(s, 10)]; [None] is NaN.  Numbers are integers of
    [Z], exact for numerals below 2^53. *)
Definition parseInt (s : string) : option Z :=
  match dropSpaces s with
  | String "-" rest => Z.opp <$> readDigits rest None
  | String "+" rest => readDigits rest None
  | rest => readDigits rest None
  end.

(** [n.toString()] and [`${n}`] for an integer. *)
Definition numberToString (n : Z) : string :=
  DecimalString.NilZero.string_of_int (Z.to_int n).

(** [n.toString(16)] for a non-negative integer. *)
Definition toHexString (n : Z) : string :=
  HexadecimalString.NilZero.string_of_uint (N.to_hex_uint (Z.to_N n)).

Fixpoint repeatChar (c : ascii) (n : nat) : string :=
  match n with
  | O => EmptyString
  | S n' => String c (repeatChar c n')
  end.

(** [s.padStart(width, pad)] for a one-character [pad]. *)
Definition padStart (width : nat) (pad : ascii) (s : string) : string :=
  repeatChar pad (width - String.length s) +:+ s.

(** [s.split(sep)] for a one-character separator: never empty. *)
Fixpoint split (sep : ascii) (s : string) : list string :=
  match s with
  | EmptyString => [EmptyString]
  | String c rest =>
      match split sep rest with
      | cur :: others =>
          if Ascii.eqb c sep then EmptyString :: cur :: others
          else String c cur :: others
      | [] => [String c EmptyString]
      end
  end.

(** Relational operators on strings compare code units
    lexicographically. *)
Definition strGe (a b : string) : bool := String.leb b a.

(** [Date.UTC(year, monthIndex, day)]: the time value, in milliseconds,
    of midnight UTC of that day.  Month indices and days outside their
    ranges carry over, as [MakeDay] prescribes; a year in 0..99 stands
    for 1900 + year. *)
Definition daysFromCivil (y m d : Z) : Z :=
  let y := if (m <=? 2)%Z then (y - 1)%Z else y in
  let era := (y / 400)%Z in
  let yoe := (y - era * 400)%Z in
  let mp := if (2 <? m)%Z then (m - 3)%Z else (m + 9)%Z in
  let doy := ((153 * mp + 2) / 5 + d - 1)%Z in
  let doe := (yoe * 365 + yoe / 4 - yoe / 100 + doy)%Z in
  (era * 146097 + doe - 719468)%Z.

Definition msPerDay : Z := 86400000.

Definition DateUTC (year monthIndex day : Z) : Z :=
  let yr := if (0 <=? year)%Z && (year <=? 99)%Z then (1900 + year)%Z else year in
  let ym := (yr + monthIndex / 12)%Z in
  let mn := (monthIndex mod 12)%Z in
  ((daysFromCivil ym (mn + 1) 1 + day - 1) * msPerDay)%Z.

(** What the scripts read of a [Date] object. *)
Record Date : Type := mkDate {
  getUTCFullYear : Z;
  getUTCMonth : Z;
  getUTCDate : Z
}.

End JS.

(** ** Data model ([src/shared/types.ts]) *)

Record VenueDataShow : Type := mkShow {
  showId : string;
  dateISO : string;
  startTime : option string;
  venueId : string;
  venueName : string;
  showUrl : option string;
  sourceUrl : string;
  headliners : list string;
  openers : list string
}.

(** [show.showId = id] on a copy of the record. *)
Definition withShowId (id : string) (show : VenueDataShow) : VenueDataShow :=
  {| showId := id;
     dateISO := dateISO show;
     startTime := startTime show;
     venueId := venueId show;
     venueName := venueName show;
     showUrl := showUrl show;
     sourceUrl := sourceUrl show;
     headliners := headliners show;
     openers := openers show |}.

(** ** Matching keys ([updateVenueDataUtils.ts]) *)

Definition buildShowKey (show : VenueDataShow) : string :=
  JS.join "|"
    [ dateISO show;
      JS.orElse (startTime show) "";
      venueId show;
      JS.orElse (showUrl show) "";
      JS.join "," (headliners show);
      JS.join "," (openers show) ].

Definition buildStableShowKey (show : VenueDataShow) : string :=
  JS.join "|"
    [ dateISO show;
      venueId show;
      JS.orElse (showUrl show) "";
      JS.join "," (headliners show) ].

Definition buildUrlKey (show : VenueDataShow) : string :=
  match showUrl show with
  | Some url => if JS.truthy url then venueId show +:+ "|" +:+ url else ""
  | None => ""
  end.

Definition buildDateTimeKey (show : VenueDataShow) : string :=
  venueId show +:+ "|" +:+ dateISO show +:+ "|" +:+ JS.orElse (startTime show) "".

Definition buildHeadlinerTimeKey (show : VenueDataShow) : string :=
  venueId show +:+ "|" +:+ dateISO show +:+ "|" +:+ JS.orElse (startTime show) ""
    +:+ "|" +:+ JS.join "," (headliners show).

(** ** One strategy pass: [tryMatch] *)

Record MatchState : Type := mkState {
  matchedPrev : gset nat;
  matchedNext : gset nat
}.

Record Pair : Type := mkPair {
  prevIndex : nat;
  nextIndex : nat
}.

Definition emptyState : MatchState :=
  {| matchedPrev := ∅; matchedNext := ∅ |}.

(** First loop of [tryMatch]: the lookup from key to the indices of the
    previous records that are not yet matched and have a non-empty key.
    [i] is the index of the head of [previous]. *)
Fixpoint indexPrevious (keyFn : VenueDataShow → string) (matched : gset nat)
    (i : nat) (previous : list VenueDataShow)
    (map : gmap string (list nat)) : gmap string (list nat) :=
  match previous with
  | [] => map
  | p :: rest =>
      let map' :=
        if decide (i ∈ matched) then map
        else
          let key := keyFn p in
          if JS.truthy key
          then <[key := default [] (map !! key) ++ [i]]> map
          else map in
      indexPrevious keyFn matched (S i) rest map'
  end.

(** Second loop of [tryMatch]: walk the next records, pairing each
    unmatched one whose key has exactly one entry in the lookup.  The
    lookup is the one built before the loop; the state is updated as
    pairs are made. *)
Fixpoint matchNext (keyFn : VenueDataShow → string)
    (map : gmap string (list nat)) (j : nat) (next : list VenueDataShow)
    (state : MatchState) (pairs : list Pair) : MatchState * list Pair :=
  match next with
  | [] => (state, pairs)
  | n :: rest =>
      if decide (j ∈ matchedNext state)
      then matchNext keyFn map (S j) rest state pairs
      else
        let key := keyFn n in
        if JS.truthy key
        then
          match map !! key with
          | Some [prevIdx] =>
              matchNext keyFn map (S j) rest
                {| matchedPrev := {[prevIdx]} ∪ matchedPrev state;
                   matchedNext := {[j]} ∪ matchedNext state |}
                (pairs ++ [{| prevIndex := prevIdx; nextIndex := j |}])
          | _ => matchNext keyFn map (S j) rest state pairs
          end
        else matchNext keyFn map (S j) rest state pairs
  end.

(** [tryMatch] mutates [state] and returns the pairs; here the updated
    state is returned next to the pairs. *)
Definition tryMatch (previous next : list VenueDataShow) (state : MatchState)
    (keyFn : VenueDataShow → string) : MatchState * list Pair :=
  let map := indexPrevious keyFn (matchedPrev state) 0 previous ∅ in
  matchNext keyFn map 0 next state [].

(** [for (const pair of pairs) result[pair.nextIndex].showId =
    previousShows[pair.prevIndex].showId].  The indices come from
    [tryMatch] and are always in range (lemma [tryMatch_in_range]); the
    model leaves [result] alone on an index outside either array. *)
Definition assignShowIds (previousShows : list VenueDataShow)
    (pairs : list Pair) (result : list VenueDataShow) : list VenueDataShow :=
  fold_left
    (fun res pr =>
       match previousShows !! prevIndex pr, res !! nextIndex pr with
       | Some p, Some r => <[nextIndex pr := withShowId (showId p) r]> res
       | _, _ => res
       end)
    pairs result.

(** [preserveShowIds] on the values of the records: [result] starts as a
    copy of [nextShows], field for field.  [Store.preserveShowIds] below
    is the same function on references. *)
Definition preserveShowIds (nextShows previousShows : list VenueDataShow)
    : list VenueDataShow :=
  let result := nextShows in
  let state := emptyState in
  let '(state, exactPairs) := tryMatch previousShows result state buildShowKey in
  let result := assignShowIds previousShows exactPairs result in
  let '(state, stablePairs) :=
    tryMatch previousShows result state buildStableShowKey in
  let result := assignShowIds previousShows stablePairs result in
  let '(state, urlPairs) := tryMatch previousShows result state buildUrlKey in
  let result := assignShowIds previousShows urlPairs result in
  let '(state, dateTimePairs) :=
    tryMatch previousShows result state buildDateTimeKey in
  let result := assignShowIds previousShows dateTimePairs result in
  let '(state, headlinerTimePairs) :=
    tryMatch previousShows result state buildHeadlinerTimeKey in
  let result := assignShowIds previousShows headlinerTimePairs result in
  result.

Record DiffCounts : Type := mkCounts {
  removed : Z;
  unchanged : Z;
  updated : Z;
  added : Z
}.

Definition diffShows (previous next : list VenueDataShow) : DiffCounts :=
  let state := emptyState in
  let '(state, unchangedPairs) := tryMatch previous next state buildShowKey in
  let '(state, p2) := tryMatch previous next state buildStableShowKey in
  let '(state, p3) := tryMatch previous next state buildUrlKey in
  let '(state, p4) := tryMatch previous next state buildDateTimeKey in
  let '(state, p5) := tryMatch previous next state buildHeadlinerTimeKey in
  let updatedPairs := p2 ++ p3 ++ p4 ++ p5 in
  {| removed := Z.of_nat (length previous) - Z.of_nat (size (matchedPrev state));
     unchanged := Z.of_nat (length unchangedPairs);
     updated := Z.of_nat (length updatedPairs);
     added := Z.of_nat (length next) - Z.of_nat (size (matchedNext state)) |}.

(** ** Reference-level model of [preserveShowIds]

    Show records are JavaScript objects: an array holds references, and
    [result[j].showId = ...] writes through a reference.  [heap] maps a
    reference to the record it denotes; [None] results stand for a
    dangling reference, which a JavaScript array cannot hold. *)

Module Store.

Abbreviation loc := nat (only parsing).
Abbreviation heap := (gmap nat VenueDataShow) (only parsing).

(** Reading the records an array refers to. *)
Definition readAll (h : heap) (arr : list loc) : option (list VenueDataShow) :=
  mapM (fun l => h !! l) arr.

(** [nextShows.map((show) => ({ ...show }))]: one fresh object per
    element, holding a copy of the fields. *)
Fixpoint cloneAll (h : heap) (arr : list loc) : option (heap * list loc) :=
  match arr with
  | [] => Some (h, [])
  | l :: rest =>
      show ← h !! l;
      let l' := fresh (dom h) in
      '(h', out) ← cloneAll (<[l' := show]> h) rest;
      Some (h', l' :: out)
  end.

(** [tryMatch] only reads the records. *)
Definition tryMatch (h : heap) (previous next : list loc) (state : MatchState)
    (keyFn : VenueDataShow → string) : option (MatchState * list Pair) :=
  prev ← readAll h previous;
  nxt ← readAll h next;
  Some (tryMatch prev nxt state keyFn).

(** [result[pair.nextIndex].showId = previousShows[pair.prevIndex].showId] *)
Definition assignShowId (previousShows result : list loc) (h : heap)
    (pr : Pair) : option heap :=
  lp ← previousShows !! prevIndex pr;
  p ← h !! lp;
  lr ← result !! nextIndex pr;
  r ← h !! lr;
  Some (<[lr := withShowId (showId p) r]> h).

Fixpoint assignShowIds (previousShows result : list loc) (pairs : list Pair)
    (h : heap) : option heap :=
  match pairs with
  | [] => Some h
  | pr :: rest =>
      h' ← assignShowId previousShows result h pr;
      assignShowIds previousShows result rest h'
  end.

(** One strategy pass followed by its assignment loop. *)
Definition pass (previousShows result : list loc)
    (keyFn : VenueDataShow → string) (hs : heap * MatchState)
    : option (heap * MatchState) :=
  '(state, pairs) ← tryMatch hs.1 previousShows result hs.2 keyFn;
  h ← assignShowIds previousShows result pairs hs.1;
  Some (h, state).

Definition preserveShowIds (h : heap) (nextShows previousShows : list loc)
    : option (heap * list loc) :=
  '(h, result) ← cloneAll h nextShows;
  hs ← pass previousShows result buildShowKey (h, emptyState);
  hs ← pass previousShows result buildStableShowKey hs;
  hs ← pass previousShows result buildUrlKey hs;
  hs ← pass previousShows result buildDateTimeKey hs;
  hs ← pass previousShows result buildHeadlinerTimeKey hs;
  Some (hs.1, result).

End Store.

(** ** Regular expressions of [utils.ts]

    A backtracking matcher with the semantics of JavaScript's [RegExp]
    for the constructs the date patterns use: character classes,
    sequence, ordered alternation, greedy bounded repetition and
    capturing groups. *)

Module Regex.

Inductive re : Type :=
| Eps
| Chr (accept : ascii → bool)
| Seq (a b : re)
| Alt (a b : re)
| Rep (min : nat) (max : option nat) (a : re)
| Group (index : nat) (a : re).

(** [captures !! i] is the text of group [i], when it took part. *)
Definition captures : Type := list (option string).

Definition withinMax (count : nat) (max : option nat) : bool :=
  match max with
  | Some m => (count <? m)%nat
  | None => true
  end.

(** The first [n] characters of [s]. *)
Definition prefix (n : nat) (s : string) : string := String.substring 0 n s.

(** [run r s caps k]: match [r] at the start of [s], then continue with
    [k] on the rest; alternatives are tried in order and a repetition
    takes as many iterations as it can before giving one back.  Each
    iteration of the repeated patterns consumes a character, so the
    length of the input bounds their number. *)
Fixpoint run (r : re) (s : string) (caps : captures)
    (k : string → captures → option captures) {struct r} : option captures :=
  match r with
  | Eps => k s caps
  | Chr accept =>
      match s with
      | String c rest => if accept c then k rest caps else None
      | EmptyString => None
      end
  | Seq a b => run a s caps (fun rest caps' => run b rest caps' k)
  | Alt a b =>
      match run a s caps k with
      | Some res => Some res
      | None => run b s caps k
      end
  | Rep min max a =>
      (fix iterate (fuel count : nat) (s : string) (caps : captures)
           {struct fuel} : option captures :=
         let stop := if (min <=? count)%nat then k s caps else None in
         match fuel with
         | O => stop
         | S fuel' =>
             if withinMax count max
             then
               match run a s caps
                       (fun rest caps' => iterate fuel' (S count) rest caps') with
               | Some res => Some res
               | None => stop
               end
             else stop
         end) (String.length s) O s caps
  | Group index a =>
      run a s caps
        (fun rest caps' =>
           k rest
             (<[index := Some (prefix (String.length s - String.length rest) s)]>
                caps'))
  end.

(** [s.match(r)] without the global flag: the leftmost match, as the
    list of its groups (index 0 is unused). *)
Fixpoint search (r : re) (groups : nat) (s : string) : option captures :=
  match run r s (replicate (S groups) None) (fun _ caps => Some caps) with
  | Some caps => Some caps
  | None =>
      match s with
      | String _ rest => search r groups rest
      | EmptyString => None
      end
  end.

Definition group (caps : captures) (i : nat) : option string :=
  mjoin (caps !! i).

Definition char (c : ascii) : re := Chr (Ascii.eqb c).

Fixpoint lit (s : string) : re :=
  match s with
  | EmptyString => Eps
  | String c rest => Seq (char c) (lit rest)
  end.

Definition opt (a : re) : re := Rep 0 (Some 1) a.
Definition digits (min max : nat) : re := Rep min (Some max) (Chr JS.isDigit).

Fixpoint alts (rs : list re) : re :=
  match rs with
  | [] => Chr (fun _ => false)
  | [r] => r
  | r :: rest => Alt r (alts rest)
  end.

End Regex.

(** ** Text extraction ([src/server/venues/utils.ts]) *)

Definition inferYear (month day : Z) (referenceDate : JS.Date) : Z :=
  let referenceUTC :=
    JS.DateUTC (JS.getUTCFullYear referenceDate) (JS.getUTCMonth referenceDate)
      (JS.getUTCDate referenceDate) in
  let candidateUTC := JS.DateUTC (JS.getUTCFullYear referenceDate) (month - 1) day in
  let oneMonthMs := (31 * 24 * 60 * 60 * 1000)%Z in
  if (candidateUTC <? referenceUTC - oneMonthMs)%Z
  then (JS.getUTCFullYear referenceDate + 1)%Z
  else JS.getUTCFullYear referenceDate.

Definition monthMap (name : string) : option Z :=
  if decide (name = "jan") then Some 1%Z
  else if decide (name = "january") then Some 1%Z
  else if decide (name = "feb") then Some 2%Z
  else if decide (name = "february") then Some 2%Z
  else if decide (name = "mar") then Some 3%Z
  else if decide (name = "march") then Some 3%Z
  else if decide (name = "apr") then Some 4%Z
  else if decide (name = "april") then Some 4%Z
  else if decide (name = "may") then Some 5%Z
  else if decide (name = "jun") then Some 6%Z
  else if decide (name = "june") then Some 6%Z
  else if decide (name = "jul") then Some 7%Z
  else if decide (name = "july") then Some 7%Z
  else if decide (name = "aug") then Some 8%Z
  else if decide (name = "august") then Some 8%Z
  else if decide (name = "sep") then Some 9%Z
  else if decide (name = "sept") then Some 9%Z
  else if decide (name = "september") then Some 9%Z
  else if decide (name = "oct") then Some 10%Z
  else if decide (name = "october") then Some 10%Z
  else if decide (name = "nov") then Some 11%Z
  else if decide (name = "november") then Some 11%Z
  else if decide (name = "dec") then Some 12%Z
  else if decide (name = "december") then Some 12%Z
  else None.

(** [/(\d{1,2})\.(\d{1,2})/] *)
Definition dotDateRe : Regex.re :=
  Regex.Seq (Regex.Group 1 (Regex.digits 1 2))
    (Regex.Seq (Regex.char ".") (Regex.Group 2 (Regex.digits 1 2))).

(** [/(\d{1,2})\/(\d{1,2})(?:\/(\d{2,4}))?/] *)
Definition slashDateRe : Regex.re :=
  Regex.Seq (Regex.Group 1 (Regex.digits 1 2))
    (Regex.Seq (Regex.char "/")
       (Regex.Seq (Regex.Group 2 (Regex.digits 1 2))
          (Regex.opt (Regex.Seq (Regex.char "/") (Regex.Group 3 (Regex.digits 2 4)))))).

(** [/(jan(?:uary)?|feb(?:ruary)?|...|dec(?:ember)?)\s+(\d{1,2})(?:st|nd|rd|th)?(?:,\s*(\d{4}))?/] *)
Definition monthNameRe : Regex.re :=
  let name (short rest : string) :=
    Regex.Seq (Regex.lit short) (Regex.opt (Regex.lit rest)) in
  let months :=
    Regex.alts
      [ name "jan" "uary"; name "feb" "ruary"; name "mar" "ch"; name "apr" "il";
        Regex.lit "may"; name "jun" "e"; name "jul" "y"; name "aug" "ust";
        Regex.Seq (Regex.lit "sep")
          (Regex.opt (Regex.Alt (Regex.lit "t") (Regex.lit "tember")));
        name "oct" "ober"; name "nov" "ember"; name "dec" "ember" ] in
  Regex.Seq (Regex.Group 1 months)
    (Regex.Seq (Regex.Rep 1 None (Regex.Chr JS.isSpace))
       (Regex.Seq (Regex.Group 2 (Regex.digits 1 2))
          (Regex.Seq
             (Regex.opt
                (Regex.alts
                   [Regex.lit "st"; Regex.lit "nd"; Regex.lit "rd"; Regex.lit "th"]))
             (Regex.opt
                (Regex.Seq (Regex.char ",")
                   (Regex.Seq (Regex.Rep 0 None (Regex.Chr JS.isSpace))
                      (Regex.Group 3 (Regex.digits 4 4)))))))).

(** [`${year}-${month.toString().padStart(2, "0")}-${day.toString().padStart(2, "0")}`];
    a NaN prints as "NaN". *)
Definition showNumber (n : option Z) : string :=
  match n with
  | Some z => JS.numberToString z
  | None => "NaN"
  end.

Definition formatISO (year month day : option Z) : string :=
  showNumber year +:+ "-" +:+ JS.padStart 2 "0" (showNumber month)
    +:+ "-" +:+ JS.padStart 2 "0" (showNumber day).

Definition parseDateISOFromText (value : string) (referenceDate : JS.Date) : string :=
  let normalized := JS.toLowerCase value in
  let number (text : option string) : option Z := text ≫= JS.parseInt in
  let inferred (month day : option Z) : option Z :=
    match month, day with
    | Some m, Some d => Some (inferYear m d referenceDate)
    | _, _ => Some (JS.getUTCFullYear referenceDate)
    end in
  match Regex.search dotDateRe 2 normalized with
  | Some m =>
      let month := number (Regex.group m 1) in
      let day := number (Regex.group m 2) in
      let year := inferred month day in
      formatISO year month day
  | None =>
  match Regex.search slashDateRe 3 normalized with
  | Some m =>
      let month := number (Regex.group m 1) in
      let day := number (Regex.group m 2) in
      let year :=
        match Regex.group m 3 with
        | Some text =>
            if decide (text = EmptyString) then inferred month day
            else JS.parseInt (if (String.length text =? 2)%nat then "20" +:+ text else text)
        | None => inferred month day
        end in
      formatISO year month day
  | None =>
  match Regex.search monthNameRe 3 normalized with
  | Some m =>
      let month := Regex.group m 1 ≫= monthMap in
      let day := number (Regex.group m 2) in
      let year :=
        match Regex.group m 3 with
        | Some text =>
            if decide (text = EmptyString) then inferred month day
            else JS.parseInt text
        | None => inferred month day
        end in
      formatISO year month day
  | None => EmptyString
  end end end.

(** ** Show Normalizer ([scripts/updateVenueData.ts]) *)

Module Scraped.
Record t : Type := mk {
  date : string;
  time : string;
  artists : list string;
  roles : list string;
  venue : string;
  showUrl : string;
  sourcePageUrl : string
}.
End Scraped.

Definition formatTime12 (time24 : string) : option string :=
  if JS.truthy time24
  then
    let parts := JS.split ":" time24 in
    let hourText := default EmptyString (parts !! 0) in
    let minuteText := parts !! 1 in
    let minutes := JS.orElse minuteText "00" in
    match JS.parseInt hourText with
    | None => None
    | Some hour =>
        let meridiem := if (12 <=? hour)%Z then "PM" else "AM" in
        let hour12 := if (Z.rem hour 12 =? 0)%Z then 12%Z else Z.rem hour 12 in
        Some (JS.numberToString hour12 +:+ ":" +:+ minutes +:+ " " +:+ meridiem)
    end
  else None.

(** 32-bit integer conversions of the bitwise operators. *)
Definition toInt32 (x : Z) : Z := ((x + 2 ^ 31) mod 2 ^ 32 - 2 ^ 31)%Z.
Definition toUint32 (x : Z) : Z := (x mod 2 ^ 32)%Z.
Definition shl32 (x : Z) (k : Z) : Z := toInt32 (Z.shiftl (toInt32 x) k).
Definition xor32 (x y : Z) : Z := toInt32 (Z.lxor (toInt32 x) (toInt32 y)).

(** One round of the loop of [hashString]: [hash ^= code], then
    [hash += (hash << 1) + ... + (hash << 24)], an addition of numbers. *)
Definition hashStep (hash : Z) (c : ascii) : Z :=
  let hash := xor32 hash (JS.charCode c) in
  (hash + (shl32 hash 1 + shl32 hash 4 + shl32 hash 7 + shl32 hash 8 + shl32 hash 24))%Z.

Fixpoint hashLoop (value : string) (hash : Z) : Z :=
  match value with
  | EmptyString => hash
  | String c rest => hashLoop rest (hashStep hash c)
  end.

Definition hashString (value : string) : string :=
  let hash := hashLoop value 2166136261%Z in
  JS.padStart 8 "0" (JS.toHexString (toUint32 hash)).

Definition buildShowId (venueId dateISO : string) (showUrl : option string)
    (headliners : list string) : string :=
  let canonical :=
    JS.join "|" [venueId; dateISO; JS.orElse showUrl ""; JS.join "," headliners] in
  hashString canonical.

(** [Array.from(new Set(xs))]: first occurrences, in order. *)
Fixpoint uniqueFrom (seen : gset string) (xs : list string) : list string :=
  match xs with
  | [] => []
  | x :: rest =>
      if decide (x ∈ seen) then uniqueFrom seen rest
      else x :: uniqueFrom ({[x]} ∪ seen) rest
  end.

Definition unique (xs : list string) : list string := uniqueFrom ∅ xs.

(** [Array.prototype.sort(compare)] is stable; with a consistent
    comparator its result is the stable sorted permutation, which this
    insertion computes: an element goes before the first later element
    that does not compare below it. *)
Section Sort.
Context {A : Type} (compare : A → A → Z).

Fixpoint insertSorted (x : A) (sorted : list A) : list A :=
  match sorted with
  | [] => [x]
  | y :: rest =>
      if (compare x y <=? 0)%Z then x :: y :: rest
      else y :: insertSorted x rest
  end.

Fixpoint sortBy (xs : list A) : list A :=
  match xs with
  | [] => []
  | x :: rest => insertSorted x (sortBy rest)
  end.
End Sort.

(** The default comparator of [sort()]: code units, lexicographically. *)
Definition compareCodeUnits (a b : string) : Z :=
  match String.compare a b with
  | Lt => (-1)%Z
  | Eq => 0%Z
  | Gt => 1%Z
  end.

Definition sortStrings (xs : list string) : list string := sortBy compareCodeUnits xs.

(** The loop state of [normalizeShows]: [shows], and [byKey] holding for
    each key the position in [shows] of the object it refers to. *)
Record GroupState : Type := mkGroup {
  byKey : gmap string nat;
  shows : list VenueDataShow
}.

(** [[...shows].reverse().find(pred)]: the last show satisfying [pred]. *)
Fixpoint findLast (pred : VenueDataShow → bool) (i : nat)
    (shows : list VenueDataShow) : option nat :=
  match shows with
  | [] => None
  | s :: rest =>
      match findLast pred (S i) rest with
      | Some k => Some k
      | None => if pred s then Some i else None
      end
  end.

Definition pushHeadliners (names : list string) (show : VenueDataShow) : VenueDataShow :=
  {| showId := showId show; dateISO := dateISO show; startTime := startTime show;
     venueId := venueId show; venueName := venueName show; showUrl := showUrl show;
     sourceUrl := sourceUrl show;
     headliners := headliners show ++ names;
     openers := openers show |}.

Definition pushOpeners (names : list string) (show : VenueDataShow) : VenueDataShow :=
  {| showId := showId show; dateISO := dateISO show; startTime := startTime show;
     venueId := venueId show; venueName := venueName show; showUrl := showUrl show;
     sourceUrl := sourceUrl show;
     headliners := headliners show;
     openers := openers show ++ names |}.

(** [item.showUrl || null] *)
Definition rowShowUrl (item : Scraped.t) : option string :=
  if JS.truthy (Scraped.showUrl item) then Some (Scraped.showUrl item) else None.

(** [item.roles[0] ?? "headliner"] *)
Definition rowRole (item : Scraped.t) : string :=
  match Scraped.roles item with
  | role :: _ => role
  | [] => "headliner"
  end.

Definition isOpener (item : Scraped.t) : bool :=
  bool_decide (rowRole item = "opener").

Definition rowKey (item : Scraped.t) : option string :=
  match rowShowUrl item with
  | Some url => Some ("url:" +:+ url)
  | None =>
      if isOpener item then None
      else Some ("date:" +:+ Scraped.date item +:+ "|headliner:"
                   +:+ JS.join "," (Scraped.artists item))
  end.

(** The body of the loop over the scraped rows. *)
Definition groupStep (venueId venueName sourceUrl : string)
    (st : GroupState) (item : Scraped.t) : GroupState :=
  let key := rowKey item in
  let found : option nat :=
    match key ≫= (fun k => byKey st !! k) with
    | Some i => Some i
    | None =>
        if isOpener item
        then findLast
               (fun existing =>
                  bool_decide (dateISO existing = Scraped.date item)
                  && bool_decide (showUrl existing = None))
               0 (shows st)
        else None
    end in
  let '(st, i) :=
    match found with
    | Some i => (st, i)
    | None =>
        let show :=
          {| showId := EmptyString;
             dateISO := Scraped.date item;
             startTime := formatTime12 (Scraped.time item);
             venueId := venueId;
             venueName := venueName;
             showUrl := rowShowUrl item;
             sourceUrl := sourceUrl;
             headliners := [];
             openers := [] |} in
        let i := length (shows st) in
        ({| byKey := match key with
                     | Some k => <[k := i]> (byKey st)
                     | None => byKey st
                     end;
            shows := shows st ++ [show] |}, i)
    end in
  {| byKey := byKey st;
     shows :=
       alter (if isOpener item then pushOpeners (Scraped.artists item)
              else pushHeadliners (Scraped.artists item))
         i (shows st) |}.

Definition groupRows (venueId venueName sourceUrl : string)
    (scraped : list Scraped.t) : list VenueDataShow :=
  shows (fold_left (groupStep venueId venueName sourceUrl) scraped
           {| byKey := ∅; shows := [] |}).

(** The callback of [shows.map(...)]. *)
Definition normalizeShow (show : VenueDataShow) : VenueDataShow :=
  let headliners := sortStrings (unique (headliners show)) in
  let openers := sortStrings (unique (openers show)) in
  let showId := buildShowId (venueId show) (dateISO show) (showUrl show) headliners in
  {| showId := showId;
     dateISO := dateISO show;
     startTime := startTime show;
     venueId := venueId show;
     venueName := venueName show;
     showUrl := showUrl show;
     sourceUrl := sourceUrl show;
     headliners := headliners;
     openers := openers |}.

(** The [deduped] map: the first show of every exact key, in insertion
    order. *)
Fixpoint dedupeFrom (seen : gset string) (normalized : list VenueDataShow)
    : list VenueDataShow :=
  match normalized with
  | [] => []
  | show :: rest =>
      let key := buildShowKey show in
      if decide (key ∈ seen) then dedupeFrom seen rest
      else show :: dedupeFrom ({[key]} ∪ seen) rest
  end.

Definition dedupe (normalized : list VenueDataShow) : list VenueDataShow :=
  dedupeFrom ∅ normalized.

Section Locale.
(** [a.localeCompare(b)]: negative, zero or positive; the collation is
    the host's. *)
Variable localeCompare : string → string → Z.

(** The comparator handed to [finalShows.sort]. *)
Definition compareShows (a b : VenueDataShow) : Z :=
  if negb (bool_decide (dateISO a = dateISO b))
  then localeCompare (dateISO a) (dateISO b)
  else if negb (bool_decide (JS.orElse (startTime a) "" = JS.orElse (startTime b) ""))
  then localeCompare (JS.orElse (startTime a) "") (JS.orElse (startTime b) "")
  else localeCompare (JS.join "," (headliners a)) (JS.join "," (headliners b)).

Definition normalizeShows (venueId venueName sourceUrl : string)
    (scraped : list Scraped.t) : list VenueDataShow :=
  let shows := groupRows venueId venueName sourceUrl scraped in
  let normalized := map normalizeShow shows in
  let finalShows := dedupe normalized in
  sortBy compareShows finalShows.

(** The comparator of [scripts/buildAllVenues.ts], which orders the
    merged list of all venues. *)
Definition compareTime (value : option string) : string := JS.orElse value "99:99 PM".

Definition sortShows (a b : VenueDataShow) : Z :=
  if negb (bool_decide (dateISO a = dateISO b))
  then localeCompare (dateISO a) (dateISO b)
  else if negb (bool_decide (compareTime (startTime a) = compareTime (startTime b)))
  then localeCompare (compareTime (startTime a)) (compareTime (startTime b))
  else if negb (bool_decide (venueName a = venueName b))
  then localeCompare (venueName a) (venueName b)
  else localeCompare (JS.join "," (headliners a)) (JS.join "," (headliners b)).
End Locale.

(** ** Batch orchestrator ([runUpdate] of [scripts/updateVenueData.ts]) *)

Record VenueInfo : Type := mkVenue {
  id : string;
  name : string;
  calendarUrl : string
}.

Record VenueDataFile : Type := mkFile {
  venue : VenueInfo;
  generatedAtISO : string;
  fileShows : list VenueDataShow
}.

Record VenueIndexEntry : Type := mkEntry {
  entryId : string;
  entryName : string;
  entryCalendarUrl : string;
  dataPath : string
}.

(** What a path of the output directory holds: the JSON text of a venue
    file, or text that [JSON.parse] rejects or maps to [null]. *)
Inductive FileContent : Type :=
| VenueJson (file : VenueDataFile)
| Unparsable (text : string).

Record Args : Type := mkArgs {
  argVenue : string;
  startDateISO : option string;
  endDateISO : option string;
  outDir : string
}.

(** The files of the output directory, the [writeFile] calls made so
    far, the venues listed for the index, and the failure flag. *)
Record RunState : Type := mkRun {
  files : gmap string FileContent;
  writes : list (string * FileContent);
  indexVenues : list VenueIndexEntry;
  hadFatal : bool
}.

(** [readFile] followed by [JSON.parse], inside [try]: [None] is the
    [null] left in [previous] when either throws. *)
Definition readPrevious (fs : gmap string FileContent) (filePath : string)
    : option VenueDataFile :=
  match fs !! filePath with
  | Some (VenueJson file) => Some file
  | Some (Unparsable _) => None
  | None => None
  end.

Section Host.
(** The host: collation, path arithmetic and the venue scrapers. *)
Variable localeCompare : string → string → Z.
Variable pathJoin : string → string → string.
Variable gatherScrapedShows :
  string → string → string * string → list Scraped.t * option string.

(** The clock: [new Date().toISOString()] and its first ten characters. *)
Variable generatedAt : string.
Variable todayISO : string.

(** [mergedArgs], and [argsOverride?.scrapedByVenue]. *)
Variable mergedArgs : Args.
Variable scrapedByVenue : gmap string (list Scraped.t).

Definition venueFilePath (v : VenueInfo) : string :=
  pathJoin (outDir mergedArgs) (id v +:+ ".json").

(** What the loop body binds for one venue once its rows are in. *)
Record VenuePass : Type := mkPass {
  previous : option VenueDataFile;
  showsWithIds : list VenueDataShow;
  countsAll : DiffCounts;
  countsFuture : DiffCounts;
  shouldWrite : bool
}.

Definition fromToday (show : VenueDataShow) : bool :=
  JS.strGe (dateISO show) todayISO.

Definition venuePass (fs : gmap string FileContent) (v : VenueInfo)
    (scraped : list Scraped.t) : VenuePass :=
  let nextShows := normalizeShows localeCompare (id v) (name v) (calendarUrl v) scraped in
  let previous := readPrevious fs (venueFilePath v) in
  let previousShows :=
    match previous with
    | Some file => fileShows file
    | None => []
    end in
  let showsWithIds := preserveShowIds nextShows previousShows in
  let futurePrevious := filter (fun show => fromToday show = true) previousShows in
  let futureNext := filter (fun show => fromToday show = true) showsWithIds in
  let countsAll := diffShows previousShows showsWithIds in
  let countsFuture := diffShows futurePrevious futureNext in
  let shouldWrite :=
    negb (bool_decide (is_Some previous))
    || (0 <? updated countsFuture)%Z
    || (0 <? added countsFuture)%Z
    || (0 <? removed countsFuture)%Z in
  {| previous := previous;
     showsWithIds := showsWithIds;
     countsAll := countsAll;
     countsFuture := countsFuture;
     shouldWrite := shouldWrite |}.

(** The rows of a venue: the override when there is one, else the
    scraper's. *)
Definition scrapedRows (v : VenueInfo) : list Scraped.t * option string :=
  let start := JS.orElse (startDateISO mergedArgs) "1900-01-01" in
  let finish := JS.orElse (endDateISO mergedArgs) "2100-12-31" in
  match scrapedByVenue !! id v with
  | Some rows => (rows, None)
  | None => gatherScrapedShows (id v) (calendarUrl v) (start, finish)
  end.

(** The body of the loop over the selected venues. *)
Definition updateVenue (st : RunState) (v : VenueInfo) : RunState :=
  let '(scraped, error) := scrapedRows v in
  if JS.truthy (JS.orElse error "")
  then {| files := files st; writes := writes st;
          indexVenues := indexVenues st; hadFatal := true |}
  else
    let pass := venuePass (files st) v scraped in
    let payload :=
      {| venue := {| id := id v; name := name v; calendarUrl := calendarUrl v |};
         generatedAtISO := generatedAt;
         fileShows := showsWithIds pass |} in
    {| files :=
         if shouldWrite pass
         then <[venueFilePath v := VenueJson payload]> (files st)
         else files st;
       writes :=
         if shouldWrite pass
         then writes st ++ [(venueFilePath v, VenueJson payload)]
         else writes st;
       indexVenues :=
         indexVenues st
           ++ [{| entryId := id v; entryName := name v;
                  entryCalendarUrl := calendarUrl v;
                  dataPath := "data/venues/" +:+ id v +:+ ".json" |}];
       hadFatal := hadFatal st |}.

End Host.

(** ** The strategy cascade, as the specification names it *)

(** The five key functions, strictest first. *)
Definition strategies : list (VenueDataShow → string) :=
  [buildShowKey; buildStableShowKey; buildUrlKey; buildDateTimeKey;
   buildHeadlinerTimeKey].

(** The passes of [tryMatch] over [keyFns] in order, each from the state
    the one before left: the pairs of every pass, and the final state. *)
Fixpoint cascade (previous next : list VenueDataShow) (state : MatchState)
    (keyFns : list (VenueDataShow → string)) : list (list Pair) * MatchState :=
  match keyFns with
  | [] => ([], state)
  | keyFn :: rest =>
      let '(state', pairs) := tryMatch previous next state keyFn in
      let '(more, final) := cascade previous next state' rest in
      (pairs :: more, final)
  end.

(** The pairs strategy [k] (counted from 1) makes on two batches. *)
Definition strategyPairs (k : nat) (previous next : list VenueDataShow) : list Pair :=
  default [] ((cascade previous next emptyState strategies).1 !! (k - 1)).

(** The state in which strategy [k] starts. *)
Definition stateBefore (k : nat) (previous next : list VenueDataShow) : MatchState :=
  (cascade previous next emptyState (take (k - 1) strategies)).2.

(** Every pair of the cascade. *)
Definition allPairs (previous next : list VenueDataShow) : list Pair :=
  concat (cascade previous next emptyState strategies).1.

(** Records that agree on every field other than [showId]. *)
Definition sameButId (a b : VenueDataShow) : Prop :=
  dateISO a = dateISO b ∧ startTime a = startTime b ∧ venueId a = venueId b
  ∧ venueName a = venueName b ∧ showUrl a = showUrl b
  ∧ sourceUrl a = sourceUrl b ∧ headliners a = headliners b
  ∧ openers a = openers b.

(** The unmatched previous indices whose key is [key], from index [i]. *)
Fixpoint candidates (keyFn : VenueDataShow → string) (matched : gset nat)
    (key : string) (i : nat) (previous : list VenueDataShow) : list nat :=
  match previous with
  | [] => []
  | p :: rest =>
      (if decide ((i ∉ matched) ∧ keyFn p = key) then [i] else [])
        ++ candidates keyFn matched key (S i) rest
  end.

(** The pairs one pass makes, read off the lookup and the set of next
    indices matched before the pass. *)
Fixpoint pairsOf (keyFn : VenueDataShow → string) (map : gmap string (list nat))
    (matched : gset nat) (j : nat) (next : list VenueDataShow) : list Pair :=
  match next with
  | [] => []
  | n :: rest =>
      (if decide (j ∈ matched) then []
       else if JS.truthy (keyFn n)
            then match map !! keyFn n with
                 | Some [prevIdx] => [{| prevIndex := prevIdx; nextIndex := j |}]
                 | _ => []
                 end
            else [])
        ++ pairsOf keyFn map matched (S j) rest
  end.

(** One strategy pass of [preserveShowIds] and its assignment loop, on
    the result array and the matching state. *)
Definition passOnValues (previousShows : list VenueDataShow)
    (keyFn : VenueDataShow → string) (rs : list VenueDataShow * MatchState)
    : list VenueDataShow * MatchState :=
  (assignShowIds previousShows (tryMatch previousShows rs.1 rs.2 keyFn).2 rs.1,
   (tryMatch previousShows rs.1 rs.2 keyFn).1).



(** ** Sample batches *)

Definition sampleShow (id date : string) (time : option string) (url : string)
    (headliners openers : list string) : VenueDataShow :=
  {| showId := id; dateISO := date; startTime := time;
     venueId := "bottom-of-the-hill"; venueName := "Bottom of the Hill";
     showUrl := Some url;
     sourceUrl := "https://www.bottomofthehill.com/calendar.html";
     headliners := headliners; openers := openers |}.

Definition url0110 : string := "https://www.bottomofthehill.com/20260110.html".
Definition url0111 : string := "https://www.bottomofthehill.com/20260111.html".
Definition url0112 : string := "https://www.bottomofthehill.com/20260112.html".
Definition url0103 : string := "https://www.bottomofthehill.com/20260103.html".

(** A stored show, and the same show scraped again with an opener added. *)
Definition storedShow : VenueDataShow :=
  sampleShow "old" "2026-01-10" (Some "8:00 PM") url0110 ["A"] [].
Definition rescrapedShow : VenueDataShow :=
  sampleShow "5f2c1a9e" "2026-01-10" (Some "8:00 PM") url0110 ["A"] ["NewOpener"].

(** A second stored show, and a scraped show that resembles neither. *)
Definition otherStored : VenueDataShow :=
  sampleShow "other" "2026-01-12" (Some "8:00 PM") url0112 ["B"] [].
Definition unrelatedShow : VenueDataShow :=
  sampleShow "0badcafe" "2026-01-11" (Some "9:00 PM") url0111 ["C"] [].

(** Two scraped shows of one evening, on pages the stored batch does not
    know. *)
Definition earlyShow : VenueDataShow :=
  sampleShow "11111111" "2026-01-10" (Some "8:00 PM") url0111 ["B"] [].
Definition lateShow : VenueDataShow :=
  sampleShow "22222222" "2026-01-10" (Some "8:00 PM") url0112 ["C"] [].

(** The reference date of the fixtures, 2026-01-05. *)
Definition referenceDate : JS.Date :=
  {| JS.getUTCFullYear := 2026; JS.getUTCMonth := 0; JS.getUTCDate := 5 |}.

(** A heap holding the stored show and its rescraped version. *)
Definition sampleHeap : gmap nat VenueDataShow :=
  <[0 := storedShow]> (<[1 := rescrapedShow]> ∅).

(** ** A sample run, after [scripts/updateVenueData.test.ts] *)

Definition sampleVenue : VenueInfo :=
  {| id := "bottom-of-the-hill"; name := "Bottom of the Hill";
     calendarUrl := "https://www.bottomofthehill.com/calendar.html" |}.

Definition sampleArgs : Args :=
  {| argVenue := "bottom-of-the-hill"; startDateISO := Some "2026-01-01";
     endDateISO := Some "2026-12-31"; outDir := "tmp-venue-update/data/venues" |}.

Definition samplePathJoin (dir file : string) : string := dir +:+ "/" +:+ file.

Definition noScraper (venueId calendarUrl : string) (range : string * string)
    : list Scraped.t * option string :=
  ([], Some ("No scraper wired for " +:+ venueId +:+ ".")).

(** The rows [runUpdateWithShows] makes of a show: its first headliner,
    then one row per opener, all at 20:00. *)
Definition rowsOfShow (show : VenueDataShow) : list Scraped.t :=
  {| Scraped.date := dateISO show; Scraped.time := "20:00";
     Scraped.artists := [default EmptyString (headliners show !! 0)];
     Scraped.roles := ["headliner"]; Scraped.venue := venueId show;
     Scraped.showUrl := JS.orElse (showUrl show) "";
     Scraped.sourcePageUrl := sourceUrl show |}
  :: map (fun opener =>
            {| Scraped.date := dateISO show; Scraped.time := "20:00";
               Scraped.artists := [opener]; Scraped.roles := ["opener"];
               Scraped.venue := venueId show;
               Scraped.showUrl := JS.orElse (showUrl show) "";
               Scraped.sourcePageUrl := sourceUrl show |})
       (openers show).

Definition pastShow : VenueDataShow :=
  sampleShow "remove" "2026-01-03" (Some "8:00 PM") url0103
    ["Removed Headliner"] ["Removed Opener"].
Definition keptShow : VenueDataShow :=
  sampleShow "unchanged" "2026-01-10" (Some "8:00 PM") url0110
    ["Unchanged Headliner"] ["Unchanged Opener"].

Definition sampleFile (shows : list VenueDataShow) : VenueDataFile :=
  {| venue := sampleVenue; generatedAtISO := "2026-01-01T00:00:00.000Z";
     fileShows := shows |}.

Definition samplePath : string :=
  "tmp-venue-update/data/venues/bottom-of-the-hill.json".

(** The state a run starts in when the output directory holds [shows]. *)
Definition sampleStart (shows : list VenueDataShow) : RunState :=
  {| files := {[ samplePath := VenueJson (sampleFile shows) ]};
     writes := []; indexVenues := []; hadFatal := false |}.

(** The state a run starts in when the venue's file does not parse. *)
Definition corruptStart : RunState :=
  {| files := {[ samplePath := Unparsable "<html>502 Bad Gateway</html>" ]};
     writes := []; indexVenues := []; hadFatal := false |}.

(** One venue step of the sample run on 2026-01-05 with [scraped] rows. *)
Definition sampleUpdate (scraped : list Scraped.t) (st : RunState) : RunState :=
  updateVenue compareCodeUnits samplePathJoin noScraper
    "2026-01-05T12:00:00.000Z" "2026-01-05" sampleArgs
    {[ "bottom-of-the-hill" := scraped ]} st sampleVenue.

(** Two scraped rows of one evening: one with a show time, one without. *)
Definition timedRow : Scraped.t :=
  {| Scraped.date := "2026-01-10"; Scraped.time := "20:00";
     Scraped.artists := ["A"]; Scraped.roles := ["headliner"];
     Scraped.venue := "bottom-of-the-hill"; Scraped.showUrl := url0110;
     Scraped.sourcePageUrl := "https://www.bottomofthehill.com/calendar.html" |}.

Definition untimedRow : Scraped.t :=
  {| Scraped.date := "2026-01-10"; Scraped.time := EmptyString;
     Scraped.artists := ["B"]; Scraped.roles := ["headliner"];
     Scraped.venue := "bottom-of-the-hill"; Scraped.showUrl := url0111;
     Scraped.sourcePageUrl := "https://www.bottomofthehill.com/calendar.html" |}.

(** [normalizeShows] for the sample venue. *)
Definition sampleNormalize (localeCompare : string → string → Z)
    (scraped : list Scraped.t) : list VenueDataShow :=
  normalizeShows localeCompare (id sampleVenue) (name sampleVenue)
    (calendarUrl sampleVenue) scraped.

(** An opener row that no headliner row comes before. *)
Definition orphanOpener : Scraped.t :=
  {| Scraped.date := "2026-01-10"; Scraped.time := "20:00";
     Scraped.artists := ["Band B"]; Scraped.roles := ["opener"];
     Scraped.venue := "bottom-of-the-hill"; Scraped.showUrl := url0110;
     Scraped.sourcePageUrl := "https://www.bottomofthehill.com/calendar.html" |}.

(** ** Row lists as the venue parsers emit them *)

(** A row is headed, after the rows [before] it, when it is a headliner
    row naming an artist, or an opener row after a headliner row of its
    show: one with the same [showUrl] and, without a [showUrl], the same
    date. *)
Definition headed (before : list Scraped.t) (item : Scraped.t) : Prop :=
  if isOpener item
  then ∃ h, h ∈ before ∧ isOpener h = false
            ∧ rowShowUrl h = rowShowUrl item
            ∧ (rowShowUrl item = None → Scraped.date h = Scraped.date item)
  else Scraped.artists item ≠ [].

Fixpoint headlinersFirst (before rows : list Scraped.t) : Prop :=
  match rows with
  | [] => True
  | item :: rest => headed before item ∧ headlinersFirst (before ++ [item]) rest
  end.

(** Rows with one grouping key carry one date. *)
Definition sameKeySameDate (rows : list Scraped.t) : Prop :=
  ∀ a b k, a ∈ rows → b ∈ rows → rowKey a = Some k → rowKey b = Some k →
           Scraped.date a = Scraped.date b.

(** ** The groups of a row list *)

(** The rows under the grouping key [key], in order. *)
Definition members (key : string) (rows : list Scraped.t) : list Scraped.t :=
  filter (fun item => rowKey item = Some key) rows.

(** The artists of the opener rows ([opener = true]) or of the other
    rows, in row order. *)
Definition artistsOf (opener : bool) (rows : list Scraped.t) : list string :=
  concat (Scraped.artists <$> filter (fun item => isOpener item = opener) rows).

(** The show the grouping loop holds for the rows of one key: date, time
    and page of the first row, the artists of the rows by role. *)
Definition buildGroup (venue venueTitle source : string) (rows : list Scraped.t)
    : VenueDataShow :=
  {| showId := EmptyString;
     dateISO := from_option Scraped.date EmptyString (head rows);
     startTime := head rows ≫= (fun item => formatTime12 (Scraped.time item));
     venueId := venue;
     venueName := venueTitle;
     showUrl := head rows ≫= rowShowUrl;
     sourceUrl := source;
     headliners := artistsOf false rows;
     openers := artistsOf true rows |}.

(** What holds of the loop state after the rows [before], when they are
    headed: every show has a headliner; the keys of [byKey] are the keys
    of the rows; a row without [showUrl] that has a key left a show of its
    date without [showUrl]. *)
Definition grouped (before : list Scraped.t) (st : GroupState) : Prop :=
  (∀ s, s ∈ shows st → headliners s ≠ [])
  ∧ (∀ h k, h ∈ before → rowKey h = Some k → is_Some (byKey st !! k))
  ∧ (∀ k, is_Some (byKey st !! k) → ∃ h, h ∈ before ∧ rowKey h = Some k)
  ∧ (∀ h k, h ∈ before → rowKey h = Some k → rowShowUrl h = None →
       ∃ s, s ∈ shows st ∧ dateISO s = Scraped.date h ∧ showUrl s = None).

(** The state of the grouping loop after the rows [before], all with a
    show page: [keys] lists the keys met, in order of first row; [byKey]
    sends each to its position; and the show at a position is the group
    of the rows of its key. *)
Definition tracks (venue venueTitle source : string) (before : list Scraped.t)
    (keys : list string) (st : GroupState) : Prop :=
  NoDup keys
  ∧ (∀ k i, byKey st !! k = Some i ↔ keys !! i = Some k)
  ∧ (∀ k, k ∈ keys ↔ ∃ item, item ∈ before ∧ rowKey item = Some k)
  ∧ shows st
    = (fun k => buildGroup venue venueTitle source (members k before)) <$> keys.

(** The batch before deduplication and sorting: the grouped shows, each
    with its names canonical and its identifier computed. *)
Definition groupedBatch (venue venueTitle source : string)
    (scraped : list Scraped.t) : list VenueDataShow :=
  map normalizeShow (groupRows venue venueTitle source scraped).


(** The order a comparator induces. *)
Definition leBy {A : Type} (compare : A → A → Z) (a b : A) : Prop :=
  (compare a b <= 0)%Z.


(** A comparator that orders the strings totally. *)
Definition totalOrder (compare : string → string → Z) : Prop :=
  (∀ a b, leBy compare a b ∨ leBy compare b a)
  ∧ (∀ a b c, leBy compare a b → leBy compare b c → leBy compare a c)
  ∧ (∀ a b, leBy compare a b → leBy compare b a → a = b).

(** Every row carries a show page. *)
Definition allWithUrl (rows : list Scraped.t) : Prop :=
  ∀ item, item ∈ rows → JS.truthy (Scraped.showUrl item) = true.



(** ** What a normalized record owes to the rows *)

(** A show made of [rows] alone: the venue as given; date, time and page
    of one row; every headliner named by a row that is not an opener row
    and every opener by an opener row. *)
Definition fromRows (venue venueTitle source : string) (rows : list Scraped.t)
    (show : VenueDataShow) : Prop :=
  venueId show = venue ∧ venueName show = venueTitle ∧ sourceUrl show = source
  ∧ (∃ item, item ∈ rows ∧ dateISO show = Scraped.date item
             ∧ startTime show = formatTime12 (Scraped.time item)
             ∧ showUrl show = rowShowUrl item)
  ∧ (∀ x, x ∈ headliners show →
       ∃ item, item ∈ rows ∧ isOpener item = false ∧ x ∈ Scraped.artists item)
  ∧ (∀ x, x ∈ openers show →
       ∃ item, item ∈ rows ∧ isOpener item = true ∧ x ∈ Scraped.artists item).

(** Names in strictly ascending order of code units. *)
Definition ascending (names : list string) : Prop :=
  StronglySorted (fun a b => String.compare a b = Lt) names.

(** ** The run as a whole *)



(** ** Row builders of the venue parsers
    ([src/server/venues/bottomOfTheHill.ts], [theIndependent.ts]) *)

Module Parsed.
Record t : Type := mk {
  dateISO : string;
  time24 : string;
  headliner : string;
  openers : list string;
  showUrl : string;
  sourcePageUrl : string
}.
End Parsed.

(** [toScrapedShows]: the headliner row of a parsed show, then one row
    per opener.  The callback of [flatMap] in [buildBottomShows] has the
    same body. *)
Definition toScrapedShows (show : Parsed.t) (venue : string) : list Scraped.t :=
  let base (artists roles : list string) : Scraped.t :=
    {| Scraped.date := Parsed.dateISO show;
       Scraped.time := Parsed.time24 show;
       Scraped.artists := artists;
       Scraped.roles := roles;
       Scraped.venue := venue;
       Scraped.showUrl := Parsed.showUrl show;
       Scraped.sourcePageUrl := Parsed.sourcePageUrl show |} in
  base [Parsed.headliner show] ["headliner"]
    :: map (fun opener => base [opener] ["opener"]) (Parsed.openers show).

(** The messages a scraper yields. *)
Inductive StreamMessage : Type :=
| Progress (message : string)
| ShowEvent (show : Scraped.t)
| ErrorMessage (message : string)
| Done (totalShows : Z).

(** What [fetch] comes to: a rejection, or a response. *)
Inductive FetchResult : Type :=
| FetchThrows
| Response (ok : bool) (status : Z) (text : string).

Section Scrapers.
(** [Date.parse]: the time value of a date string, [None] for NaN. *)
Variable dateParse : string → option Z.

(** [isWithinRange] of [utils.ts]: a comparison with NaN is false. *)
Definition isWithinRange (dateISO startDateISO endDateISO : string) : bool :=
  match dateParse dateISO, dateParse startDateISO, dateParse endDateISO with
  | Some dateValue, Some startValue, Some endValue =>
      (startValue <=? dateValue)%Z && (dateValue <=? endValue)%Z
  | _, _, _ => false
  end.

(** [buildIndependentShows] and [buildBottomShows] differ in the venue
    they default to. *)
Definition buildShows (defaultVenue : string) (parsed : list Parsed.t)
    (startDateISO endDateISO : string) (venueId : option string) : list Scraped.t :=
  let resolvedVenue := JS.orElse venueId defaultVenue in
  concat
    (map (fun show => toScrapedShows show resolvedVenue)
       (filter
          (fun show =>
             isWithinRange (Parsed.dateISO show) startDateISO endDateISO = true)
          parsed)).

Definition buildIndependentShows : list Parsed.t → string → string → option string
    → list Scraped.t :=
  buildShows "the-independent".

Definition buildBottomShows : list Parsed.t → string → string → option string
    → list Scraped.t :=
  buildShows "bottom-of-the-hill".

(** The network and the HTML parser of Bottom of the Hill ([None] when
    it throws), and the day of the run. *)
Variable fetchWithTimeout : string → FetchResult.
Variable parseBottomOfTheHillHtml : string → string → string → option (list Parsed.t).
Variable referenceDateISO : string.

End Scrapers.

(** [emit] of [gatherScrapedShows]: a show joins [scraped], an error
    takes the place of the one before. *)
Definition emit (acc : list Scraped.t * option string) (message : StreamMessage)
    : list Scraped.t * option string :=
  match message with
  | Progress _ => acc
  | ErrorMessage text => (acc.1, Some text)
  | ShowEvent show => (acc.1 ++ [show], acc.2)
  | Done _ => acc
  end.

(** [gatherScrapedShows], given the two scrapers it is wired to. *)
Definition gatherScrapedShows
    (scrapeTheIndependent scrapeBottom : string → string * string → list StreamMessage)
    (venueId calendarUrl : string) (range : string * string)
    : list Scraped.t * option string :=
  if decide (venueId = "the-independent")
  then fold_left emit (scrapeTheIndependent calendarUrl range) ([], None)
  else if decide (venueId = "bottom-of-the-hill")
  then fold_left emit (scrapeBottom calendarUrl range) ([], None)
  else ([], Some ("No scraper wired for " +:+ venueId +:+ ".")).

(** The grouping key of the rows of a parsed show with a page. *)
Definition pageKey (p : Parsed.t) : string := "url:" +:+ Parsed.showUrl p.

(** The show a parsed show with a page comes to once its rows are
    normalized. *)
Definition showOfParsed (venue venueTitle source : string) (p : Parsed.t)
    : VenueDataShow :=
  {| showId := buildShowId venue (Parsed.dateISO p) (Some (Parsed.showUrl p))
                 [Parsed.headliner p];
     dateISO := Parsed.dateISO p;
     startTime := formatTime12 (Parsed.time24 p);
     venueId := venue;
     venueName := venueTitle;
     showUrl := Some (Parsed.showUrl p);
     sourceUrl := source;
     headliners := [Parsed.headliner p];
     openers := sortStrings (unique (Parsed.openers p)) |}.

(** Two parsed shows of the sample venue. *)
Definition parsedA : Parsed.t :=
  {| Parsed.dateISO := "2026-01-10"; Parsed.time24 := "20:00";
     Parsed.headliner := "A"; Parsed.openers := ["Zed"; "Band B"; "Zed"];
     Parsed.showUrl := url0110;
     Parsed.sourcePageUrl := "https://www.bottomofthehill.com/calendar.html" |}.

Definition parsedB : Parsed.t :=
  {| Parsed.dateISO := "2026-01-11"; Parsed.time24 := "";
     Parsed.headliner := "C"; Parsed.openers := [];
     Parsed.showUrl := url0111;
     Parsed.sourcePageUrl := "https://www.bottomofthehill.com/calendar.html" |}.

(** The shows and the error messages of a stream, in order. *)
Definition eventsOf (messages : list StreamMessage) : list Scraped.t :=
  omap (fun message => match message with ShowEvent show => Some show | _ => None end)
    messages.

Definition errorsOf (messages : list StreamMessage) : list string :=
  omap (fun message => match message with ErrorMessage text => Some text | _ => None end)
    messages.

(** [Date.parse] on the date-only form YYYY-MM-DD. *)
Definition isoDateParse (text : string) : option Z :=
  year ← JS.parseInt (String.substring 0 4 text);
  month ← JS.parseInt (String.substring 5 2 text);
  day ← JS.parseInt (String.substring 8 2 text);
  Some (JS.DateUTC year (month - 1) day).

(** A host whose network is down. *)
Definition offline (url : string) : FetchResult := FetchThrows.

Definition noStream (calendarUrl : string) (range : string * string)
    : list StreamMessage := [].

(** ** The identifier hash, as FNV-1a names it *)

(** FNV-1a on 32 bits: from the offset basis, each code unit is xor-ed in
    and the result multiplied by the FNV prime, modulo 2^32. *)
Definition fnvPrime : Z := 16777619.
Definition fnvOffsetBasis : Z := 2166136261.

Fixpoint fnv1a (value : string) (hash : Z) : Z :=
  match value with
  | EmptyString => hash
  | String c rest =>
      fnv1a rest ((Z.lxor hash (JS.charCode c) * fnvPrime) mod 2 ^ 32)%Z
  end.

(** Every character of a string is accepted. *)
Fixpoint stringForall (accept : ascii → bool) (s : string) : bool :=
  match s with
  | EmptyString => true
  | String c rest => accept c && stringForall accept rest
  end.

Definition isLowerHex (c : ascii) : bool :=
  JS.isDigit c || ((97 <=? JS.charCode c)%Z && (JS.charCode c <=? 102)%Z).

(** Eight lowercase hexadecimal digits. *)
Definition eightHex (s : string) : Prop :=
  String.length s = 8 ∧ stringForall isLowerHex s = true.

(** ** Text utilities ([src/server/venues/utils.ts]) *)

(** [s.trimEnd()] and [s.trim()]: white space and line terminators go. *)
Fixpoint trimEnd (s : string) : string :=
  match s with
  | EmptyString => EmptyString
  | String c rest =>
      match trimEnd rest with
      | EmptyString => if JS.isSpace c then EmptyString else String c EmptyString
      | kept => String c kept
      end
  end.

Definition trim (s : string) : string := trimEnd (JS.dropSpaces s).

(** [s.replace(/[class]+/g, replacement)]: every maximal run of
    characters of the class becomes one [replacement]; [inRun] tells
    that the character before belongs to a run. *)
Fixpoint replaceRuns (inClass : ascii → bool) (replacement : ascii)
    (inRun : bool) (s : string) : string :=
  match s with
  | EmptyString => EmptyString
  | String c rest =>
      if inClass c
      then if inRun then replaceRuns inClass replacement true rest
           else String replacement (replaceRuns inClass replacement true rest)
      else String c (replaceRuns inClass replacement false rest)
  end.

(** [value.replace(/\s+/g, " ").trim()] *)
Definition normalizeWhitespace (value : string) : string :=
  trim (replaceRuns JS.isSpace " " false value).

(** A pattern letter under the [i] flag: the letter in either case. *)
Definition letterI (c : ascii) : Regex.re :=
  Regex.Chr (fun x => Ascii.eqb (JS.lowerChar x) c).

Fixpoint litI (s : string) : Regex.re :=
  match s with
  | EmptyString => Regex.Eps
  | String c rest => Regex.Seq (letterI c) (litI rest)
  end.

(** [/(?:show:\s* )?(\d{1,2})(?::(\d{2}))?\s* ([ap]m)/i], the blanks
    left out. *)
Definition showTimeRe : Regex.re :=
  let spaces := Regex.Rep 0 None (Regex.Chr JS.isSpace) in
  Regex.Seq
    (Regex.opt (Regex.Seq (litI "show") (Regex.Seq (Regex.char ":") spaces)))
    (Regex.Seq (Regex.Group 1 (Regex.digits 1 2))
       (Regex.Seq
          (Regex.opt (Regex.Seq (Regex.char ":") (Regex.Group 2 (Regex.digits 2 2))))
          (Regex.Seq spaces
             (Regex.Group 3
                (Regex.Seq (Regex.Alt (letterI "a") (letterI "p")) (letterI "m")))))).

Definition parseShowTime (value : string) : string :=
  match Regex.search showTimeRe 3 value with
  | None => EmptyString
  | Some m =>
      let hour := Regex.group m 1 ≫= JS.parseInt in
      let minutes := JS.orElse (Regex.group m 2) "00" in
      let meridiem := JS.toLowerCase (default EmptyString (Regex.group m 3)) in
      let hour :=
        match hour with
        | Some h =>
            if bool_decide (meridiem = "pm") && (h <? 12)%Z then Some (h + 12)%Z
            else hour
        | None => hour
        end in
      let hour :=
        match hour with
        | Some h =>
            if bool_decide (meridiem = "am") && (h =? 12)%Z then Some 0%Z else hour
        | None => hour
        end in
      JS.padStart 2 "0" (showNumber hour) +:+ ":" +:+ minutes
  end.

(** Whether [s] begins with [word], letters in either case; the rest. *)
Fixpoint stripPrefixI (word s : string) : option string :=
  match word, s with
  | EmptyString, _ => Some s
  | String w word', String c rest =>
      if Ascii.eqb (JS.lowerChar c) w then stripPrefixI word' rest else None
  | String _ _, EmptyString => None
  end.

(** [\w]: a letter of the basic alphabet, a digit or the low line. *)
Definition isWordChar (c : ascii) : bool :=
  let n := JS.charCode c in
  ((48 <=? n)%Z && (n <=? 57)%Z) || ((65 <=? n)%Z && (n <=? 90)%Z)
  || ((97 <=? n)%Z && (n <=? 122)%Z) || (n =? 95)%Z.

(** A match of [with\s+] at the start of [s]: what follows it. *)
Definition withRun (s : string) : option string :=
  match stripPrefixI "with" s with
  | Some (String c rest) =>
      if JS.isSpace c then Some (JS.dropSpaces rest) else None
  | _ => None
  end.

(** Deleting every match of [/\bwith\s+/gi]; [prevWord] tells that a
    word character comes before.  Every round takes a character, so the
    length of the text bounds their number. *)
Fixpoint dropWith (fuel : nat) (prevWord : bool) (s : string) : string :=
  match fuel with
  | O => s
  | S fuel' =>
      match s with
      | EmptyString => EmptyString
      | String c rest =>
          match (if prevWord then None else withRun s) with
          | Some after => dropWith fuel' false after
          | None => String c (dropWith fuel' (isWordChar c) rest)
          end
      end
  end.

(** [/^tba$/i], [/^support\s*tba$/i] and [/^more\s*tba$/i] *)
Definition isPlaceholder (item : string) : bool :=
  let tbaAfter (word : string) : bool :=
    match stripPrefixI word item with
    | Some rest => bool_decide (JS.toLowerCase (JS.dropSpaces rest) = "tba")
    | None => false
    end in
  bool_decide (JS.toLowerCase item = "tba") || tbaAfter "support" || tbaAfter "more".

Definition splitOpeners (value : string) : list string :=
  let afterWith :=
    match withRun value with
    | Some rest => rest
    | None => value
    end in
  let afterSlash :=
    match stripPrefixI "w/" afterWith with
    | Some rest => JS.dropSpaces rest
    | None => afterWith
    end in
  let cleaned := trim (dropWith (String.length value) false afterSlash) in
  if JS.truthy cleaned
  then filter (fun item => JS.truthy item && negb (isPlaceholder item) = true)
         (map trim (JS.split "," cleaned))
  else [].

(** ** Venue identifiers ([src/server/venues/index.ts]) *)

(** [a-z0-9] *)
Definition isSlugChar (c : ascii) : bool :=
  let n := JS.charCode c in
  ((48 <=? n)%Z && (n <=? 57)%Z) || ((97 <=? n)%Z && (n <=? 122)%Z).

(** Replacing [/(^-|-$)+/g] by the empty string: a hyphen at the start
    goes, and one at the end. *)
Definition dropFirstHyphen (s : string) : string :=
  match s with
  | String "-" rest => rest
  | _ => s
  end.

Fixpoint dropLastHyphen (s : string) : string :=
  match s with
  | EmptyString => EmptyString
  | String c EmptyString => if Ascii.eqb c "-" then EmptyString else s
  | String c rest => String c (dropLastHyphen rest)
  end.

Definition slugify (value : string) : string :=
  dropLastHyphen
    (dropFirstHyphen
       (replaceRuns (fun c => negb (isSlugChar c)) "-" false (JS.toLowerCase value))).

(** ** Text in normal form *)

(** The characters of the class occur in [s] only as single
    [replacement]s, and not at the start when [afterRun]. *)
Fixpoint separated (inClass : ascii → bool) (replacement : ascii)
    (afterRun : bool) (s : string) : bool :=
  match s with
  | EmptyString => true
  | String c rest =>
      if inClass c
      then Ascii.eqb c replacement && negb afterRun
           && separated inClass replacement true rest
      else separated inClass replacement false rest
  end.

(** Text whose only white space is single spaces between other
    characters. *)
Definition tidy (s : string) : Prop :=
  separated JS.isSpace " " true s = true ∧ trimEnd s = s.

(** Text of [a-z0-9] and single hyphens between them. *)
Definition slug (s : string) : Prop :=
  separated (fun c => negb (isSlugChar c)) "-" true s = true ∧ dropLastHyphen s = s.

(** ** Clock texts *)

Definition twoDigits (n : nat) : string :=
  JS.padStart 2 "0" (JS.numberToString (Z.of_nat n)).

(** A time of the 12-hour clock as a page prints it: the hour, the
    minutes when given, the meridiem in either case, after "Show:" or
    not. *)
Definition clockText (prefixed upper : bool) (hour : nat) (minutes : option nat)
    (pm : bool) : string :=
  (if prefixed then "Show: " else EmptyString)
    +:+ JS.numberToString (Z.of_nat hour)
    +:+ match minutes with
        | Some m => ":" +:+ twoDigits m
        | None => EmptyString
        end
    +:+ " "
    +:+ (if pm then if upper then "PM" else "pm"
         else if upper then "AM" else "am").

(** The same time on the 24-hour clock, and as the data files show it. *)
Definition clock24 (hour : nat) (minutes : option nat) (pm : bool) : string :=
  twoDigits (hour mod 12 + (if pm then 12 else 0)) +:+ ":" +:+ twoDigits (default 0 minutes).

Definition clockShown (hour : nat) (minutes : option nat) (pm : bool) : string :=
  JS.numberToString (Z.of_nat hour) +:+ ":" +:+ twoDigits (default 0 minutes)
    +:+ " " +:+ (if pm then "PM" else "AM").

(** ** Text without a digit *)

Definition digitFree (s : string) : Prop :=
  stringForall (fun c => negb (JS.isDigit c)) s = true.

(** [rest] is what is left of [s] after some of its characters. *)
Definition suffixOf (rest s : string) : Prop := ∃ before, s = before +:+ rest.

(** ** The order of the merged list ([scripts/buildAllVenues.ts]) *)



(** ** The date helper of [src/server/venues/theIndependent.ts] *)

Module Independent.
(** [inferYear] of the parser of The Independent: a month and day that
    lie before the reference date go to the next year. *)
Definition inferYear (month day : Z) (referenceDate : JS.Date) : Z :=
  let referenceUTC :=
    JS.DateUTC (JS.getUTCFullYear referenceDate) (JS.getUTCMonth referenceDate)
      (JS.getUTCDate referenceDate) in
  let candidateUTC := JS.DateUTC (JS.getUTCFullYear referenceDate) (month - 1) day in
  if (candidateUTC <? referenceUTC)%Z
  then (JS.getUTCFullYear referenceDate + 1)%Z
  else JS.getUTCFullYear referenceDate.
End Independent.

(** * Properties *)

(** ** Strings *)

Lemma truthy_spec (s : string) : JS.truthy s = true ↔ s ≠ EmptyString.
Proof. destruct s; simpl; split; intros; congruence. Qed.

Lemma append_empty_inv (a b : string) : a +:+ b = EmptyString → a = EmptyString.
Proof. destruct a; simpl; [done | discriminate]. Qed.

Lemma append_inv_head (a b c : string) : a +:+ b = a +:+ c → b = c.
Proof. induction a as [|ch a IH]; simpl; [done|]. intros [=]. auto. Qed.

Lemma buildStableShowKey_truthy (show : VenueDataShow) :
  JS.truthy (buildStableShowKey show) = true.
Proof.
  apply truthy_spec. unfold buildStableShowKey, JS.join. simpl.
  destruct (dateISO show); simpl; discriminate.
Qed.

(** ** One pass *)

Section Pass.
Variable keyFn : VenueDataShow → string.

Lemma elem_of_candidates matched key i previous x :
  x ∈ candidates keyFn matched key i previous ↔
  i ≤ x ∧ (x ∉ matched) ∧ (∃ p, previous !! (x - i) = Some p ∧ keyFn p = key).
Proof.
  revert i. induction previous as [|p rest IH]; intros i; simpl.
  - split; [by intros ?%elem_of_nil | by intros (_ & _ & ? & ? & _)].
  - rewrite elem_of_app, IH. split.
    + intros [Hin | (Hle & Hx & q & Hq & Hk)].
      * case_decide as Hd; [|by apply elem_of_nil in Hin].
        apply list_elem_of_singleton in Hin as ->. destruct Hd as [Hm Hk].
        split; [lia|]. split; [done|]. exists p. by rewrite Nat.sub_diag.
      * split; [lia|]. split; [done|]. exists q. split; [|done].
        replace (x - i) with (S (x - S i)) by lia. done.
    + intros (Hle & Hx & q & Hq & Hk).
      destruct (decide (x = i)) as [->|Hne].
      * left. rewrite Nat.sub_diag in Hq. simpl in Hq. simplify_eq.
        rewrite decide_True by done. by apply list_elem_of_singleton.
      * right. split; [lia|]. split; [done|]. exists q. split; [|done].
        replace (x - i) with (S (x - S i)) in Hq by lia. done.
Qed.

Lemma candidates_lt matched key i previous x :
  x ∈ candidates keyFn matched key i previous → x < i + length previous.
Proof.
  intros (Hle & _ & p & Hp & _)%elem_of_candidates.
  apply lookup_lt_Some in Hp. lia.
Qed.

Lemma NoDup_candidates matched key i previous :
  NoDup (candidates keyFn matched key i previous).
Proof.
  revert i. induction previous as [|p rest IH]; intros i; simpl.
  - constructor.
  - case_decide; simpl; [|apply IH]. constructor; [|apply IH].
    intros (Hle & _)%elem_of_candidates. lia.
Qed.

(** The lookup built by the first loop lists, for every non-empty key,
    the candidates of that key in index order. *)
Lemma indexPrevious_lookup matched i previous map key :
  JS.truthy key = true →
  default [] (indexPrevious keyFn matched i previous map !! key)
  = default [] (map !! key) ++ candidates keyFn matched key i previous.
Proof.
  intros Hkey. revert i map.
  induction previous as [|p rest IH]; intros i map; simpl.
  - by rewrite app_nil_r.
  - rewrite IH. destruct (decide (i ∈ matched)) as [Hin|Hin].
    + rewrite decide_False by tauto. done.
    + destruct (JS.truthy (keyFn p)) eqn:Hp.
      * destruct (decide (keyFn p = key)) as [Heq|Hne].
        -- rewrite Heq, lookup_insert_eq. simpl. rewrite decide_True by done.
           by rewrite <- app_assoc.
        -- rewrite lookup_insert_ne by done.
           rewrite decide_False by tauto. done.
      * rewrite decide_False; [done|]. intros [_ Heq]. congruence.
Qed.

Lemma indexPrevious_nonempty matched i previous map key :
  (∀ k, map !! k ≠ Some []) →
  indexPrevious keyFn matched i previous map !! key ≠ Some [].
Proof.
  revert i map. induction previous as [|p rest IH]; intros i map Hmap; simpl.
  - apply Hmap.
  - apply IH. intros k. destruct (decide (i ∈ matched)); [apply Hmap|].
    destruct (JS.truthy (keyFn p)); [|apply Hmap].
    destruct (decide (keyFn p = k)) as [->|Hne].
    + rewrite lookup_insert_eq. intros [=Heq].
      by apply app_eq_nil in Heq as [_ ?].
    + rewrite lookup_insert_ne by done. apply Hmap.
Qed.

(** A key has exactly one entry in the lookup of a pass iff exactly one
    previous record, unmatched when the pass starts, carries it. *)
Lemma index_single matched previous key x :
  JS.truthy key = true →
  indexPrevious keyFn matched 0 previous ∅ !! key = Some [x] ↔
  candidates keyFn matched key 0 previous = [x].
Proof.
  intros Hkey.
  pose proof (indexPrevious_lookup matched 0 previous ∅ key Hkey) as Hl.
  rewrite lookup_empty in Hl. simpl in Hl. rewrite <- Hl.
  pose proof (indexPrevious_nonempty matched 0 previous ∅ key) as Hne.
  destruct (indexPrevious keyFn matched 0 previous ∅ !! key) as [l|] eqn:E; simpl.
  - split; congruence.
  - split; discriminate.
Qed.

Lemma pairsOf_ext map matched matched' j next :
  (∀ x, j ≤ x → x ∈ matched ↔ x ∈ matched') →
  pairsOf keyFn map matched j next = pairsOf keyFn map matched' j next.
Proof.
  revert j. induction next as [|n rest IH]; intros j Hext; simpl; [done|].
  rewrite (IH (S j)) by (intros; apply Hext; lia).
  f_equal. destruct (decide (j ∈ matched)) as [Hin|Hin].
  - rewrite decide_True; [done|]. by apply Hext.
  - rewrite decide_False; [done|]. intros ?%Hext; [done|lia].
Qed.

(** The second loop makes exactly the pairs of [pairsOf], in order, and
    records both indices of each. *)
Lemma matchNext_spec map j next state pairs :
  matchNext keyFn map j next state pairs =
  let new := pairsOf keyFn map (matchedNext state) j next in
  ({| matchedPrev := list_to_set (prevIndex <$> new) ∪ matchedPrev state;
      matchedNext := list_to_set (nextIndex <$> new) ∪ matchedNext state |},
   pairs ++ new).
Proof.
  revert j state pairs. induction next as [|n rest IH]; intros j state pairs.
  - simpl. rewrite app_nil_r. destruct state. f_equal. f_equal; set_solver.
  - cbn [matchNext pairsOf].
    assert (Hskip : matchNext keyFn map (S j) rest state pairs =
               ({| matchedPrev :=
                     list_to_set (prevIndex <$>
                        ([] ++ pairsOf keyFn map (matchedNext state) (S j) rest))
                     ∪ matchedPrev state;
                   matchedNext :=
                     list_to_set (nextIndex <$>
                        ([] ++ pairsOf keyFn map (matchedNext state) (S j) rest))
                     ∪ matchedNext state |},
                pairs ++ [] ++ pairsOf keyFn map (matchedNext state) (S j) rest)).
    { by rewrite IH. }
    destruct (decide (j ∈ matchedNext state)); [exact Hskip|].
    destruct (JS.truthy (keyFn n)); [|exact Hskip].
    destruct (map !! keyFn n) as [[|x [|]]|]; try exact Hskip.
    rewrite IH. cbn [matchedNext matchedPrev].
    rewrite (pairsOf_ext map ({[j]} ∪ matchedNext state) (matchedNext state) (S j)).
    2:{ intros y Hy. set_unfold. split; [intros [->|]; [lia|done] | tauto]. }
    cbn zeta. f_equal.
    + f_equal; simpl; set_solver.
    + by rewrite <- app_assoc.
Qed.

Lemma tryMatch_spec previous next state :
  tryMatch previous next state keyFn =
  let map := indexPrevious keyFn (matchedPrev state) 0 previous ∅ in
  let new := pairsOf keyFn map (matchedNext state) 0 next in
  ({| matchedPrev := list_to_set (prevIndex <$> new) ∪ matchedPrev state;
      matchedNext := list_to_set (nextIndex <$> new) ∪ matchedNext state |},
   new).
Proof. unfold tryMatch. by rewrite matchNext_spec. Qed.
End Pass.

Section PassPairs.
Variable keyFn : VenueDataShow → string.

Lemma elem_of_pairsOf map matched j next pr :
  pr ∈ pairsOf keyFn map matched j next ↔
  j ≤ nextIndex pr ∧ (nextIndex pr ∉ matched)
  ∧ (∃ n, next !! (nextIndex pr - j) = Some n
          ∧ JS.truthy (keyFn n) = true
          ∧ map !! keyFn n = Some [prevIndex pr]).
Proof.
  revert j. induction next as [|n rest IH]; intros j; simpl.
  - split; [by intros ?%elem_of_nil | by intros (_ & _ & ? & ? & _)].
  - rewrite elem_of_app, IH. split.
    + intros [Hin | (Hle & Hx & q & Hq & Hk)].
      * destruct (decide (j ∈ matched)); [by apply elem_of_nil in Hin|].
        destruct (JS.truthy (keyFn n)) eqn:Ht; [|by apply elem_of_nil in Hin].
        destruct (map !! keyFn n) as [[|x [|]]|] eqn:Hm;
          try by apply elem_of_nil in Hin.
        apply list_elem_of_singleton in Hin as ->. simpl.
        split; [lia|]. split; [done|]. exists n. by rewrite Nat.sub_diag.
      * split; [lia|]. split; [done|]. exists q. split; [|done].
        replace (nextIndex pr - j) with (S (nextIndex pr - S j)) by lia. done.
    + intros (Hle & Hx & q & Hq & Ht & Hm).
      destruct (decide (nextIndex pr = j)) as [Heq|Hne].
      * left. rewrite Heq, Nat.sub_diag in Hq. simpl in Hq. simplify_eq.
        rewrite decide_False by done. rewrite Ht, Hm.
        destruct pr; simpl. by apply list_elem_of_singleton.
      * right. split; [lia|]. split; [done|]. exists q. split; [|done].
        replace (nextIndex pr - j) with (S (nextIndex pr - S j)) in Hq by lia.
        done.
Qed.

(** A pass visits every next index once: no next record is paired twice
    in one pass. *)
Lemma NoDup_pairsOf_next map matched j next :
  NoDup (nextIndex <$> pairsOf keyFn map matched j next).
Proof.
  revert j. induction next as [|n rest IH]; intros j; simpl; [constructor|].
  rewrite fmap_app. apply NoDup_app. split; [|split; [|apply IH]].
  - destruct (decide (j ∈ matched)); [constructor|].
    destruct (JS.truthy (keyFn n)); [|constructor].
    destruct (map !! keyFn n) as [[|x [|]]|]; try constructor;
      [by intros ?%elem_of_nil | constructor].
  - intros y Hy (pr & -> & (Hle & _)%elem_of_pairsOf)%list_elem_of_fmap.
    destruct (decide (j ∈ matched)); [by apply elem_of_nil in Hy|].
    destruct (JS.truthy (keyFn n)); [|by apply elem_of_nil in Hy].
    destruct (map !! keyFn n) as [[|x [|]]|]; try by apply elem_of_nil in Hy.
    apply list_elem_of_singleton in Hy. simpl in Hy. lia.
Qed.

Lemma candidates_single matched key previous x :
  candidates keyFn matched key 0 previous = [x] ↔
  (x ∉ matched) ∧ (∃ p, previous !! x = Some p ∧ keyFn p = key)
  ∧ (∀ x' p', x' ∉ matched → previous !! x' = Some p' → keyFn p' = key → x' = x).
Proof.
  pose proof (NoDup_candidates keyFn matched key 0 previous) as Hnd.
  assert (Hel : ∀ y, y ∈ candidates keyFn matched key 0 previous ↔
                     (y ∉ matched) ∧ (∃ p, previous !! y = Some p ∧ keyFn p = key)).
  { intros y. rewrite elem_of_candidates, Nat.sub_0_r.
    split; [tauto | intros; split; [lia | tauto]]. }
  split.
  - intros Heq. rewrite Heq in Hel.
    destruct (proj1 (Hel x)) as [Hx Hp]; [by apply list_elem_of_singleton|].
    split; [done|]. split; [done|]. intros x' p' Hx' Hp' Hk.
    apply list_elem_of_singleton, Hel. eauto.
  - intros (Hx & Hp & Huniq).
    destruct (candidates keyFn matched key 0 previous) as [|a l] eqn:E.
    + exfalso. eapply elem_of_nil, Hel. eauto.
    + assert (a = x) as ->.
      { destruct (proj1 (Hel a)) as (Ha & q & Hq & Hk); [left|]. eauto. }
      destruct l as [|b l]; [done|]. exfalso.
      assert (b = x) as ->.
      { destruct (proj1 (Hel b)) as (Hb & q & Hq & Hk); [right; left|]. eauto. }
      inversion Hnd as [|?? Hnin _]; subst. apply Hnin. left.
Qed.

(** What one pass pairs: a next record, unmatched so far and with a
    non-empty key, with the one previous record that was unmatched when
    the pass began and has that key. *)
Lemma tryMatch_pairs previous next state pr :
  pr ∈ (tryMatch previous next state keyFn).2 ↔
  (nextIndex pr ∉ matchedNext state)
  ∧ (∃ n, next !! nextIndex pr = Some n
          ∧ JS.truthy (keyFn n) = true
          ∧ candidates keyFn (matchedPrev state) (keyFn n) 0 previous
            = [prevIndex pr]).
Proof.
  rewrite tryMatch_spec. cbn [snd]. rewrite elem_of_pairsOf, Nat.sub_0_r.
  split.
  - intros (_ & Hn & n & Hl & Ht & Hm). split; [done|]. exists n.
    split; [done|]. split; [done|]. by apply index_single.
  - intros (Hn & n & Hl & Ht & Hm). split; [lia|]. split; [done|]. exists n.
    split; [done|]. split; [done|]. by apply index_single.
Qed.

Lemma tryMatch_state previous next state :
  (tryMatch previous next state keyFn).1 =
  let pairs := (tryMatch previous next state keyFn).2 in
  {| matchedPrev := list_to_set (prevIndex <$> pairs) ∪ matchedPrev state;
     matchedNext := list_to_set (nextIndex <$> pairs) ∪ matchedNext state |}.
Proof. by rewrite tryMatch_spec. Qed.

Lemma tryMatch_NoDup_next previous next state :
  NoDup (nextIndex <$> (tryMatch previous next state keyFn).2).
Proof. rewrite tryMatch_spec. apply NoDup_pairsOf_next. Qed.

(** The indices of a pair are positions of the two arrays, and neither
    was matched when the pass began. *)
Lemma tryMatch_in_range previous next state pr :
  pr ∈ (tryMatch previous next state keyFn).2 →
  prevIndex pr < length previous ∧ nextIndex pr < length next
  ∧ (prevIndex pr ∉ matchedPrev state) ∧ (nextIndex pr ∉ matchedNext state).
Proof.
  intros (Hn & n & Hl & _ & Hc)%tryMatch_pairs.
  apply candidates_single in Hc as (Hp & (p & Hpl & _) & _).
  apply lookup_lt_Some in Hl, Hpl. done.
Qed.

(** A pass reads the next records through [keyFn] only. *)
Lemma tryMatch_ext previous next next' state :
  keyFn <$> next = keyFn <$> next' →
  tryMatch previous next state keyFn = tryMatch previous next' state keyFn.
Proof.
  intros Heq. rewrite !tryMatch_spec. cbn zeta.
  set (map := indexPrevious keyFn (matchedPrev state) 0 previous ∅).
  assert (Hp : ∀ j, pairsOf keyFn map (matchedNext state) j next
                    = pairsOf keyFn map (matchedNext state) j next').
  { clear -Heq. revert next' Heq.
    induction next as [|n rest IH]; intros [|n' rest'] Heq j;
      simpl in *; try done.
    injection Heq as Hk Hrest. by rewrite Hk, (IH rest'). }
  by rewrite Hp.
Qed.
End PassPairs.

(** ** The cascade *)

Lemma elem_of_concat {A : Type} (x : A) (ls : list (list A)) :
  x ∈ concat ls ↔ ∃ l, x ∈ l ∧ l ∈ ls.
Proof.
  induction ls as [|l ls IH]; simpl.
  - split; [by intros ?%elem_of_nil | by intros (? & _ & ?%elem_of_nil)].
  - rewrite elem_of_app, IH. split.
    + intros [Hx|(l' & Hx & Hl)]; [exists l | exists l']; split; try done;
        [left | by right].
    + intros (l' & Hx & [->|Hl]%elem_of_cons); [by left | right; eauto].
Qed.

Lemma cascade_app previous next state fns1 fns2 :
  cascade previous next state (fns1 ++ fns2) =
  let '(ps1, mid) := cascade previous next state fns1 in
  let '(ps2, final) := cascade previous next mid fns2 in
  (ps1 ++ ps2, final).
Proof.
  revert state. induction fns1 as [|f fns1 IH]; intros state; simpl.
  - by destruct (cascade previous next state fns2).
  - destruct (tryMatch previous next state f) as [st1 p1].
    rewrite IH. destruct (cascade previous next st1 fns1) as [ps1 mid].
    by destruct (cascade previous next mid fns2).
Qed.

(** Across the passes of a cascade: the final state holds exactly the
    indices of the pairs made (on top of the initial ones), no next index
    occurs in two pairs, and every pair joins positions of the two arrays
    that the initial state had not matched. *)
Lemma cascade_spec previous next fns state :
  let ps := concat (cascade previous next state fns).1 in
  let final := (cascade previous next state fns).2 in
  matchedPrev final = list_to_set (prevIndex <$> ps) ∪ matchedPrev state
  ∧ matchedNext final = list_to_set (nextIndex <$> ps) ∪ matchedNext state
  ∧ NoDup (nextIndex <$> ps)
  ∧ (∀ pr, pr ∈ ps →
       prevIndex pr < length previous ∧ nextIndex pr < length next
       ∧ (prevIndex pr ∉ matchedPrev state) ∧ (nextIndex pr ∉ matchedNext state)).
Proof.
  revert state. induction fns as [|f fns IH]; intros state; cbn zeta.
  - simpl. split; [set_solver|]. split; [set_solver|]. split; [constructor|].
    by intros pr ?%elem_of_nil.
  - simpl.
    pose proof (tryMatch_state f previous next state) as Hst.
    pose proof (tryMatch_NoDup_next f previous next state) as Hnd.
    pose proof (tryMatch_in_range f previous next state) as Hrng.
    destruct (tryMatch previous next state f) as [st1 p1]. cbn [fst snd] in *.
    specialize (IH st1). cbn zeta in IH.
    destruct (cascade previous next st1 fns) as [ps final]. cbn [fst snd] in *.
    destruct IH as (IHp & IHn & IHnd & IHr). subst st1. cbn in IHp, IHn, IHr.
    cbn [concat]. rewrite !fmap_app.
    split; [rewrite IHp; set_solver|]. split; [rewrite IHn; set_solver|]. split.
    + apply NoDup_app. split; [done|]. split; [|done].
      intros y Hy (pr & -> & Hpr)%list_elem_of_fmap.
      destruct (IHr pr Hpr) as (_ & _ & _ & Hn). set_solver.
    + intros pr [Hpr|Hpr]%elem_of_app; [by apply Hrng|].
      destruct (IHr pr Hpr) as (? & ? & ? & ?). set_solver.
Qed.

Lemma allPairs_in_range previous next pr :
  pr ∈ allPairs previous next →
  prevIndex pr < length previous ∧ nextIndex pr < length next.
Proof.
  intros Hpr.
  destruct (cascade_spec previous next strategies emptyState) as (_ & _ & _ & Hr).
  destruct (Hr pr Hpr) as (? & ? & _). done.
Qed.

Lemma allPairs_NoDup_next previous next :
  NoDup (nextIndex <$> allPairs previous next).
Proof. apply (cascade_spec previous next strategies emptyState). Qed.

Lemma strategyPairs_allPairs k previous next pr :
  pr ∈ strategyPairs k previous next → pr ∈ allPairs previous next.
Proof.
  unfold strategyPairs, allPairs. intros Hpr.
  destruct ((cascade previous next emptyState strategies).1 !! (k - 1))
    as [ps|] eqn:E; [|by apply elem_of_nil in Hpr].
  apply elem_of_concat. exists ps. split; [done|].
  by eapply list_elem_of_lookup_2.
Qed.

(** Strategy [k] is the pass of its key function from the state the
    stricter strategies left. *)
Lemma strategyPairs_pass k keyFn previous next :
  strategies !! (k - 1) = Some keyFn →
  strategyPairs k previous next
  = (tryMatch previous next (stateBefore k previous next) keyFn).2.
Proof.
  intros Hk. unfold strategyPairs, stateBefore.
  rewrite <- (take_drop (k - 1) strategies) at 1.
  rewrite cascade_app.
  destruct (cascade previous next emptyState (take (k - 1) strategies))
    as [ps1 mid] eqn:E1. cbn [snd].
  assert (Hlen : length ps1 = k - 1).
  { assert (Hgen : ∀ fns st, length (cascade previous next st fns).1 = length fns).
    { induction fns as [|f fns IH]; intros st; simpl; [done|].
      destruct (tryMatch previous next st f) as [st1 p1].
      specialize (IH st1). destruct (cascade previous next st1 fns). simpl in *.
      by rewrite IH. }
    specialize (Hgen (take (k - 1) strategies) emptyState). rewrite E1 in Hgen.
    simpl in Hgen. rewrite Hgen, length_take.
    apply lookup_lt_Some in Hk. lia. }
  rewrite (drop_S _ _ _ Hk).
  generalize (drop (S (k - 1)) strategies) as rest. intros rest. cbn [cascade].
  destruct (tryMatch previous next mid keyFn) as [st1 p1].
  destruct (cascade previous next st1 rest) as [ps2 final].
  cbn [fst snd]. rewrite lookup_app_r by lia. rewrite Hlen, Nat.sub_diag. done.
Qed.

(** ** Assigning identifiers *)

Lemma withShowId_sameButId id show : sameButId (withShowId id show) show.
Proof. by repeat split. Qed.

Lemma sameButId_trans a b c : sameButId a b → sameButId b c → sameButId a c.
Proof. unfold sameButId. intuition congruence. Qed.

Lemma sameButId_refl a : sameButId a a.
Proof. by repeat split. Qed.

Lemma assignShowIds_app previousShows ps1 ps2 result :
  assignShowIds previousShows (ps1 ++ ps2) result
  = assignShowIds previousShows ps2 (assignShowIds previousShows ps1 result).
Proof. unfold assignShowIds. by rewrite fold_left_app. Qed.

Lemma assignShowIds_length previousShows pairs result :
  length (assignShowIds previousShows pairs result) = length result.
Proof.
  revert result. induction pairs as [|pr pairs IH]; intros result; [done|].
  unfold assignShowIds in *. simpl. rewrite IH.
  destruct (previousShows !! prevIndex pr), (result !! nextIndex pr); try done.
  by rewrite length_insert.
Qed.

Lemma assignShowIds_preserves previousShows pairs result base :
  Forall2 sameButId result base →
  Forall2 sameButId (assignShowIds previousShows pairs result) base.
Proof.
  revert result. induction pairs as [|pr pairs IH]; intros result Hbase; [done|].
  unfold assignShowIds in *. simpl. apply IH.
  destruct (previousShows !! prevIndex pr) as [p|]; [|done].
  destruct (result !! nextIndex pr) as [r|] eqn:Hr; [|done].
  apply Forall2_same_length_lookup_2.
  { rewrite length_insert. by eapply Forall2_length. }
  intros i x y Hx Hy.
  destruct (decide (i = nextIndex pr)) as [->|Hne].
  - rewrite list_lookup_insert_eq in Hx by (by eapply lookup_lt_Some).
    simplify_eq. eapply sameButId_trans; [apply withShowId_sameButId|].
    by eapply Forall2_lookup_lr.
  - rewrite list_lookup_insert_ne in Hx by done. by eapply Forall2_lookup_lr.
Qed.

Lemma assignShowIds_sameButId previousShows pairs result :
  Forall2 sameButId (assignShowIds previousShows pairs result) result.
Proof.
  apply assignShowIds_preserves.
  induction result; constructor; [apply sameButId_refl | done].
Qed.

Lemma assignShowIds_lookup_other previousShows pairs result j :
  j ∉ nextIndex <$> pairs →
  assignShowIds previousShows pairs result !! j = result !! j.
Proof.
  revert result. induction pairs as [|pr pairs IH]; intros result Hj; [done|].
  unfold assignShowIds in *. simpl. rewrite fmap_cons, not_elem_of_cons in Hj.
  destruct Hj as [Hne Hj]. rewrite IH by done.
  destruct (previousShows !! prevIndex pr), (result !! nextIndex pr); try done.
  by rewrite list_lookup_insert_ne.
Qed.

(** A paired next record leaves the assignment loop with the identifier
    of its previous record. *)
Lemma assignShowIds_lookup_pair previousShows pairs result pr p r :
  NoDup (nextIndex <$> pairs) →
  pr ∈ pairs →
  previousShows !! prevIndex pr = Some p →
  result !! nextIndex pr = Some r →
  assignShowIds previousShows pairs result !! nextIndex pr
  = Some (withShowId (showId p) r).
Proof.
  revert result r. induction pairs as [|q pairs IH]; intros result r Hnd Hin Hp Hr.
  - by apply elem_of_nil in Hin.
  - rewrite fmap_cons in Hnd. apply NoDup_cons in Hnd as [Hq Hnd].
    apply elem_of_cons in Hin as [<-|Hin].
    + change (assignShowIds previousShows (pr :: pairs) result)
        with (assignShowIds previousShows pairs
                (match previousShows !! prevIndex pr, result !! nextIndex pr with
                 | Some p, Some r => <[nextIndex pr := withShowId (showId p) r]> result
                 | _, _ => result
                 end)).
      rewrite assignShowIds_lookup_other by done. rewrite Hp, Hr.
      apply list_lookup_insert_eq. by eapply lookup_lt_Some.
    + change (assignShowIds previousShows (q :: pairs) result)
        with (assignShowIds previousShows pairs
                (match previousShows !! prevIndex q, result !! nextIndex q with
                 | Some p, Some r => <[nextIndex q := withShowId (showId p) r]> result
                 | _, _ => result
                 end)).
      apply IH; try done.
      assert (nextIndex q ≠ nextIndex pr).
      { intros Heq. apply Hq. rewrite Heq. by apply list_elem_of_fmap_2. }
      destruct (previousShows !! prevIndex q), (result !! nextIndex q); try done.
      by rewrite list_lookup_insert_ne.
Qed.

(** The five key functions do not read [showId]. *)
Lemma strategies_ignore_id keyFn a b :
  keyFn ∈ strategies → sameButId a b → keyFn a = keyFn b.
Proof.
  intros Hin (Hd & Ht & Hv & _ & Hu & _ & Hh & Ho).
  unfold strategies in Hin. rewrite !elem_of_cons in Hin.
  destruct Hin as [->|[->|[->|[->|[->|Hin]]]]]; [| | | | |by apply elem_of_nil in Hin].
  - unfold buildShowKey. congruence.
  - unfold buildStableShowKey. congruence.
  - unfold buildUrlKey. by rewrite Hv, Hu.
  - unfold buildDateTimeKey. congruence.
  - unfold buildHeadlinerTimeKey. congruence.
Qed.

Lemma tryMatch_sameButId keyFn previous next next' state :
  keyFn ∈ strategies → Forall2 sameButId next next' →
  tryMatch previous next state keyFn = tryMatch previous next' state keyFn.
Proof.
  intros Hin Hsame. apply tryMatch_ext.
  induction Hsame as [|a b l l' Hab _ IH]; [done|]. rewrite !fmap_cons.
  by rewrite IH, (strategies_ignore_id keyFn a b).
Qed.

(** [preserveShowIds] assigns along the pairs of the cascade run on the
    two batches. *)
Lemma preserveShowIds_cascade nextShows previousShows :
  preserveShowIds nextShows previousShows
  = assignShowIds previousShows (allPairs previousShows nextShows) nextShows.
Proof.
  unfold preserveShowIds, allPairs, strategies. cbn [cascade].
  assert (Hstep : ∀ keyFn state result, keyFn ∈ strategies →
            Forall2 sameButId result nextShows →
            tryMatch previousShows result state keyFn
            = tryMatch previousShows nextShows state keyFn).
  { intros. by apply tryMatch_sameButId. }
  assert (Hres : ∀ pairs, Forall2 sameButId
                   (assignShowIds previousShows pairs nextShows) nextShows).
  { intros. apply assignShowIds_sameButId. }
  destruct (tryMatch previousShows nextShows emptyState buildShowKey)
    as [st1 p1] eqn:E1.
  rewrite (Hstep buildStableShowKey st1 _) by (set_solver || apply Hres).
  destruct (tryMatch previousShows nextShows st1 buildStableShowKey)
    as [st2 p2] eqn:E2.
  rewrite <- assignShowIds_app.
  rewrite (Hstep buildUrlKey st2 _) by (set_solver || apply Hres).
  destruct (tryMatch previousShows nextShows st2 buildUrlKey) as [st3 p3] eqn:E3.
  rewrite <- assignShowIds_app.
  rewrite (Hstep buildDateTimeKey st3 _) by (set_solver || apply Hres).
  destruct (tryMatch previousShows nextShows st3 buildDateTimeKey)
    as [st4 p4] eqn:E4.
  rewrite <- assignShowIds_app.
  rewrite (Hstep buildHeadlinerTimeKey st4 _) by (set_solver || apply Hres).
  destruct (tryMatch previousShows nextShows st4 buildHeadlinerTimeKey)
    as [st5 p5] eqn:E5.
  rewrite <- assignShowIds_app. cbn [fst concat].
  by rewrite app_nil_r, <- !app_assoc.
Qed.

(** ** The diff engine *)

Lemma allPairs_strategies previous next :
  allPairs previous next
  = strategyPairs 1 previous next ++ strategyPairs 2 previous next
    ++ strategyPairs 3 previous next ++ strategyPairs 4 previous next
    ++ strategyPairs 5 previous next.
Proof.
  unfold allPairs, strategyPairs, strategies. cbn [cascade].
  destruct (tryMatch previous next emptyState buildShowKey) as [st1 p1].
  destruct (tryMatch previous next st1 buildStableShowKey) as [st2 p2].
  destruct (tryMatch previous next st2 buildUrlKey) as [st3 p3].
  destruct (tryMatch previous next st3 buildDateTimeKey) as [st4 p4].
  destruct (tryMatch previous next st4 buildHeadlinerTimeKey) as [st5 p5].
  simpl. by rewrite app_nil_r.
Qed.

Lemma diffShows_cascade previous next :
  diffShows previous next =
  let final := (cascade previous next emptyState strategies).2 in
  {| removed := Z.of_nat (length previous) - Z.of_nat (size (matchedPrev final));
     unchanged := Z.of_nat (length (strategyPairs 1 previous next));
     updated :=
       Z.of_nat (length (strategyPairs 2 previous next ++ strategyPairs 3 previous next
                           ++ strategyPairs 4 previous next
                           ++ strategyPairs 5 previous next));
     added := Z.of_nat (length next) - Z.of_nat (size (matchedNext final)) |}.
Proof.
  unfold diffShows, strategyPairs, strategies. cbn [cascade].
  destruct (tryMatch previous next emptyState buildShowKey) as [st1 p1].
  destruct (tryMatch previous next st1 buildStableShowKey) as [st2 p2].
  destruct (tryMatch previous next st2 buildUrlKey) as [st3 p3].
  destruct (tryMatch previous next st3 buildDateTimeKey) as [st4 p4].
  destruct (tryMatch previous next st4 buildHeadlinerTimeKey) as [st5 p5].
  reflexivity.
Qed.





(** ** Identity continuity *)

Lemma stateBefore_2 previous next :
  stateBefore 2 previous next = (tryMatch previous next emptyState buildShowKey).1.
Proof.
  unfold stateBefore. simpl.
  by destruct (tryMatch previous next emptyState buildShowKey).
Qed.

(** C1 — identity continuity.  A next record that the exact key left
    unmatched, and whose stable key is the key of exactly one previous
    record still unmatched after the exact pass, comes out of
    [preserveShowIds] with that record's [showId] (and its own other
    fields).  In particular a stored show ["old"] scraped again with an
    added opener keeps the identifier ["old"]. *)
Theorem stable_match_keeps_showId :
  (∀ previousShows nextShows i j p n,
     previousShows !! i = Some p →
     nextShows !! j = Some n →
     j ∉ matchedNext (stateBefore 2 previousShows nextShows) →
     i ∉ matchedPrev (stateBefore 2 previousShows nextShows) →
     buildStableShowKey p = buildStableShowKey n →
     (∀ i' p', i' ∉ matchedPrev (stateBefore 2 previousShows nextShows) →
               previousShows !! i' = Some p' →
               buildStableShowKey p' = buildStableShowKey n → i' = i) →
     ∃ r, preserveShowIds nextShows previousShows !! j = Some r
          ∧ showId r = showId p ∧ sameButId r n)
  ∧ (∀ date time venue venueName U source fresh,
       preserveShowIds
         [ {| showId := fresh; dateISO := date; startTime := time;
              venueId := venue; venueName := venueName; showUrl := Some U;
              sourceUrl := source; headliners := ["A"];
              openers := ["NewOpener"] |} ]
         [ {| showId := "old"; dateISO := date; startTime := time;
              venueId := venue; venueName := venueName; showUrl := Some U;
              sourceUrl := source; headliners := ["A"]; openers := [] |} ]
       = [ {| showId := "old"; dateISO := date; startTime := time;
              venueId := venue; venueName := venueName; showUrl := Some U;
              sourceUrl := source; headliners := ["A"];
              openers := ["NewOpener"] |} ]).
Proof.
  assert (Hgen : ∀ previousShows nextShows i j p n,
     previousShows !! i = Some p →
     nextShows !! j = Some n →
     j ∉ matchedNext (stateBefore 2 previousShows nextShows) →
     i ∉ matchedPrev (stateBefore 2 previousShows nextShows) →
     buildStableShowKey p = buildStableShowKey n →
     (∀ i' p', i' ∉ matchedPrev (stateBefore 2 previousShows nextShows) →
               previousShows !! i' = Some p' →
               buildStableShowKey p' = buildStableShowKey n → i' = i) →
     ∃ r, preserveShowIds nextShows previousShows !! j = Some r
          ∧ showId r = showId p ∧ sameButId r n).
  { intros previousShows nextShows i j p n Hp Hn Hj Hi Hkey Huniq.
    assert (Hpair : {| prevIndex := i; nextIndex := j |}
                    ∈ strategyPairs 2 previousShows nextShows).
    { rewrite (strategyPairs_pass 2 buildStableShowKey) by done.
      apply tryMatch_pairs. cbn [nextIndex prevIndex]. split; [done|].
      exists n. split; [done|]. split; [apply buildStableShowKey_truthy|].
      apply candidates_single. split; [done|]. split; [by exists p|]. done. }
    apply strategyPairs_allPairs in Hpair.
    rewrite preserveShowIds_cascade.
    pose proof (assignShowIds_lookup_pair previousShows
                  (allPairs previousShows nextShows) nextShows
                  {| prevIndex := i; nextIndex := j |} p n
                  (allPairs_NoDup_next previousShows nextShows) Hpair Hp Hn) as Hl.
    cbn [nextIndex] in Hl. exists (withShowId (showId p) n).
    split; [done|]. split; [done|]. apply withShowId_sameButId. }
  split; [exact Hgen|].
  intros date time venue venueName U source fresh.
  set (n := {| showId := fresh; dateISO := date; startTime := time;
               venueId := venue; venueName := venueName; showUrl := Some U;
               sourceUrl := source; headliners := ["A"];
               openers := ["NewOpener"] |}).
  set (p := {| showId := "old"; dateISO := date; startTime := time;
               venueId := venue; venueName := venueName; showUrl := Some U;
               sourceUrl := source; headliners := ["A"]; openers := [] |}).
  assert (Hexact : buildShowKey p ≠ buildShowKey n).
  { unfold buildShowKey, JS.join. simpl. intros Heq.
    repeat (apply append_inv_head in Heq || injection Heq as Heq).
    discriminate. }
  assert (Hst : stateBefore 2 [p] [n] = emptyState).
  { rewrite stateBefore_2, tryMatch_state.
    destruct ((tryMatch [p] [n] emptyState buildShowKey).2) as [|pr l] eqn:E;
      [done|]. exfalso.
    assert (Hin : pr ∈ (tryMatch [p] [n] emptyState buildShowKey).2)
      by (rewrite E; left).
    apply tryMatch_pairs in Hin as (_ & n' & Hn' & _ & Hc).
    apply candidates_single in Hc as (_ & (p' & Hp' & Hk) & _).
    apply list_elem_of_lookup_2 in Hn', Hp'.
    apply list_elem_of_singleton in Hn', Hp'. subst. done. }
  destruct (Hgen [p] [n] 0 0 p n) as (r & Hr & Hid & Hsame); try done.
  - rewrite Hst. set_solver.
  - rewrite Hst. set_solver.
  - intros [|i'] p' _ Hp' _; [done|]. by destruct i'.
  - pose proof (Forall2_length _ _ _
      (eq_ind_r (fun l => Forall2 sameButId l [n])
         (assignShowIds_sameButId [p] (allPairs [p] [n]) [n])
         (preserveShowIds_cascade [n] [p]))) as Hlen.
    destruct (preserveShowIds [n] [p]) as [|r' [|]]; try done.
    simpl in Hr. simplify_eq. f_equal.
    destruct Hsame as (? & ? & ? & ? & ? & ? & ? & ?).
    destruct r. simpl in *. subst. reflexivity.
Qed.

(** The stored show ["old"] and its rescraped version. *)
Lemma stable_match_keeps_showId_sample :
  ∃ r, preserveShowIds [rescrapedShow] [storedShow] !! 0 = Some r
       ∧ showId r = "old" ∧ sameButId r rescrapedShow.
Proof.
  apply (proj1 stable_match_keeps_showId [storedShow] [rescrapedShow] 0 0
           storedShow rescrapedShow);
    try reflexivity; try (vm_compute; set_solver).
  intros [|[|i']] p' _ Hp' _; [reflexivity | discriminate | discriminate].
Defined.

(** ** One pass can reuse a previous record *)

(** C2 — within a pass the lookup is the one built before the pass, so a
    previous record paired early in the pass is still offered to the next
    records that follow: on one stored show and two scraped shows of the
    same evening the date-time strategy pairs the stored show with both,
    both leave [preserveShowIds] with its identifier, and [diffShows]
    counts two updates of a single previous record. *)
Theorem tryMatch_pairs_previous_twice :
  strategyPairs 4 [storedShow] [earlyShow; lateShow]
  = [ {| prevIndex := 0; nextIndex := 0 |}; {| prevIndex := 0; nextIndex := 1 |} ]
  ∧ showId <$> preserveShowIds [earlyShow; lateShow] [storedShow] = ["old"; "old"]
  ∧ diffShows [storedShow] [earlyShow; lateShow]
    = {| removed := 0; unchanged := 0; updated := 2; added := 0 |}.
Proof. vm_compute. done. Qed.

(** ** [preserveShowIds] on references: result and frame *)

Lemma readAll_Some (h : Store.heap) (arr : list Store.loc) (vals : list VenueDataShow) :
  Store.readAll h arr = Some vals ↔ Forall2 (fun l v => h !! l = Some v) arr vals.
Proof. apply mapM_Some. Qed.

Lemma readAll_weaken (h h' : Store.heap) arr vals :
  h ⊆ h' → Store.readAll h arr = Some vals → Store.readAll h' arr = Some vals.
Proof.
  intros Hsub Hr. apply readAll_Some. apply readAll_Some in Hr.
  eapply Forall2_impl; [exact Hr|]. intros l v Hl.
  exact (lookup_weaken h h' l v Hl Hsub).
Qed.

(** Cloning allocates one new object per element, in order, each with
    the fields of its original; the objects already there stay as they
    were. *)
Lemma cloneAll_spec (arr : list Store.loc) (h : Store.heap) (vals : list VenueDataShow) :
  Store.readAll h arr = Some vals →
  ∃ h' result,
    Store.cloneAll h arr = Some (h', result)
    ∧ h ⊆ h'
    ∧ NoDup result
    ∧ (∀ l, l ∈ result → l ∉ dom h)
    ∧ Store.readAll h' result = Some vals.
Proof.
  revert h vals. induction arr as [|l rest IH]; intros h vals Hr.
  - apply readAll_Some in Hr. apply Forall2_nil_inv_l in Hr as ->.
    exists h, []. split; [done|]. split; [done|]. split; [constructor|].
    split; [by intros l ?%elem_of_nil | done].
  - apply readAll_Some in Hr.
    apply Forall2_cons_inv_l in Hr as (v & vals' & Hl & Hrest & ->).
    set (l' := fresh (dom h)).
    assert (Hfresh : l' ∉ dom h) by apply is_fresh.
    assert (Hnone : h !! l' = None) by by apply not_elem_of_dom.
    assert (Hsub : h ⊆ <[l' := v]> h) by by apply insert_subseteq.
    destruct (IH (<[l' := v]> h) vals') as (h' & out & Hc & Hsub' & Hnd & Hout & Hread).
    { eapply readAll_weaken; [exact Hsub|]. by apply readAll_Some. }
    exists h', (l' :: out). split.
    { cbn [Store.cloneAll]. rewrite Hl. simpl. fold l'. by rewrite Hc. }
    split; [by etrans|]. split.
    + constructor; [|done]. intros Hin. apply (Hout l' Hin).
      apply elem_of_dom. rewrite lookup_insert_eq. eauto.
    + split.
      * intros x [->|Hx]%elem_of_cons; [done|].
        intros Hd. apply (Hout x Hx). rewrite dom_insert_L. set_solver.
      * apply readAll_Some. constructor; [|by apply readAll_Some].
        eapply lookup_weaken; [|exact Hsub']. apply lookup_insert_eq.
Qed.

Section StorePass.
(** The heap [h0] the caller holds, the array of previous records in
    it, and the cloned array: distinct objects outside [h0]. *)
Variable h0 : Store.heap.
Variable previousShows result : list Store.loc.
Variable prevs : list VenueDataShow.
Hypothesis Hprev : Store.readAll h0 previousShows = Some prevs.
Hypothesis Hnodup : NoDup result.
Hypothesis Hfresh : ∀ l, l ∈ result → l ∉ dom h0.

Lemma store_assign_sim pairs (h : Store.heap) res :
  h0 ⊆ h →
  Store.readAll h result = Some res →
  (∀ pr, pr ∈ pairs →
     prevIndex pr < length prevs ∧ nextIndex pr < length res) →
  ∃ h', Store.assignShowIds previousShows result pairs h = Some h'
        ∧ h0 ⊆ h'
        ∧ Store.readAll h' result = Some (assignShowIds prevs pairs res).
Proof.
  revert h res. induction pairs as [|pr pairs IH]; intros h res Hsub Hres Hrng.
  - exists h. done.
  - destruct (Hrng pr) as [Hi Hj]; [left|].
    pose proof Hprev as Hp0. apply readAll_Some in Hp0.
    pose proof Hres as Hr0. apply readAll_Some in Hr0.
    destruct (lookup_lt_is_Some_2 prevs _ Hi) as [p Hp].
    destruct (lookup_lt_is_Some_2 res _ Hj) as [r Hr].
    destruct (Forall2_lookup_r _ _ _ _ _ Hp0 Hp) as (lp & Hlp & Hhp).
    destruct (Forall2_lookup_r _ _ _ _ _ Hr0 Hr) as (lr & Hlr & Hhr).
    assert (Hhp' : h !! lp = Some p) by by eapply lookup_weaken.
    assert (Hlr0 : h0 !! lr = None).
    { apply not_elem_of_dom, Hfresh. by eapply list_elem_of_lookup_2. }
    set (h1 := <[lr := withShowId (showId p) r]> h).
    destruct (IH h1 (<[nextIndex pr := withShowId (showId p) r]> res))
      as (h' & Ha & Hsub' & Hread').
    + unfold h1. apply map_subseteq_spec. intros l v Hl.
      rewrite lookup_insert_ne by congruence. by eapply lookup_weaken.
    + apply readAll_Some. apply Forall2_same_length_lookup_2.
      { rewrite length_insert. by eapply Forall2_length. }
      intros t l v Hl Hv. unfold h1.
      destruct (decide (t = nextIndex pr)) as [->|Hne].
      * rewrite list_lookup_insert_eq in Hv by done. simplify_eq.
        apply lookup_insert_eq.
      * rewrite list_lookup_insert_ne in Hv by done.
        rewrite lookup_insert_ne.
        -- exact (Forall2_lookup_lr _ _ _ _ _ _ Hr0 Hl Hv).
        -- intros <-. apply Hne. by eapply NoDup_lookup.
    + intros q Hq. rewrite length_insert. apply Hrng. by right.
    + exists h'. split; [|split; [done|]].
      * cbn [Store.assignShowIds]. unfold Store.assignShowId.
        rewrite Hlp. simpl. rewrite Hhp'. simpl. rewrite Hlr. simpl.
        rewrite Hhr. simpl. exact Ha.
      * rewrite Hread'. unfold assignShowIds. simpl. by rewrite Hp, Hr.
Qed.

(** One pass on references computes the pass on values, and leaves
    [h0] as it was. *)
Lemma store_pass_sim keyFn (h : Store.heap) (rs : list VenueDataShow * MatchState) :
  h0 ⊆ h →
  Store.readAll h result = Some rs.1 →
  ∃ h',
    Store.pass previousShows result keyFn (h, rs.2)
    = Some (h', (passOnValues prevs keyFn rs).2)
    ∧ h0 ⊆ h'
    ∧ Store.readAll h' result = Some (passOnValues prevs keyFn rs).1.
Proof.
  destruct rs as [res state]. cbn [fst snd]. intros Hsub Hres.
  destruct (store_assign_sim (tryMatch prevs res state keyFn).2 h res Hsub Hres)
    as (h' & Ha & Hsub' & Hread').
  { intros pr Hpr. apply tryMatch_in_range in Hpr. tauto. }
  exists h'. split; [|done].
  unfold Store.pass, Store.tryMatch, passOnValues. cbn [fst snd].
  rewrite (readAll_weaken h0 h _ _ Hsub Hprev). simpl. rewrite Hres. simpl.
  destruct (tryMatch prevs res state keyFn) as [st pairs]. cbn [fst snd] in *.
  by rewrite Ha.
Qed.
End StorePass.

Lemma preserveShowIds_steps nextShows previousShows :
  preserveShowIds nextShows previousShows =
  (passOnValues previousShows buildHeadlinerTimeKey
     (passOnValues previousShows buildDateTimeKey
        (passOnValues previousShows buildUrlKey
           (passOnValues previousShows buildStableShowKey
              (passOnValues previousShows buildShowKey
                 (nextShows, emptyState)))))).1.
Proof.
  unfold preserveShowIds, passOnValues. cbn zeta. cbn [fst snd].
  repeat match goal with
         | |- context [let '(_, _) := ?t in _] => destruct t; cbn [fst snd]
         end.
  reflexivity.
Qed.

(** C10 — [preserveShowIds] returns a new array of new objects: as long
    as [nextShows], position by position equal to the next records in
    every field other than [showId]; every object that existed before the
    call, the records of both input arrays among them, is as it was. *)
Theorem preserveShowIds_frame (h : Store.heap) (nextShows previousShows : list Store.loc)
    (nexts prevs : list VenueDataShow) :
  Store.readAll h nextShows = Some nexts →
  Store.readAll h previousShows = Some prevs →
  ∃ h' result out,
    Store.preserveShowIds h nextShows previousShows = Some (h', result)
    ∧ Store.readAll h' result = Some out
    ∧ out = preserveShowIds nexts prevs
    ∧ length result = length nextShows
    ∧ Forall2 sameButId out nexts
    ∧ (∀ l, l ∈ result → l ∉ dom h)
    ∧ (∀ l show, h !! l = Some show → h' !! l = Some show)
    ∧ Store.readAll h' nextShows = Some nexts
    ∧ Store.readAll h' previousShows = Some prevs.
Proof.
  intros Hn Hp.
  destruct (cloneAll_spec nextShows h nexts Hn) as (h1 & result & Hc & Hsub & Hnd & Hfr & Hr1).
  pose proof (store_pass_sim h previousShows result prevs Hp Hnd Hfr) as Hpass.
  set (rs1 := (nexts, emptyState)).
  destruct (Hpass buildShowKey h1 rs1 Hsub Hr1) as (h2 & E2 & Hs2 & Hr2).
  set (rs2 := passOnValues prevs buildShowKey rs1) in *.
  destruct (Hpass buildStableShowKey h2 rs2 Hs2 Hr2) as (h3 & E3 & Hs3 & Hr3).
  set (rs3 := passOnValues prevs buildStableShowKey rs2) in *.
  destruct (Hpass buildUrlKey h3 rs3 Hs3 Hr3) as (h4 & E4 & Hs4 & Hr4).
  set (rs4 := passOnValues prevs buildUrlKey rs3) in *.
  destruct (Hpass buildDateTimeKey h4 rs4 Hs4 Hr4) as (h5 & E5 & Hs5 & Hr5).
  set (rs5 := passOnValues prevs buildDateTimeKey rs4) in *.
  destruct (Hpass buildHeadlinerTimeKey h5 rs5 Hs5 Hr5) as (h6 & E6 & Hs6 & Hr6).
  exists h6, result, (preserveShowIds nexts prevs).
  split.
  { unfold Store.preserveShowIds. rewrite Hc. cbn [mbind option_bind].
    change emptyState with rs1.2.
    rewrite E2. cbn [mbind option_bind]. rewrite E3. cbn [mbind option_bind].
    rewrite E4. cbn [mbind option_bind]. rewrite E5. cbn [mbind option_bind].
    rewrite E6. done. }
  split; [rewrite Hr6, preserveShowIds_steps; reflexivity|].
  split; [done|]. split.
  { apply readAll_Some in Hr1, Hn. apply Forall2_length in Hr1, Hn. congruence. }
  split; [rewrite preserveShowIds_cascade; apply assignShowIds_sameButId|].
  split; [done|]. split; [intros l show Hl; by eapply lookup_weaken|].
  split; by eapply readAll_weaken.
Qed.

(** The sample heap: the rescraped show at reference 1, the stored show
    at reference 0. *)
Lemma preserveShowIds_frame_sample :
  ∃ h' result out,
    Store.preserveShowIds sampleHeap [1] [0] = Some (h', result)
    ∧ Store.readAll h' result = Some out
    ∧ out = preserveShowIds [rescrapedShow] [storedShow]
    ∧ length result = length [1]
    ∧ Forall2 sameButId out [rescrapedShow]
    ∧ (∀ l, l ∈ result → l ∉ dom sampleHeap)
    ∧ (∀ l show, sampleHeap !! l = Some show → h' !! l = Some show)
    ∧ Store.readAll h' [1] = Some [rescrapedShow]
    ∧ Store.readAll h' [0] = Some [storedShow].
Proof.
  apply (preserveShowIds_frame sampleHeap [1] [0] [rescrapedShow] [storedShow]);
    reflexivity.
Defined.

(** ** Date inference *)

Lemma inferYear_range month day reference :
  inferYear month day reference = JS.getUTCFullYear reference
  ∨ inferYear month day reference = (JS.getUTCFullYear reference + 1)%Z.
Proof. unfold inferYear. case_match; auto. Qed.

(** C8, as stated, fails: with reference date 2026-01-05 the text "12.31"
    does not parse to 2025-12-31. *)
Lemma parseDate_dot_no_roll_back :
  ¬ (parseDateISOFromText "12.31" referenceDate = "2025-12-31"
     ∧ parseDateISOFromText "3.15" referenceDate = "2026-03-15").
Proof. intros [H _]. vm_compute in H. discriminate. Qed.

(** C8, amended — with reference date 2026-01-05, "12.31" parses to
    2026-12-31: a month and day that lie ahead of the reference date stay
    in the reference year (the year is kept or advanced, never moved
    back); "3.15" parses to 2026-03-15. *)
Theorem parseDate_dot_cases :
  parseDateISOFromText "12.31" referenceDate = "2026-12-31"
  ∧ parseDateISOFromText "3.15" referenceDate = "2026-03-15"
  ∧ (∀ month day, (JS.getUTCFullYear referenceDate <= inferYear month day referenceDate)%Z).
Proof.
  split; [by vm_compute|]. split; [by vm_compute|].
  intros month day. destruct (inferYear_range month day referenceDate) as [-> | ->]; lia.
Qed.

(** ** The write gate *)

Lemma shouldWrite_spec localeCompare pathJoin todayISO mergedArgs fs v rows :
  shouldWrite (venuePass localeCompare pathJoin todayISO mergedArgs fs v rows) = true ↔
  readPrevious fs (venueFilePath pathJoin mergedArgs v) = None
  ∨ (0 < updated (countsFuture
                    (venuePass localeCompare pathJoin todayISO mergedArgs fs v rows)))%Z
  ∨ (0 < added (countsFuture
                  (venuePass localeCompare pathJoin todayISO mergedArgs fs v rows)))%Z
  ∨ (0 < removed (countsFuture
                    (venuePass localeCompare pathJoin todayISO mergedArgs fs v rows)))%Z.
Proof.
  unfold venuePass. cbn [shouldWrite countsFuture].
  rewrite !orb_true_iff, negb_true_iff, bool_decide_eq_false, !Z.ltb_lt.
  rewrite <- eq_None_not_Some. tauto.
Qed.

Lemma updateVenue_written localeCompare pathJoin gather generatedAt todayISO
    mergedArgs scrapedByVenue st v rows error :
  scrapedRows gather mergedArgs scrapedByVenue v = (rows, error) →
  JS.truthy (JS.orElse error "") = false →
  shouldWrite (venuePass localeCompare pathJoin todayISO mergedArgs (files st) v rows)
  = true →
  let file :=
    VenueJson
      {| venue := {| id := id v; name := name v; calendarUrl := calendarUrl v |};
         generatedAtISO := generatedAt;
         fileShows :=
           showsWithIds
             (venuePass localeCompare pathJoin todayISO mergedArgs (files st) v rows) |} in
  let st' := updateVenue localeCompare pathJoin gather generatedAt todayISO mergedArgs
               scrapedByVenue st v in
  writes st' = writes st ++ [(venueFilePath pathJoin mergedArgs v, file)]
  ∧ files st' = <[venueFilePath pathJoin mergedArgs v := file]> (files st).
Proof.
  intros Hrows Herr Hw. cbn zeta. unfold updateVenue. rewrite Hrows, Herr, Hw. done.
Qed.

Lemma updateVenue_suppressed localeCompare pathJoin gather generatedAt todayISO
    mergedArgs scrapedByVenue st v rows error :
  scrapedRows gather mergedArgs scrapedByVenue v = (rows, error) →
  JS.truthy (JS.orElse error "") = false →
  shouldWrite (venuePass localeCompare pathJoin todayISO mergedArgs (files st) v rows)
  = false →
  let st' := updateVenue localeCompare pathJoin gather generatedAt todayISO mergedArgs
               scrapedByVenue st v in
  writes st' = writes st ∧ files st' = files st.
Proof.
  intros Hrows Herr Hw. cbn zeta. unfold updateVenue. rewrite Hrows, Herr, Hw. done.
Qed.

Lemma venuePass_counts localeCompare pathJoin todayISO mergedArgs fs v rows :
  let previousShows :=
    match readPrevious fs (venueFilePath pathJoin mergedArgs v) with
    | Some file => fileShows file
    | None => []
    end in
  let next :=
    preserveShowIds
      (normalizeShows localeCompare (id v) (name v) (calendarUrl v) rows)
      previousShows in
  showsWithIds (venuePass localeCompare pathJoin todayISO mergedArgs fs v rows) = next
  ∧ countsAll (venuePass localeCompare pathJoin todayISO mergedArgs fs v rows)
    = diffShows previousShows next
  ∧ countsFuture (venuePass localeCompare pathJoin todayISO mergedArgs fs v rows)
    = diffShows
        (filter (fun show => JS.strGe (dateISO show) todayISO = true) previousShows)
        (filter (fun show => JS.strGe (dateISO show) todayISO = true) next).
Proof. done. Qed.

(** The loop body writes the venue file exactly when the gate is open. *)
Lemma updateVenue_gate localeCompare pathJoin gatherScrapedShows generatedAt todayISO
    mergedArgs scrapedByVenue st v rows error :
  scrapedRows gatherScrapedShows mergedArgs scrapedByVenue v = (rows, error) →
  JS.truthy (JS.orElse error "") = false →
  let path := venueFilePath pathJoin mergedArgs v in
  let previousShows :=
    match readPrevious (files st) path with
    | Some file => fileShows file
    | None => []
    end in
  let next :=
    preserveShowIds
      (normalizeShows localeCompare (id v) (name v) (calendarUrl v) rows)
      previousShows in
  let future :=
    diffShows
      (filter (fun show => JS.strGe (dateISO show) todayISO = true) previousShows)
      (filter (fun show => JS.strGe (dateISO show) todayISO = true) next) in
  let gateOpen :=
    readPrevious (files st) path = None
    ∨ (0 < updated future)%Z ∨ (0 < added future)%Z ∨ (0 < removed future)%Z in
  let file :=
    VenueJson {| venue := {| id := id v; name := name v;
                             calendarUrl := calendarUrl v |};
                 generatedAtISO := generatedAt; fileShows := next |} in
  let st' :=
    updateVenue localeCompare pathJoin gatherScrapedShows generatedAt todayISO
      mergedArgs scrapedByVenue st v in
  (gateOpen → writes st' = writes st ++ [(path, file)]
              ∧ files st' = <[path := file]> (files st))
  ∧ (¬ gateOpen → writes st' = writes st ∧ files st' = files st).
Proof.
  intros Hrows Herr. cbn zeta.
  pose proof (shouldWrite_spec localeCompare pathJoin todayISO mergedArgs
                (files st) v rows) as Hgate.
  destruct (venuePass_counts localeCompare pathJoin todayISO mergedArgs (files st) v rows)
    as (Hshows & _ & Hfuture).
  cbn zeta in Hshows, Hfuture. rewrite Hfuture in Hgate. split.
  - intros Hopen. apply Hgate in Hopen.
    destruct (updateVenue_written localeCompare pathJoin gatherScrapedShows generatedAt
                todayISO mergedArgs scrapedByVenue st v rows error Hrows Herr Hopen)
      as [Hw Hf].
    rewrite Hshows in Hw, Hf. done.
  - intros Hclosed.
    apply (updateVenue_suppressed localeCompare pathJoin gatherScrapedShows generatedAt
             todayISO mergedArgs scrapedByVenue st v rows error Hrows Herr).
    destruct (shouldWrite _) eqn:E; [|done]. exfalso. apply Hclosed, Hgate. done.
Qed.

(** C4, as stated, fails: a venue file that is there but does not parse
    is written over although the diff of the shows dated today or later
    (here of two empty batches) counts nothing. *)
Lemma unparsable_file_rewritten :
  let st' := sampleUpdate [] corruptStart in
  files corruptStart !! samplePath ≠ None
  ∧ diffShows [] [] = {| removed := 0; unchanged := 0; updated := 0; added := 0 |}
  ∧ writes st'
    = [(samplePath,
        VenueJson {| venue := sampleVenue;
                     generatedAtISO := "2026-01-05T12:00:00.000Z";
                     fileShows := [] |})].
Proof. cbn zeta. split; [by vm_compute|]. split; vm_compute; reflexivity. Qed.

(** C4, amended — for a venue whose rows came in, the loop body of
    [runUpdate] calls [writeFile] on the venue's file exactly when no
    prior output can be read for the venue (there is no file, or the file
    does not read as JSON) or the diff of the shows dated today or later
    counts an update, an addition or a removal; otherwise it makes no
    write and the files are as they were.  In the sample run the stored
    batch holds a show of 2026-01-03 that is no longer scraped: the diff
    of the whole batch counts a removal, the diff from 2026-01-05 on
    counts none, nothing is written and the stored file stays. *)
Theorem write_gate :
  (∀ localeCompare pathJoin gatherScrapedShows generatedAt todayISO mergedArgs
     scrapedByVenue st v rows error,
     scrapedRows gatherScrapedShows mergedArgs scrapedByVenue v = (rows, error) →
     JS.truthy (JS.orElse error "") = false →
     let path := venueFilePath pathJoin mergedArgs v in
     let previousShows :=
       match readPrevious (files st) path with
       | Some file => fileShows file
       | None => []
       end in
     let next :=
       preserveShowIds
         (normalizeShows localeCompare (id v) (name v) (calendarUrl v) rows)
         previousShows in
     let future :=
       diffShows
         (filter (fun show => JS.strGe (dateISO show) todayISO = true) previousShows)
         (filter (fun show => JS.strGe (dateISO show) todayISO = true) next) in
     let gateOpen :=
       readPrevious (files st) path = None
       ∨ (0 < updated future)%Z ∨ (0 < added future)%Z ∨ (0 < removed future)%Z in
     let file :=
       VenueJson {| venue := {| id := id v; name := name v;
                                calendarUrl := calendarUrl v |};
                    generatedAtISO := generatedAt; fileShows := next |} in
     let st' :=
       updateVenue localeCompare pathJoin gatherScrapedShows generatedAt todayISO
         mergedArgs scrapedByVenue st v in
     (gateOpen → writes st' = writes st ++ [(path, file)]
                 ∧ files st' = <[path := file]> (files st))
     ∧ (¬ gateOpen → writes st' = writes st ∧ files st' = files st))
  ∧ (let st := sampleStart [pastShow; keptShow] in
     let st' := sampleUpdate (rowsOfShow keptShow) st in
     removed (diffShows [pastShow; keptShow]
                (preserveShowIds
                   (normalizeShows compareCodeUnits (id sampleVenue) (name sampleVenue)
                      (calendarUrl sampleVenue) (rowsOfShow keptShow))
                   [pastShow; keptShow])) = 1%Z
     ∧ writes st' = []
     ∧ files st' = files st).
Proof.
  split; [|cbn zeta; split; [|split]; vm_compute; reflexivity].
  intros localeCompare pathJoin gather generatedAt todayISO mergedArgs scrapedByVenue
    st v rows error Hrows Herr.
  exact (updateVenue_gate localeCompare pathJoin gather generatedAt todayISO mergedArgs
           scrapedByVenue st v rows error Hrows Herr).
Qed.

(** The sample run: a show of the past has gone from the scrape, the
    gate stays shut. *)
Lemma write_gate_sample :
  writes (sampleUpdate (rowsOfShow keptShow) (sampleStart [pastShow; keptShow]))
  = writes (sampleStart [pastShow; keptShow])
  ∧ files (sampleUpdate (rowsOfShow keptShow) (sampleStart [pastShow; keptShow]))
    = files (sampleStart [pastShow; keptShow]).
Proof.
  apply (proj1 write_gate compareCodeUnits samplePathJoin noScraper
           "2026-01-05T12:00:00.000Z" "2026-01-05" sampleArgs
           {[ "bottom-of-the-hill" := rowsOfShow keptShow ]}
           (sampleStart [pastShow; keptShow]) sampleVenue
           (rowsOfShow keptShow) None);
    [reflexivity | reflexivity |].
  vm_compute. intros [H|[H|[H|H]]]; discriminate.
Defined.

(** ** What a rewrite keeps *)




(** ** The order of a normalized batch *)

Lemma normalizeShows_unfold localeCompare venueId venueName sourceUrl scraped :
  normalizeShows localeCompare venueId venueName sourceUrl scraped
  = sortBy (compareShows localeCompare)
      (dedupe (map normalizeShow (groupRows venueId venueName sourceUrl scraped))).
Proof. reflexivity. Qed.

(** C9 — on one date the comparator of [normalizeShows] reads an unknown
    start time as the empty string, so it compares a record without start
    time to a timed one as [localeCompare] compares "" to the time: the
    record without start time sorts first, not last.  The merged list of
    all venues is sorted with "99:99 PM" in place of an unknown time, and
    there the same record sorts last. *)
Theorem unknown_startTime_sorts_first :
  (∀ localeCompare a b t,
     dateISO a = dateISO b → startTime a = None → startTime b = Some t →
     t ≠ EmptyString →
     compareShows localeCompare a b = localeCompare EmptyString t
     ∧ compareShows localeCompare b a = localeCompare t EmptyString)
  ∧ (∀ localeCompare,
       (localeCompare "" "8:00 PM" < 0)%Z → (0 < localeCompare "8:00 PM" "")%Z →
       startTime <$> sampleNormalize localeCompare [timedRow; untimedRow]
       = [None; Some "8:00 PM"])
  ∧ (∀ localeCompare,
       (localeCompare "8:00 PM" "99:99 PM" < 0)%Z →
       (0 < localeCompare "99:99 PM" "8:00 PM")%Z →
       startTime <$> sortBy (sortShows localeCompare)
                       (sampleNormalize compareCodeUnits [timedRow; untimedRow])
       = [Some "8:00 PM"; None]).
Proof.
  split; [|split].
  - intros lc a b t Hd Ha Hb Ht. unfold compareShows. rewrite Hd, Ha, Hb.
    cbn [JS.orElse]. rewrite bool_decide_eq_true_2 by done. cbn [negb].
    rewrite !bool_decide_eq_false_2 by congruence. done.
  - intros lc Hlt Hgt. unfold sampleNormalize. rewrite normalizeShows_unfold.
    set (l := dedupe _). vm_compute in l. subst l.
    cbn [sortBy insertSorted]. unfold compareShows.
    cbn [dateISO startTime JS.orElse].
    rewrite bool_decide_eq_true_2 by reflexivity. cbn [negb].
    rewrite bool_decide_eq_false_2 by discriminate. cbn [negb].
    destruct (Z.leb_spec (lc "8:00 PM" "") 0) as [Hle|_]; [lia|]. reflexivity.
  - intros lc Hlt Hgt.
    set (l := sampleNormalize _ _). vm_compute in l. subst l.
    cbn [sortBy insertSorted]. unfold sortShows, compareTime.
    cbn [dateISO startTime JS.orElse].
    rewrite bool_decide_eq_true_2 by reflexivity. cbn [negb].
    rewrite bool_decide_eq_false_2 by discriminate. cbn [negb].
    destruct (Z.leb_spec (lc "99:99 PM" "8:00 PM") 0) as [Hle|_]; [lia|]. reflexivity.
Qed.

(** Under the order of code units the untimed show of the sample evening
    comes first. *)
Lemma unknown_startTime_sorts_first_sample :
  startTime <$> sampleNormalize compareCodeUnits [timedRow; untimedRow]
  = [None; Some "8:00 PM"].
Proof.
  apply (proj1 (proj2 unknown_startTime_sorts_first) compareCodeUnits);
    vm_compute; reflexivity.
Defined.

(** ** Headliners of a normalized batch *)

Lemma sortBy_Permutation {A : Type} (compare : A → A → Z) (xs : list A) :
  sortBy compare xs ≡ₚ xs.
Proof.
  assert (Hins : ∀ x l, insertSorted compare x l ≡ₚ x :: l).
  { intros x l. induction l as [|y l IH]; simpl; [done|].
    case_match; [done|]. rewrite IH. apply perm_swap. }
  induction xs as [|x xs IH]; simpl; [done|]. by rewrite Hins, IH.
Qed.

Lemma elem_of_dedupeFrom seen normalized show :
  show ∈ dedupeFrom seen normalized → show ∈ normalized.
Proof.
  revert seen. induction normalized as [|s rest IH]; intros seen; simpl; [done|].
  case_decide.
  - intros ?%IH. by right.
  - intros [->|?%IH]%elem_of_cons; [left | by right].
Qed.

Lemma uniqueFrom_elem seen xs x :
  x ∈ uniqueFrom seen xs ↔ x ∈ xs ∧ x ∉ seen.
Proof.
  revert seen. induction xs as [|y xs IH]; intros seen; simpl.
  - split; [by intros ?%elem_of_nil | by intros [?%elem_of_nil _]].
  - case_decide as Hy.
    + rewrite IH, elem_of_cons. split; [tauto|].
      intros [[->|?] ?]; [done | tauto].
    + rewrite !elem_of_cons, IH. split.
      * intros [->|[? ?]]; [tauto|]. split; [tauto|]. set_solver.
      * intros [[->|?] ?]; [tauto|]. destruct (decide (x = y)); [tauto|].
        right. split; [done|]. set_solver.
Qed.

Lemma elem_of_unique xs x : x ∈ unique xs ↔ x ∈ xs.
Proof. unfold unique. rewrite uniqueFrom_elem. set_solver. Qed.

Lemma normalizeShow_headliners show :
  headliners show ≠ [] → headliners (normalizeShow show) ≠ [].
Proof.
  intros Hne Heq. cbn [normalizeShow headliners] in Heq.
  destruct (headliners show) as [|x xs]; [done|].
  assert (Hx : x ∈ sortStrings (unique (x :: xs))).
  { unfold sortStrings. rewrite sortBy_Permutation. apply elem_of_unique. left. }
  rewrite Heq in Hx. by apply elem_of_nil in Hx.
Qed.

Lemma findLast_Some pred i shows s :
  s ∈ shows → pred s = true → ∃ k, findLast pred i shows = Some k.
Proof.
  revert i. induction shows as [|x rest IH]; intros i Hin Hp.
  - by apply elem_of_nil in Hin.
  - simpl. destruct (findLast pred (S i) rest) as [k|] eqn:E; [eauto|].
    apply elem_of_cons in Hin as [<-|Hin].
    + rewrite Hp. eauto.
    + destruct (IH (S i) Hin Hp) as [k Hk]. congruence.
Qed.

Lemma elem_of_alter_inv {A : Type} (f : A → A) (i : nat) (l : list A) (y : A) :
  y ∈ alter f i l → ∃ x, x ∈ l ∧ (y = x ∨ y = f x).
Proof.
  intros [j Hj]%list_elem_of_lookup. rewrite list_lookup_alter in Hj.
  case_decide.
  - destruct (l !! i) as [x|] eqn:E; [|done]. simpl in Hj. simplify_eq.
    exists x. split; [by eapply list_elem_of_lookup_2 | by right].
  - exists y. split; [by eapply list_elem_of_lookup_2 | by left].
Qed.

Lemma elem_of_alter_fwd {A : Type} (f : A → A) (i : nat) (l : list A) (x : A) :
  x ∈ l → ∃ y, y ∈ alter f i l ∧ (y = x ∨ y = f x).
Proof.
  intros [j Hj]%list_elem_of_lookup. destruct (decide (i = j)) as [->|Hne].
  - exists (f x). split; [|by right]. apply list_elem_of_lookup. exists j.
    by rewrite list_lookup_alter_eq, Hj.
  - exists x. split; [|by left]. apply list_elem_of_lookup. exists j.
    by rewrite list_lookup_alter_ne.
Qed.

Lemma rowKey_url_less item k :
  rowKey item = Some k → rowShowUrl item = None →
  isOpener item = false
  ∧ k = "date:" +:+ Scraped.date item +:+ "|headliner:"
        +:+ JS.join "," (Scraped.artists item).
Proof.
  unfold rowKey. intros Hk Hu. rewrite Hu in Hk.
  destruct (isOpener item); [done|]. by simplify_eq.
Qed.

Lemma rowKey_same_url a b k :
  rowKey a = Some k → rowKey b = Some k → rowShowUrl a = None → rowShowUrl b = None.
Proof.
  intros Ha Hb Hu. destruct (rowKey_url_less a k Ha Hu) as [_ ->].
  unfold rowKey in Hb. destruct (rowShowUrl b) as [u|]; [|done]. by simplify_eq.
Qed.

Section Grouping.
Variables venue venueTitle source : string.

Lemma pushed_fields names s s' :
  s' = s ∨ s' = pushOpeners names s ∨ s' = pushHeadliners names s →
  dateISO s' = dateISO s ∧ showUrl s' = showUrl s
  ∧ (headliners s ≠ [] → headliners s' ≠ []).
Proof.
  intros [->|[->| ->]]; cbn; repeat split; try done.
  intros Hne Heq. by apply app_eq_nil in Heq as [? _].
Qed.

Lemma groupStep_grouped before st item :
  grouped before st → headed before item → sameKeySameDate (before ++ [item]) →
  grouped (before ++ [item]) (groupStep venue venueTitle source st item).
Proof.
  intros (I1 & I2 & I3 & I4) Hhead Hdate.
  set (f := if isOpener item then pushOpeners (Scraped.artists item)
            else pushHeadliners (Scraped.artists item)).
  assert (Hf : ∀ s s', s' = s ∨ s' = f s →
                 s' = s ∨ s' = pushOpeners (Scraped.artists item) s
                 ∨ s' = pushHeadliners (Scraped.artists item) s).
  { intros s s' [-> | ->]; [by left|]. unfold f. destruct (isOpener item); auto. }
  (* altering a show of the current list keeps the invariant *)
  assert (Hfound : ∀ i,
            (∀ k, rowKey item = Some k → is_Some (byKey st !! k)) →
            grouped (before ++ [item])
              {| byKey := byKey st; shows := alter f i (shows st) |}).
  { intros i Hkey. split; [|split; [|split]]; cbn [shows byKey].
    - intros s' (s & Hs & Hor)%elem_of_alter_inv.
      destruct (pushed_fields _ _ _ (Hf s s' Hor)) as (_ & _ & Hh).
      by apply Hh, I1.
    - intros h k [Hh|Hh%list_elem_of_singleton]%elem_of_app Hk;
        [by eapply I2 | subst; by apply Hkey].
    - intros k Hk. destruct (I3 k Hk) as (h & Hh & Hhk). exists h.
      split; [apply elem_of_app; by left | done].
    - intros h k Hin Hk Hu.
      assert (Hold : ∃ h0, h0 ∈ before ∧ rowKey h0 = Some k
                          ∧ Scraped.date h0 = Scraped.date h).
      { apply elem_of_app in Hin as [Hh|Hh%list_elem_of_singleton].
        - by exists h.
        - subst h. destruct (I3 k (Hkey k Hk)) as (h0 & Hh0 & Hk0).
          exists h0. split; [done|]. split; [done|].
          eapply (Hdate h0 item k); [apply elem_of_app; by left
            | apply elem_of_app; right; by apply list_elem_of_singleton | done..]. }
      destruct Hold as (h0 & Hh0 & Hk0 & Hd0).
      destruct (I4 h0 k Hh0 Hk0 (rowKey_same_url h h0 k Hk Hk0 Hu))
        as (s & Hs & Hsd & Hsu).
      destruct (elem_of_alter_fwd f i (shows st) s Hs) as (s' & Hs' & Hor).
      exists s'. split; [done|].
      destruct (pushed_fields _ _ _ (Hf s s' Hor)) as (-> & -> & _).
      by rewrite Hsd, Hsu. }
  unfold groupStep. fold f.
  destruct (rowKey item) as [k|] eqn:Hk; cbn [mbind option_bind].
  - destruct (byKey st !! k) as [i|] eqn:Hi.
    + apply Hfound. intros k' [= <-]. eauto.
    + (* no show under the key: an opener would have one *)
      assert (Hrole : isOpener item = false).
      { destruct (isOpener item) eqn:Ho; [|done]. exfalso.
        unfold headed in Hhead. rewrite Ho in Hhead.
        destruct Hhead as (h & Hh & Hho & Hhu & _).
        assert (Hhk : rowKey h = Some k).
        { unfold rowKey in *. rewrite Hhu.
          destruct (rowShowUrl item); [done|]. by rewrite Ho in Hk. }
        destruct (I2 h k Hh Hhk) as [? ?]. congruence. }
      assert (Hart : Scraped.artists item ≠ []).
      { unfold headed in Hhead. by rewrite Hrole in Hhead. }
      rewrite Hrole. cbn [byKey shows].
      set (new := {| showId := EmptyString; dateISO := Scraped.date item;
                     startTime := formatTime12 (Scraped.time item);
                     venueId := venue; venueName := venueTitle;
                     showUrl := rowShowUrl item; sourceUrl := source;
                     headliners := []; openers := [] |}).
      assert (Halter : alter f (length (shows st)) (shows st ++ [new])
                       = shows st ++ [pushHeadliners (Scraped.artists item) new]).
      { unfold f. rewrite Hrole. apply list_eq. intros j.
        rewrite list_lookup_alter. case_decide as Hj.
        - subst j. rewrite !lookup_app_r, Nat.sub_diag by lia. done.
        - destruct (decide (j < length (shows st))).
          + by rewrite !lookup_app_l by lia.
          + rewrite !lookup_app_r by lia.
            destruct (j - length (shows st)) as [|m] eqn:E; [lia|done]. }
      rewrite Halter.
      split; [|split; [|split]]; cbn [shows byKey].
      * intros s [Hs|Hs%list_elem_of_singleton]%elem_of_app; [by apply I1|].
        subst s. cbn. done.
      * intros h k' [Hh|Hh%list_elem_of_singleton]%elem_of_app Hk'.
        -- destruct (decide (k = k')) as [->|Hne];
             [rewrite lookup_insert_eq; eauto|].
           rewrite lookup_insert_ne by done. by eapply I2.
        -- subst h. rewrite Hk in Hk'. simplify_eq. rewrite lookup_insert_eq. eauto.
      * intros k' Hk'. destruct (decide (k = k')) as [->|Hne].
        -- exists item. split; [|done]. apply elem_of_app. right.
           by apply list_elem_of_singleton.
        -- rewrite lookup_insert_ne in Hk' by done.
           destruct (I3 k' Hk') as (h & Hh & Hhk). exists h.
           split; [apply elem_of_app; by left | done].
      * intros h k' [Hh|Hh%list_elem_of_singleton]%elem_of_app Hk' Hu.
        -- destruct (I4 h k' Hh Hk' Hu) as (s & Hs & Hsd & Hsu). exists s.
           split; [apply elem_of_app; by left | done].
        -- subst h. exists (pushHeadliners (Scraped.artists item) new).
           split; [apply elem_of_app; right; by apply list_elem_of_singleton|].
           done.
  - (* an opener row without a page of its own *)
    assert (Ho : isOpener item = true ∧ rowShowUrl item = None).
    { unfold rowKey in Hk. destruct (rowShowUrl item); [done|].
      destruct (isOpener item); done. }
    destruct Ho as [Ho Hu]. rewrite Ho.
    unfold headed in Hhead. rewrite Ho in Hhead.
    destruct Hhead as (h & Hh & Hho & Hhu & Hhd).
    assert (Hhk : ∃ k, rowKey h = Some k).
    { unfold rowKey. rewrite Hhu, Hu, Hho. eauto. }
    destruct Hhk as [k Hhk].
    destruct (I4 h k Hh Hhk (eq_trans Hhu Hu)) as (s & Hs & Hsd & Hsu).
    destruct (findLast_Some
                (fun existing =>
                   bool_decide (dateISO existing = Scraped.date item)
                   && bool_decide (showUrl existing = None))
                0 (shows st) s Hs) as [i Hi].
    { rewrite Hsd, Hsu, (Hhd Hu). by rewrite !bool_decide_eq_true_2. }
    rewrite Hi. apply Hfound. intros k'. done.
Qed.

Lemma fold_groupStep_grouped rows before st :
  grouped before st → headlinersFirst before rows → sameKeySameDate (before ++ rows) →
  grouped (before ++ rows) (fold_left (groupStep venue venueTitle source) rows st).
Proof.
  revert before st. induction rows as [|item rest IH]; intros before st Hg Hh Hd.
  - by rewrite app_nil_r.
  - destruct Hh as [Hitem Hrest]. simpl.
    replace (before ++ item :: rest) with ((before ++ [item]) ++ rest) in *
      by (by rewrite <- app_assoc).
    apply IH; [|done|done]. apply groupStep_grouped; [done..|].
    intros a b k Ha Hb. apply Hd; apply elem_of_app; by left.
Qed.

Lemma groupRows_headliners rows s :
  headlinersFirst [] rows → sameKeySameDate rows →
  s ∈ groupRows venue venueTitle source rows → headliners s ≠ [].
Proof.
  intros Hh Hd Hs.
  destruct (fold_groupStep_grouped rows [] {| byKey := ∅; shows := [] |})
    as (I1 & _); [|done|done|by apply I1].
  split; [|split; [|split]]; cbn.
  - by intros ? ?%elem_of_nil.
  - by intros ? ? ?%elem_of_nil.
  - intros k [? Hk]. by rewrite lookup_empty in Hk.
  - by intros ? ? ?%elem_of_nil.
Qed.
End Grouping.

(** C6, as stated, fails: an opener row that no headliner row comes
    before starts a record of its own, without headliners. *)
Lemma orphan_opener_no_headliner :
  ¬ (∀ scraped show,
       show ∈ sampleNormalize compareCodeUnits scraped → headliners show ≠ []).
Proof.
  intros H.
  assert (Hin : ∃ show, show ∈ sampleNormalize compareCodeUnits [orphanOpener]
                        ∧ headliners show = []).
  { eexists. split; [vm_compute; left | reflexivity]. }
  destruct Hin as (show & Hin & Hnil). by apply (H _ _ Hin).
Qed.

(** C6, amended — every record of the output of [normalizeShows] has a
    headliner when the rows are headed (each headliner row names an
    artist, each opener row comes after a headliner row with its
    [showUrl] and, without one, its date) and rows with one grouping key
    carry one date. *)
Theorem headliners_nonempty :
  ∀ localeCompare venueId venueName sourceUrl scraped show,
    headlinersFirst [] scraped →
    sameKeySameDate scraped →
    show ∈ normalizeShows localeCompare venueId venueName sourceUrl scraped →
    headliners show ≠ [].
Proof.
  intros lc venueId venueName sourceUrl scraped show Hh Hd Hin.
  rewrite normalizeShows_unfold, sortBy_Permutation in Hin.
  apply elem_of_dedupeFrom, list_elem_of_fmap in Hin as (s & -> & Hs).
  apply normalizeShow_headliners.
  by eapply groupRows_headliners.
Qed.

(** ** Sorting with a comparator *)

Section SortBy.
Context {A : Type} (compare : A → A → Z).
Hypothesis total : ∀ a b, leBy compare a b ∨ leBy compare b a.
Hypothesis trans : ∀ a b c, leBy compare a b → leBy compare b c → leBy compare a c.

Lemma insertSorted_HdRel x y l :
  leBy compare y x → HdRel (leBy compare) y l →
  HdRel (leBy compare) y (insertSorted compare x l).
Proof using Type.
  intros Hyx Hl. destruct l as [|z l]; simpl; [by constructor|].
  case_match; constructor; [done|]. by inversion Hl.
Qed.

Lemma insertSorted_Sorted x l :
  Sorted (leBy compare) l → Sorted (leBy compare) (insertSorted compare x l).
Proof using total.
  induction 1 as [|y l Hl IH Hy]; simpl; [by repeat constructor|].
  destruct (Z.leb_spec (compare x y) 0) as [Hle|Hgt].
  - constructor; [by constructor|]. by constructor.
  - constructor; [done|]. apply insertSorted_HdRel; [|done].
    destruct (total x y) as [H|H]; [unfold leBy in H; lia | done].
Qed.

Lemma sortBy_Sorted l : Sorted (leBy compare) (sortBy compare l).
Proof using total.
  induction l as [|x l IH]; simpl; [constructor|]. by apply insertSorted_Sorted.
Qed.

Lemma sortBy_StronglySorted l : StronglySorted (leBy compare) (sortBy compare l).
Proof using total trans.
  apply Sorted.Sorted_StronglySorted; [|apply sortBy_Sorted].
  intros a b c. apply trans.
Qed.

End SortBy.

(** ** The order of code units *)

Lemma compareCodeUnits_le a b :
  leBy compareCodeUnits a b ↔ String.compare a b ≠ Gt.
Proof.
  unfold leBy, compareCodeUnits. destruct (String.compare a b); split; try done; lia.
Qed.

Lemma compareCodeUnits_total : totalOrder compareCodeUnits.
Proof.
  assert (Hlt : ∀ a b, String.compare a b ≠ Gt ↔ OrderedTypeEx.String_as_OT.lt a b ∨ a = b).
  { intros a b. rewrite <- OrderedTypeEx.String_as_OT.cmp_lt,
      <- OrderedTypeEx.String_as_OT.cmp_eq.
    change (OrderedTypeEx.String_as_OT.cmp a b) with (String.compare a b).
    destruct (String.compare a b); split; try done; try tauto.
    intros [?|?]; done. }
  split; [|split].
  - intros a b. change (leBy compareCodeUnits a b ∨ leBy compareCodeUnits b a).
    rewrite !compareCodeUnits_le, (String.compare_antisym b a).
    destruct (String.compare a b); simpl; [left|left|right]; done.
  - intros a b c. change (leBy compareCodeUnits a b → leBy compareCodeUnits b c →
                          leBy compareCodeUnits a c).
    rewrite !compareCodeUnits_le, !Hlt.
    intros [Hab| ->] [Hbc| ->]; try tauto.
    left. by eapply OrderedTypeEx.String_as_OT.lt_trans.
  - intros a b. change (leBy compareCodeUnits a b → leBy compareCodeUnits b a → a = b).
    rewrite !compareCodeUnits_le, (String.compare_antisym b a).
    destruct (String.compare a b) eqn:E; simpl; try done.
    intros _ _. by apply String.compare_eq_iff.
Qed.

(** ** Sets of names *)

Lemma NoDup_uniqueFrom seen xs : NoDup (uniqueFrom seen xs).
Proof.
  revert seen. induction xs as [|x xs IH]; intros seen; simpl; [constructor|].
  case_decide; [apply IH|]. constructor; [|apply IH].
  rewrite uniqueFrom_elem. set_solver.
Qed.



(** ** The grouping loop on rows that all carry a show page *)

Lemma rowKey_with_url item :
  JS.truthy (Scraped.showUrl item) = true →
  rowShowUrl item = Some (Scraped.showUrl item)
  ∧ rowKey item = Some ("url:" +:+ Scraped.showUrl item).
Proof. intros Hu. unfold rowKey, rowShowUrl. by rewrite Hu. Qed.

Lemma findLast_None pred i shows :
  (∀ s, s ∈ shows → pred s = false) → findLast pred i shows = None.
Proof.
  revert i. induction shows as [|s rest IH]; intros i Hall; simpl; [done|].
  rewrite IH by (intros; apply Hall; by right).
  rewrite Hall by left. done.
Qed.

Lemma alter_snoc {A : Type} (f : A → A) (l : list A) (x : A) :
  alter f (length l) (l ++ [x]) = l ++ [f x].
Proof.
  apply list_eq. intros j. rewrite list_lookup_alter. case_decide as Hj.
  - subst j. rewrite !lookup_app_r, Nat.sub_diag by lia. done.
  - destruct (decide (j < length l)).
    + by rewrite !lookup_app_l by lia.
    + rewrite !lookup_app_r by lia.
      destruct (j - length l) as [|m] eqn:E; [lia|done].
Qed.

Lemma members_snoc_same key before item :
  rowKey item = Some key → members key (before ++ [item]) = members key before ++ [item].
Proof.
  intros Hk. unfold members. rewrite filter_app. f_equal.
  by rewrite filter_cons_True, filter_nil.
Qed.

Lemma members_snoc_other key before item :
  rowKey item ≠ Some key → members key (before ++ [item]) = members key before.
Proof.
  intros Hk. unfold members. rewrite filter_app.
  by rewrite filter_cons_False, filter_nil, app_nil_r.
Qed.

Lemma artistsOf_snoc opener rows item :
  artistsOf opener (rows ++ [item])
  = artistsOf opener rows
    ++ (if decide (isOpener item = opener) then Scraped.artists item else []).
Proof.
  unfold artistsOf. rewrite filter_app, fmap_app, concat_app. f_equal.
  case_decide.
  - rewrite filter_cons_True, filter_nil by done. simpl. by rewrite app_nil_r.
  - by rewrite filter_cons_False, filter_nil.
Qed.

Section Tracking.
Variables venue venueTitle source : string.

(** The push of a row onto the show of its key. *)
Lemma buildGroup_snoc rows item :
  rows ≠ [] →
  (if isOpener item then pushOpeners (Scraped.artists item)
   else pushHeadliners (Scraped.artists item))
    (buildGroup venue venueTitle source rows)
  = buildGroup venue venueTitle source (rows ++ [item]).
Proof.
  intros Hne. unfold buildGroup. rewrite !artistsOf_snoc, head_snoc.
  destruct rows as [|first rest]; [done|]. cbn [head].
  destruct (isOpener item); cbn; by rewrite app_nil_r.
Qed.

(** The show a row starts. *)
Lemma buildGroup_single item :
  (if isOpener item then pushOpeners (Scraped.artists item)
   else pushHeadliners (Scraped.artists item))
    {| showId := EmptyString; dateISO := Scraped.date item;
       startTime := formatTime12 (Scraped.time item);
       venueId := venue; venueName := venueTitle;
       showUrl := rowShowUrl item; sourceUrl := source;
       headliners := []; openers := [] |}
  = buildGroup venue venueTitle source [item].
Proof.
  unfold buildGroup. change [item] with ([] ++ [item]).
  rewrite !artistsOf_snoc. cbn [app head mbind option_bind from_option].
  destruct (isOpener item) eqn:Ho; cbn; done.
Qed.

Lemma groupStep_tracks before keys st item :
  tracks venue venueTitle source before keys st →
  allWithUrl (before ++ [item]) →
  ∃ keys', tracks venue venueTitle source (before ++ [item]) keys'
             (groupStep venue venueTitle source st item).
Proof.
  intros (Hnd & Hidx & Hmem & Hshows) Hurl.
  destruct (rowKey_with_url item) as [Hu Hk].
  { apply Hurl, elem_of_app. right. by apply list_elem_of_singleton. }
  set (k := "url:" +:+ Scraped.showUrl item) in *.
  set (f := if isOpener item then pushOpeners (Scraped.artists item)
            else pushHeadliners (Scraped.artists item)).
  assert (Hnonempty : ∀ k', k' ∈ keys → members k' before ≠ []).
  { intros k' (item' & Hin & Hk')%Hmem Hnil.
    assert (Hm : item' ∈ members k' before) by by apply list_elem_of_filter.
    rewrite Hnil in Hm. by apply elem_of_nil in Hm. }
  unfold groupStep. fold f. rewrite Hk. cbn [mbind option_bind].
  destruct (byKey st !! k) as [i|] eqn:Hi.
  - (* the page has a show: push onto it *)
    pose proof (proj1 (Hidx k i) Hi) as Hki.
    exists keys. split; [done|]. split; [done|]. split; cbn [shows byKey].
    + intros k'. rewrite Hmem. split.
      * intros (item' & Hin & Hk'). exists item'. split; [|done].
        apply elem_of_app. by left.
      * intros (item' & [Hin|Hin%list_elem_of_singleton]%elem_of_app & Hk');
          [by exists item'|].
        subst item'. rewrite Hk in Hk'. simplify_eq. apply Hmem.
        by eapply list_elem_of_lookup_2.
    + rewrite Hshows. apply list_eq. intros j.
      rewrite list_lookup_alter, !list_lookup_fmap. case_decide as Hj.
      * subst j. rewrite Hki. cbn. f_equal.
        rewrite members_snoc_same by done. apply buildGroup_snoc.
        apply Hnonempty. by eapply list_elem_of_lookup_2.
      * destruct (keys !! j) as [k'|] eqn:Hkj; [|done]. cbn. f_equal.
        rewrite members_snoc_other; [done|]. rewrite Hk. intros [= <-].
        apply Hj. by eapply NoDup_lookup.
  - (* no show under the key, and none without a page to fall back on *)
    assert (Hnone : findLast
                      (fun existing =>
                         bool_decide (dateISO existing = Scraped.date item)
                         && bool_decide (showUrl existing = None))
                      0 (shows st) = None).
    { apply findLast_None. intros s Hs. rewrite Hshows in Hs.
      apply list_elem_of_fmap in Hs as (k' & -> & Hk').
      pose proof (Hnonempty k' Hk') as Hne.
      destruct (members k' before) as [|first rest] eqn:E; [done|].
      assert (Hfirst : first ∈ before).
      { assert (Hm : first ∈ members k' before) by (rewrite E; left).
        by apply list_elem_of_filter in Hm as [_ ?]. }
      destruct (rowKey_with_url first) as [Hfu _].
      { apply Hurl, elem_of_app. by left. }
      unfold buildGroup. cbn. rewrite Hfu.
      rewrite (bool_decide_eq_false_2 (Some _ = None)) by done.
      apply andb_false_r. }
    assert (Hfound : (if isOpener item
                      then findLast
                             (fun existing =>
                                bool_decide (dateISO existing = Scraped.date item)
                                && bool_decide (showUrl existing = None))
                             0 (shows st)
                      else None) = None).
    { destruct (isOpener item); [exact Hnone | done]. }
    rewrite Hfound. cbn [byKey shows].
    assert (Hfresh : k ∉ keys).
    { intros [i Hki]%list_elem_of_lookup. apply Hidx in Hki. congruence. }
    assert (Hlen : length (shows st) = length keys).
    { by rewrite Hshows, length_fmap. }
    exists (keys ++ [k]). split; [|split; [|split]]; cbn [shows byKey].
    + apply NoDup_app. split; [done|]. split; [|apply NoDup_singleton].
      intros x Hx ->%list_elem_of_singleton. done.
    + intros k' i. destruct (decide (k = k')) as [<-|Hne].
      * rewrite lookup_insert_eq, Hlen. split.
        -- intros [= <-]. by apply list_lookup_middle.
        -- intros Hl. f_equal. destruct (decide (i < length keys)).
           ++ rewrite lookup_app_l in Hl by done.
              exfalso. apply Hfresh. by eapply list_elem_of_lookup_2.
           ++ apply lookup_lt_Some in Hl. rewrite length_app in Hl. simpl in Hl. lia.
      * rewrite lookup_insert_ne by done. rewrite Hidx. split.
        -- intros Hl. by apply lookup_app_l_Some.
        -- intros Hl. destruct (decide (i < length keys)).
           ++ by rewrite lookup_app_l in Hl.
           ++ rewrite lookup_app_r in Hl by lia.
              destruct (i - length keys) as [|m]; simpl in Hl; [congruence|done].
    + intros k'. rewrite elem_of_app, list_elem_of_singleton, Hmem. split.
      * intros [(item' & Hin & Hk')| ->].
        -- exists item'. split; [apply elem_of_app; by left | done].
        -- exists item. split; [|done]. apply elem_of_app. right.
           by apply list_elem_of_singleton.
      * intros (item' & [Hin|Hin%list_elem_of_singleton]%elem_of_app & Hk').
        -- left. by exists item'.
        -- right. subst item'. rewrite Hk in Hk'. by simplify_eq.
    + rewrite alter_snoc, fmap_app. cbn [fmap list_fmap]. f_equal.
      * rewrite Hshows. apply list_fmap_ext. intros j k' Hj. f_equal.
        rewrite members_snoc_other; [done|]. rewrite Hk. intros [= <-].
        apply Hfresh. by eapply list_elem_of_lookup_2.
      * f_equal. rewrite members_snoc_same by done.
        assert (Hempty : members k before = []).
        { destruct (members k before) as [|first rest] eqn:E; [done|]. exfalso.
          assert (Hm : first ∈ members k before) by (rewrite E; left).
          apply list_elem_of_filter in Hm as [Hfk Hfin]. apply Hfresh, Hmem. eauto. }
        rewrite Hempty. cbn [app]. apply buildGroup_single.
Qed.

Lemma fold_groupStep_tracks rows before keys st :
  tracks venue venueTitle source before keys st →
  allWithUrl (before ++ rows) →
  ∃ keys', tracks venue venueTitle source (before ++ rows) keys'
             (fold_left (groupStep venue venueTitle source) rows st).
Proof.
  revert before keys st. induction rows as [|item rest IH]; intros before keys st Ht Hurl.
  - exists keys. by rewrite app_nil_r.
  - simpl. replace (before ++ item :: rest) with ((before ++ [item]) ++ rest) in *
      by (by rewrite <- app_assoc).
    destruct (groupStep_tracks before keys st item Ht) as [keys' Ht'].
    { intros x Hx. apply Hurl, elem_of_app. by left. }
    by apply (IH _ keys').
Qed.

(** On rows that all carry a show page the loop leaves one show per
    page, in order of first row: the group of the rows of the page. *)
Lemma groupRows_spec rows :
  allWithUrl rows →
  ∃ keys,
    NoDup keys
    ∧ (∀ k, k ∈ keys ↔ ∃ item, item ∈ rows ∧ rowKey item = Some k)
    ∧ groupRows venue venueTitle source rows
      = (fun k => buildGroup venue venueTitle source (members k rows)) <$> keys.
Proof.
  intros Hurl.
  destruct (fold_groupStep_tracks rows [] [] {| byKey := ∅; shows := [] |})
    as (keys & Hnd & _ & Hmem & Hshows); [|done|by exists keys].
  split; [constructor|]. split; [|split]; cbn.
  - intros k i. rewrite lookup_empty. done.
  - intros k. split; [by intros ?%elem_of_nil | by intros (? & ?%elem_of_nil & _)].
  - done.
Qed.
End Tracking.

(** ** Deduplication and the final sort *)

Lemma dedupeFrom_NoDup seen normalized :
  NoDup (buildShowKey <$> normalized) →
  (∀ show, show ∈ normalized → buildShowKey show ∉ seen) →
  dedupeFrom seen normalized = normalized.
Proof.
  revert seen. induction normalized as [|s rest IH]; intros seen Hnd Hseen; [done|].
  rewrite fmap_cons in Hnd. apply NoDup_cons in Hnd as [Hs Hnd]. simpl.
  rewrite decide_False by (apply Hseen; left). f_equal. apply IH; [done|].
  intros show Hin. rewrite not_elem_of_union, not_elem_of_singleton. split.
  - intros Heq. apply Hs. rewrite <- Heq. by apply list_elem_of_fmap_2.
  - apply Hseen. by right.
Qed.

Lemma NoDup_fmap_eq {A B : Type} (f : A → B) (l : list A) (a b : A) :
  NoDup (f <$> l) → a ∈ l → b ∈ l → f a = f b → a = b.
Proof.
  intros Hnd [i Hi]%list_elem_of_lookup [j Hj]%list_elem_of_lookup Heq.
  assert (i = j).
  { eapply (NoDup_lookup (f <$> l)); [done|..];
      rewrite list_lookup_fmap; [by rewrite Hi | by rewrite Hj, Heq]. }
  congruence.
Qed.

Section CompareShows.
Variable localeCompare : string → string → Z.
Hypothesis order : totalOrder localeCompare.






End CompareShows.

(** ** Groups under a reordering of the rows *)






(** The rows of one sample show: its headliner, then its opener. *)
Lemma headliners_nonempty_sample :
  Forall (fun show => headliners show ≠ [])
    (sampleNormalize compareCodeUnits (rowsOfShow keptShow)).
Proof.
  apply Forall_forall. intros show Hin.
  apply (headliners_nonempty compareCodeUnits (id sampleVenue) (name sampleVenue)
           (calendarUrl sampleVenue) (rowsOfShow keptShow) show); [| |exact Hin].
  - split; [vm_compute; discriminate|]. split; [|exact I].
    eexists. split; [left|]. vm_compute. repeat split; intros; done.
  - intros a b k Ha Hb _ _. vm_compute in Ha, Hb.
    repeat (apply elem_of_cons in Ha as [->|Ha]);
      try (by apply elem_of_nil in Ha);
      repeat (apply elem_of_cons in Hb as [->|Hb]);
      try (by apply elem_of_nil in Hb); reflexivity.
Defined.

(** ** The cascade, pass by pass *)

Lemma buildShowKey_truthy (show : VenueDataShow) :
  JS.truthy (buildShowKey show) = true.
Proof.
  apply truthy_spec. unfold buildShowKey, JS.join. simpl.
  destruct (dateISO show); simpl; discriminate.
Qed.

Lemma cascade_length previous next fns state :
  length (cascade previous next state fns).1 = length fns.
Proof.
  revert state. induction fns as [|f fns IH]; intros st; simpl; [done|].
  destruct (tryMatch previous next st f) as [st1 p1].
  specialize (IH st1). destruct (cascade previous next st1 fns). simpl in *.
  by rewrite IH.
Qed.

(** What an earlier strategy paired is matched in the state a later
    strategy starts from. *)
Lemma stateBefore_matched k k' previous next pr :
  1 ≤ k → k < k' →
  pr ∈ strategyPairs k previous next →
  prevIndex pr ∈ matchedPrev (stateBefore k' previous next)
  ∧ nextIndex pr ∈ matchedNext (stateBefore k' previous next).
Proof.
  intros Hk Hkk' Hpr. unfold strategyPairs in Hpr. unfold stateBefore.
  destruct ((cascade previous next emptyState strategies).1 !! (k - 1))
    as [ps|] eqn:E; [|by apply elem_of_nil in Hpr]. cbn [default] in Hpr.
  assert (Hk5 : k - 1 < 5).
  { apply lookup_lt_Some in E. by rewrite cascade_length in E. }
  rewrite <- (take_drop (k' - 1) strategies) in E. rewrite cascade_app in E.
  pose proof (cascade_length previous next (take (k' - 1) strategies) emptyState)
    as Hlen.
  pose proof (cascade_spec previous next (take (k' - 1) strategies) emptyState)
    as (Hp & Hn & _).
  destruct (cascade previous next emptyState (take (k' - 1) strategies))
    as [ps1 mid]. cbn [fst snd] in *.
  destruct (cascade previous next mid (drop (k' - 1) strategies)) as [ps2 final].
  cbn [fst] in E.
  assert (Hlt : k - 1 < length ps1).
  { rewrite Hlen, length_take. assert (length strategies = 5) by done. lia. }
  rewrite lookup_app_l in E by done.
  assert (Hin : pr ∈ concat ps1).
  { apply elem_of_concat. exists ps. split; [done|]. by eapply list_elem_of_lookup_2. }
  rewrite Hp, Hn. split; apply elem_of_union_l, elem_of_list_to_set, list_elem_of_fmap;
    by exists pr.
Qed.

(** X1 — Soundness of a strategy pass: every pair strategy [k] makes joins
    a previous and a next record that exist, have the same key under the
    key function of the strategy, and that key is not empty; and no other
    previous record still unmatched at that point has this key. *)
Theorem strategy_pairs_share_key k keyFn previous next pr :
  strategies !! (k - 1) = Some keyFn →
  pr ∈ strategyPairs k previous next →
  ∃ p n, previous !! prevIndex pr = Some p
         ∧ next !! nextIndex pr = Some n
         ∧ keyFn p = keyFn n
         ∧ keyFn n ≠ EmptyString
         ∧ ∀ i p', i ∉ matchedPrev (stateBefore k previous next) →
                   previous !! i = Some p' → keyFn p' = keyFn n → i = prevIndex pr.
Proof.
  intros Hk Hpr. rewrite (strategyPairs_pass k keyFn) in Hpr by done.
  apply tryMatch_pairs in Hpr as (_ & n & Hn & Htruthy & Hcand).
  apply candidates_single in Hcand as (_ & (p & Hp & Hkey) & Huniq).
  exists p, n. repeat split; [done | done | done | by apply truthy_spec | done].
Qed.

Lemma strategy_pairs_share_key_sample :
  ∃ p n, [storedShow; otherStored] !! 0 = Some p
         ∧ [rescrapedShow; unrelatedShow] !! 0 = Some n
         ∧ buildStableShowKey p = buildStableShowKey n
         ∧ buildStableShowKey n ≠ EmptyString
         ∧ ∀ i p', i ∉ matchedPrev (stateBefore 2 [storedShow; otherStored]
                                      [rescrapedShow; unrelatedShow]) →
                   [storedShow; otherStored] !! i = Some p' →
                   buildStableShowKey p' = buildStableShowKey n → i = 0.
Proof.
  apply (strategy_pairs_share_key 2 buildStableShowKey
           [storedShow; otherStored] [rescrapedShow; unrelatedShow]
           {| prevIndex := 0; nextIndex := 0 |}).
  - reflexivity.
  - vm_compute. left.
Defined.

(** X2 — The cascade pairs a next record at most once over all five
    strategies, and what one strategy pairs no later strategy pairs
    again: neither the previous record nor the next one. *)
Theorem cascade_pairs_exclusive previous next :
  NoDup (nextIndex <$> allPairs previous next)
  ∧ ∀ k k' pr pr',
      1 ≤ k → k < k' →
      pr ∈ strategyPairs k previous next →
      pr' ∈ strategyPairs k' previous next →
      prevIndex pr ≠ prevIndex pr' ∧ nextIndex pr ≠ nextIndex pr'.
Proof.
  split; [apply allPairs_NoDup_next|].
  intros k k' pr pr' Hk Hkk' Hpr Hpr'.
  destruct (stateBefore_matched k k' previous next pr Hk Hkk' Hpr) as [Hp Hn].
  destruct (strategies !! (k' - 1)) as [keyFn|] eqn:E.
  - rewrite (strategyPairs_pass k' keyFn) in Hpr' by done.
    apply tryMatch_in_range in Hpr' as (_ & _ & Hp' & Hn').
    split; congruence.
  - unfold strategyPairs in Hpr'.
    assert (length (cascade previous next emptyState strategies).1 = length strategies)
      as Hlen by apply cascade_length.
    apply lookup_ge_None in E.
    rewrite (lookup_ge_None_2 _ (k' - 1)) in Hpr' by lia.
    by apply elem_of_nil in Hpr'.
Qed.

Lemma cascade_pairs_exclusive_sample :
  prevIndex {| prevIndex := 0; nextIndex := 0 |}
  ≠ prevIndex {| prevIndex := 1; nextIndex := 1 |}
  ∧ nextIndex {| prevIndex := 0; nextIndex := 0 |}
    ≠ nextIndex {| prevIndex := 1; nextIndex := 1 |}.
Proof.
  apply (proj2 (cascade_pairs_exclusive [keptShow; storedShow] [keptShow; rescrapedShow])
           1 2); [lia | lia | vm_compute; left | vm_compute; left].
Defined.

(** X3 — A pass is conservative: when two previous records that are still
    unmatched both carry the key of a next record, the pass does not
    pair that next record. *)
Theorem tryMatch_ambiguous_key_skipped keyFn previous next state i1 i2 p1 p2 j n :
  previous !! i1 = Some p1 → previous !! i2 = Some p2 → i1 ≠ i2 →
  i1 ∉ matchedPrev state → i2 ∉ matchedPrev state →
  next !! j = Some n →
  keyFn p1 = keyFn n → keyFn p2 = keyFn n →
  j ∉ nextIndex <$> (tryMatch previous next state keyFn).2.
Proof.
  intros H1 H2 Hne Hm1 Hm2 Hj Hk1 Hk2 (pr & -> & Hpr)%list_elem_of_fmap.
  apply tryMatch_pairs in Hpr as (_ & n' & Hn' & _ & Hcand).
  assert (n' = n) as -> by congruence.
  apply candidates_single in Hcand as (_ & _ & Huniq).
  pose proof (Huniq i1 p1 Hm1 H1 Hk1). pose proof (Huniq i2 p2 Hm2 H2 Hk2).
  congruence.
Qed.

Lemma tryMatch_ambiguous_key_skipped_sample :
  buildDateTimeKey earlyShow = buildDateTimeKey storedShow
  ∧ buildDateTimeKey lateShow = buildDateTimeKey storedShow
  ∧ 0 ∉ nextIndex <$> (tryMatch [earlyShow; lateShow] [storedShow] emptyState
                         buildDateTimeKey).2.
Proof.
  split; [reflexivity|]. split; [reflexivity|].
  apply (tryMatch_ambiguous_key_skipped buildDateTimeKey [earlyShow; lateShow]
           [storedShow] emptyState 0 1 earlyShow lateShow 0 storedShow);
    try reflexivity; try lia; vm_compute; set_solver.
Defined.

(** ** Where the identifiers of a reconciled batch come from *)

(** X4 — [preserveShowIds] never invents an identifier: a next record
    that no strategy pairs comes out as it went in, and a paired one
    comes out with the [showId] of the previous record it is paired with
    and every other field as scraped. *)
Theorem preserveShowIds_ids_origin nextShows previousShows j r :
  preserveShowIds nextShows previousShows !! j = Some r →
  ∃ n, nextShows !! j = Some n
       ∧ (((j ∉ nextIndex <$> allPairs previousShows nextShows) ∧ r = n)
          ∨ (∃ pr p, pr ∈ allPairs previousShows nextShows ∧ nextIndex pr = j
                     ∧ previousShows !! prevIndex pr = Some p
                     ∧ r = withShowId (showId p) n)).
Proof.
  rewrite preserveShowIds_cascade. intros Hr.
  assert (Hj : j < length nextShows).
  { apply lookup_lt_Some in Hr. by rewrite assignShowIds_length in Hr. }
  destruct (lookup_lt_is_Some_2 _ _ Hj) as [n Hn]. exists n. split; [done|].
  destruct (decide (j ∈ nextIndex <$> allPairs previousShows nextShows)) as [Hin|Hout].
  - right. apply list_elem_of_fmap in Hin as (pr & -> & Hpr).
    destruct (allPairs_in_range _ _ _ Hpr) as [Hp _].
    destruct (lookup_lt_is_Some_2 _ _ Hp) as [p Hpp].
    exists pr, p. repeat split; [done | done |].
    rewrite (assignShowIds_lookup_pair _ _ _ pr p n) in Hr;
      [congruence | apply allPairs_NoDup_next | done | done | done].
  - left. split; [done|]. rewrite assignShowIds_lookup_other in Hr by done. congruence.
Qed.

Lemma preserveShowIds_ids_origin_sample :
  ∃ n, [rescrapedShow; unrelatedShow] !! 1 = Some n
       ∧ (((1 ∉ nextIndex <$> allPairs [storedShow; otherStored]
                                 [rescrapedShow; unrelatedShow])
           ∧ unrelatedShow = n)
          ∨ (∃ pr p, pr ∈ allPairs [storedShow; otherStored]
                            [rescrapedShow; unrelatedShow]
                     ∧ nextIndex pr = 1
                     ∧ [storedShow; otherStored] !! prevIndex pr = Some p
                     ∧ unrelatedShow = withShowId (showId p) n)).
Proof.
  apply (preserveShowIds_ids_origin [rescrapedShow; unrelatedShow]
           [storedShow; otherStored] 1 unrelatedShow).
  vm_compute. reflexivity.
Defined.

(** ** Accounting of the diff *)

Lemma cascade_sizes previous next :
  let final := (cascade previous next emptyState strategies).2 in
  size (matchedNext final) = length (allPairs previous next)
  ∧ size (matchedPrev final) ≤ length (allPairs previous next)
  ∧ size (matchedPrev final) ≤ length previous
  ∧ size (matchedNext final) ≤ length next.
Proof.
  cbn zeta.
  destruct (cascade_spec previous next strategies emptyState) as (Hp & Hn & Hnd & Hr).
  fold (allPairs previous next) in Hp, Hn, Hnd, Hr.
  cbn [emptyState matchedPrev matchedNext] in *.
  rewrite Hp, Hn, !(right_id_L ∅ (∪)).
  assert (Hsub : ∀ (l : list nat) n, (∀ x, x ∈ l → x < n) →
            size (list_to_set l : gset nat) ≤ n).
  { intros l n Hl.
    transitivity (size (list_to_set (seq 0 n) : gset nat)).
    - apply subseteq_size. intros x Hx%elem_of_list_to_set.
      apply elem_of_list_to_set, elem_of_seq. specialize (Hl x Hx). lia.
    - rewrite size_list_to_set by apply NoDup_seq. by rewrite length_seq. }
  split; [by rewrite size_list_to_set, length_fmap|].
  split.
  { assert (Hle : ∀ l : list nat, size (list_to_set l : gset nat) ≤ length l).
    { induction l as [|x l IH].
      - rewrite list_to_set_nil, size_empty. done.
      - rewrite list_to_set_cons, size_union_alt, size_singleton. cbn [length].
        assert (list_to_set l ∖ {[x]} ⊆ (list_to_set l : gset nat)) as Hdiff
          by set_solver.
        apply subseteq_size in Hdiff. lia. }
    etransitivity; [apply Hle|]. by rewrite length_fmap. }
  split; apply Hsub; intros x (pr & -> & Hpr)%list_elem_of_fmap;
    by destruct (Hr pr Hpr) as (? & ? & _).
Qed.

(** X5 — The counts of [diffShows] add up: every next record is counted
    once, as unchanged, updated or added; no count is negative; at most
    as many previous records are removed as there are, and at least
    those that the pairs cannot cover. *)
Theorem diffShows_partition previous next :
  let counts := diffShows previous next in
  (unchanged counts + updated counts + added counts = Z.of_nat (length next))%Z
  ∧ (0 <= unchanged counts)%Z ∧ (0 <= updated counts)%Z ∧ (0 <= added counts)%Z
  ∧ (0 <= removed counts <= Z.of_nat (length previous))%Z
  ∧ (Z.of_nat (length previous) <= removed counts + unchanged counts + updated counts)%Z.
Proof.
  cbn zeta. rewrite diffShows_cascade. cbn zeta. cbn [removed unchanged updated added].
  destruct (cascade_sizes previous next) as (Hn & Hp & Hpl & Hnl). cbn zeta in *.
  rewrite allPairs_strategies, !length_app in Hn, Hp. rewrite !length_app. lia.
Qed.

Lemma cascade_sameButId previous next next' fns state :
  (∀ f, f ∈ fns → f ∈ strategies) →
  Forall2 sameButId next next' →
  cascade previous next state fns = cascade previous next' state fns.
Proof.
  intros Hfns Hsame. revert state.
  induction fns as [|f fns IH]; intros state; [done|]. cbn [cascade].
  rewrite (tryMatch_sameButId f previous next next') by (done || set_solver).
  destruct (tryMatch previous next' state f) as [st1 p1].
  rewrite IH by set_solver. done.
Qed.

Lemma preserveShowIds_sameButId nextShows previousShows :
  Forall2 sameButId (preserveShowIds nextShows previousShows) nextShows.
Proof. rewrite preserveShowIds_cascade. apply assignShowIds_sameButId. Qed.

Lemma diffShows_sameButId previous next next' :
  Forall2 sameButId next next' → diffShows previous next = diffShows previous next'.
Proof.
  intros Hsame. rewrite !diffShows_cascade. unfold strategyPairs.
  rewrite (cascade_sameButId previous next next') by done.
  by rewrite (Forall2_length _ _ _ Hsame).
Qed.

Lemma indexPrevious_ext keyFn matched i previous previous' map :
  keyFn <$> previous = keyFn <$> previous' →
  indexPrevious keyFn matched i previous map
  = indexPrevious keyFn matched i previous' map.
Proof.
  revert previous' i map.
  induction previous as [|p previous IH]; intros [|p' previous'] i map Hkeys;
    try done.
  injection Hkeys as Hk Hrest. cbn [indexPrevious]. rewrite Hk. by apply IH.
Qed.

Lemma cascade_sameButId_previous previous previous' next fns state :
  (∀ f, f ∈ fns → f ∈ strategies) →
  Forall2 sameButId previous previous' →
  cascade previous next state fns = cascade previous' next state fns.
Proof.
  intros Hfns Hsame. revert state.
  induction fns as [|f fns IH]; intros state; [done|]. cbn [cascade].
  assert (Hpass : tryMatch previous next state f = tryMatch previous' next state f).
  { unfold tryMatch. rewrite (indexPrevious_ext f _ _ previous previous'); [done|].
    apply list_eq_Forall2, Forall2_fmap.
    eapply Forall2_impl; [exact Hsame|].
    intros a b Hab. apply strategies_ignore_id; [set_solver | done]. }
  rewrite Hpass. destruct (tryMatch previous' next state f) as [st1 p1].
  rewrite IH by set_solver. done.
Qed.

(** X6 — The diff does not see the identifiers: the counts stay what they
    are when showIds change in either batch, so comparing the previous
    batch with the reconciled batch gives the counts of comparing it
    with the batch as scraped. *)
Theorem diffShows_ignores_showId previous previous' next next' :
  Forall2 sameButId previous previous' →
  Forall2 sameButId next next' →
  diffShows previous next = diffShows previous' next'
  ∧ diffShows previous (preserveShowIds next previous) = diffShows previous' next'.
Proof.
  intros Hprev Hnext.
  assert (Hboth : diffShows previous next = diffShows previous' next').
  { rewrite (diffShows_sameButId previous next next') by done.
    rewrite !diffShows_cascade. unfold strategyPairs.
    rewrite (cascade_sameButId_previous previous previous') by done.
    by rewrite (Forall2_length _ _ _ Hprev). }
  split; [done|]. rewrite <- Hboth.
  apply diffShows_sameButId, preserveShowIds_sameButId.
Qed.

Lemma diffShows_ignores_showId_sample :
  diffShows [storedShow] [rescrapedShow]
  = diffShows [withShowId "kept" storedShow] [withShowId "fresh" rescrapedShow]
  ∧ diffShows [storedShow] (preserveShowIds [rescrapedShow] [storedShow])
    = diffShows [withShowId "kept" storedShow] [withShowId "fresh" rescrapedShow].
Proof.
  apply (diffShows_ignores_showId [storedShow] [withShowId "kept" storedShow]
           [rescrapedShow] [withShowId "fresh" rescrapedShow]);
    repeat constructor.
Defined.

(** ** Empty and identical batches *)

Lemma allPairs_nil_previous next : allPairs [] next = [].
Proof.
  destruct (allPairs [] next) as [|pr ps] eqn:E; [done|].
  assert (Hpr : pr ∈ allPairs [] next) by (rewrite E; left).
  apply allPairs_in_range in Hpr as [Hlt _]. simpl in Hlt. lia.
Qed.

Lemma allPairs_nil_next previous : allPairs previous [] = [].
Proof.
  destruct (allPairs previous []) as [|pr ps] eqn:E; [done|].
  assert (Hpr : pr ∈ allPairs previous []) by (rewrite E; left).
  apply allPairs_in_range in Hpr as [_ Hlt]. simpl in Hlt. lia.
Qed.

(** The counts when the cascade makes no pair at all. *)
Lemma diffShows_no_pairs previous next :
  allPairs previous next = [] →
  diffShows previous next
  = {| removed := Z.of_nat (length previous); unchanged := 0; updated := 0;
       added := Z.of_nat (length next) |}.
Proof.
  intros Hnone. rewrite diffShows_cascade. cbn zeta.
  destruct (cascade_spec previous next strategies emptyState) as (Hp & Hn & _).
  fold (allPairs previous next) in Hp, Hn. rewrite Hnone in Hp, Hn.
  rewrite Hp, Hn. cbn [fmap list_fmap emptyState matchedPrev matchedNext].
  rewrite list_to_set_nil, !(left_id_L ∅ (∪)), size_empty.
  rewrite allPairs_strategies in Hnone.
  apply app_eq_nil in Hnone as [-> Hnone]. rewrite Hnone. cbn [length].
  f_equal; lia.
Qed.

(** X7 — The edges of reconciliation: with no previous batch every
    scraped record keeps its computed identifier and counts as added;
    with an empty scrape every previous record counts as removed. *)
Theorem empty_batches previous next :
  preserveShowIds next [] = next
  ∧ diffShows [] next
    = {| removed := 0; unchanged := 0; updated := 0; added := Z.of_nat (length next) |}
  ∧ preserveShowIds [] previous = []
  ∧ diffShows previous []
    = {| removed := Z.of_nat (length previous); unchanged := 0; updated := 0;
         added := 0 |}.
Proof.
  split; [by rewrite preserveShowIds_cascade, allPairs_nil_previous|].
  split; [by rewrite diffShows_no_pairs by apply allPairs_nil_previous|].
  split; [by rewrite preserveShowIds_cascade, allPairs_nil_next|].
  by rewrite diffShows_no_pairs by apply allPairs_nil_next.
Qed.

(** The pair of position [i] with itself. *)
Lemma pairsOf_diagonal keyFn (map : gmap string (list nat)) j next :
  (∀ i n, next !! i = Some n →
     JS.truthy (keyFn n) = true ∧ map !! keyFn n = Some [j + i]) →
  pairsOf keyFn map ∅ j next
  = (fun i => {| prevIndex := i; nextIndex := i |}) <$> seq j (length next).
Proof.
  revert j. induction next as [|n next IH]; intros j Hmap; [done|].
  cbn [pairsOf length seq fmap list_fmap].
  destruct (Hmap 0 n eq_refl) as [Htruthy Hlook].
  rewrite decide_False by set_solver. rewrite Htruthy, Hlook, Nat.add_0_r.
  cbn [app]. f_equal. apply IH. intros i n' Hi.
  destruct (Hmap (S i) n' Hi) as [? Hl]. split; [done|].
  by rewrite Hl, Nat.add_succ_r.
Qed.

Lemma diagonal_indices (l : list nat) :
  prevIndex <$> ((fun i => {| prevIndex := i; nextIndex := i |}) <$> l) = l
  ∧ nextIndex <$> ((fun i => {| prevIndex := i; nextIndex := i |}) <$> l) = l.
Proof.
  induction l as [|x l [IHp IHn]]; [done|]. cbn [fmap list_fmap] in *.
  cbn [prevIndex nextIndex]. by rewrite IHp, IHn.
Qed.

Section SameBatch.
Variables previous next : list VenueDataShow.
Hypothesis same : Forall2 sameButId next previous.
Hypothesis distinct : NoDup (buildShowKey <$> previous).

Lemma same_batch_exact :
  strategyPairs 1 previous next
  = (fun i => {| prevIndex := i; nextIndex := i |}) <$> seq 0 (length next).
Proof using same distinct.
  rewrite (strategyPairs_pass 1 buildShowKey) by done.
  change (stateBefore 1 previous next) with emptyState.
  rewrite tryMatch_spec. cbn [snd emptyState matchedPrev matchedNext].
  apply pairsOf_diagonal. intros i n Hn.
  split; [apply buildShowKey_truthy|]. cbn [Nat.add].
  apply index_single; [apply buildShowKey_truthy|].
  destruct (Forall2_lookup_l _ _ _ _ _ same Hn) as (p & Hp & Hnp).
  assert (Hkey : buildShowKey n = buildShowKey p).
  { apply strategies_ignore_id; [set_solver | done]. }
  apply candidates_single. split; [set_solver|]. split; [by exists p|].
  intros x' p' _ Hp' Hk'.
  eapply NoDup_lookup; [exact distinct | |].
  - rewrite list_lookup_fmap, Hp'. reflexivity.
  - rewrite list_lookup_fmap, Hp. cbn [fmap option_fmap option_map]. congruence.
Qed.

Lemma same_batch_allPairs :
  allPairs previous next
  = (fun i => {| prevIndex := i; nextIndex := i |}) <$> seq 0 (length next).
Proof using same distinct.
  destruct (cascade_sizes previous next) as (Hn & _ & _ & Hnl). cbn zeta in *.
  rewrite Hn in Hnl. rewrite allPairs_strategies in Hnl |- *.
  rewrite same_batch_exact in Hnl |- *.
  rewrite length_app, length_fmap, length_seq in Hnl.
  destruct (strategyPairs 2 previous next ++ strategyPairs 3 previous next
            ++ strategyPairs 4 previous next ++ strategyPairs 5 previous next)
    as [|pr rest]; [by rewrite app_nil_r|].
  simpl in Hnl. lia.
Qed.

Lemma same_batch_diff :
  diffShows previous next
  = {| removed := 0; unchanged := Z.of_nat (length next); updated := 0; added := 0 |}.
Proof using same distinct.
  rewrite diffShows_cascade. cbn zeta.
  destruct (cascade_spec previous next strategies emptyState) as (Hp & Hn & _).
  fold (allPairs previous next) in Hp, Hn.
  rewrite Hp, Hn, same_batch_allPairs.
  rewrite (proj1 (diagonal_indices _)), (proj2 (diagonal_indices _)).
  cbn [emptyState matchedPrev matchedNext]. rewrite !(right_id_L ∅ (∪)).
  rewrite size_list_to_set by apply NoDup_seq. rewrite length_seq.
  pose proof same_batch_allPairs as Hall. rewrite allPairs_strategies in Hall.
  rewrite same_batch_exact in Hall |- *.
  apply (f_equal length) in Hall.
  rewrite !length_app, !length_fmap, !length_seq in Hall.
  rewrite !length_app, length_fmap, length_seq.
  rewrite (Forall2_length _ _ _ same). f_equal; lia.
Qed.

Lemma same_batch_ids : preserveShowIds next previous = previous.
Proof using same distinct.
  rewrite preserveShowIds_cascade, same_batch_allPairs.
  apply list_eq. intros j.
  destruct (decide (j < length next)) as [Hlt|Hge].
  - destruct (lookup_lt_is_Some_2 _ _ Hlt) as [n Hn].
    destruct (Forall2_lookup_l _ _ _ _ _ same Hn) as (p & Hp & Hnp).
    rewrite Hp.
    rewrite (assignShowIds_lookup_pair _ _ _ {| prevIndex := j; nextIndex := j |} p n).
    + f_equal. destruct n, p. unfold sameButId in Hnp. cbn in Hnp.
      destruct Hnp as (-> & -> & -> & -> & -> & -> & -> & ->). done.
    + rewrite (proj2 (diagonal_indices _)). apply NoDup_seq.
    + apply list_elem_of_fmap. exists j. split; [done|]. apply elem_of_seq. lia.
    + done.
    + done.
  - rewrite !lookup_ge_None_2; [done | |].
    + rewrite <- (Forall2_length _ _ _ same). lia.
    + rewrite assignShowIds_length. lia.
Qed.
End SameBatch.

(** X8 — Scraping the stored shows once more changes nothing: when the
    scraped batch agrees with the previous one, record by record, in all
    but the identifiers, and no two previous records have one exact key,
    the reconciled batch is the previous batch, identifiers included,
    and every record counts as unchanged. *)
Theorem same_batch_unchanged previous next :
  Forall2 sameButId next previous →
  NoDup (buildShowKey <$> previous) →
  preserveShowIds next previous = previous
  ∧ diffShows previous next
    = {| removed := 0; unchanged := Z.of_nat (length next); updated := 0; added := 0 |}.
Proof. intros. split; [by apply same_batch_ids | by apply same_batch_diff]. Qed.

Lemma same_batch_unchanged_sample :
  preserveShowIds [withShowId "5f2c1a9e" storedShow; withShowId "0badcafe" otherStored]
    [storedShow; otherStored]
  = [storedShow; otherStored]
  ∧ diffShows [storedShow; otherStored]
      [withShowId "5f2c1a9e" storedShow; withShowId "0badcafe" otherStored]
    = {| removed := 0; unchanged := 2; updated := 0; added := 0 |}.
Proof.
  apply (same_batch_unchanged [storedShow; otherStored]
           [withShowId "5f2c1a9e" storedShow; withShowId "0badcafe" otherStored]).
  - repeat constructor.
  - apply (@bool_decide_unpack _ (NoDup_dec _)). vm_compute. exact I.
Defined.

(** ** The records of a normalized batch *)

Lemma fromRows_weaken venue venueTitle source rows rows' show :
  (∀ item, item ∈ rows → item ∈ rows') →
  fromRows venue venueTitle source rows show →
  fromRows venue venueTitle source rows' show.
Proof.
  intros Hsub (Hv & Hn & Hs & (item & Hin & Hrow) & Hh & Ho).
  repeat split; try done.
  - exists item. split; [by apply Hsub | done].
  - intros x Hx. destruct (Hh x Hx) as (it & ? & ?). exists it. split; [by apply Hsub | done].
  - intros x Hx. destruct (Ho x Hx) as (it & ? & ?). exists it. split; [by apply Hsub | done].
Qed.

(** The step of the grouping loop adds at most one show, and makes its
    shows of the rows read so far. *)
Lemma groupStep_fromRows venue venueTitle source before st item :
  (∀ s, s ∈ shows st → fromRows venue venueTitle source before s) →
  (∀ s, s ∈ shows (groupStep venue venueTitle source st item) →
        fromRows venue venueTitle source (before ++ [item]) s)
  ∧ length (shows (groupStep venue venueTitle source st item)) ≤ S (length (shows st)).
Proof.
  intros Hinv.
  assert (Hold : ∀ s, s ∈ shows st →
            fromRows venue venueTitle source (before ++ [item]) s).
  { intros s Hs. eapply fromRows_weaken; [|by apply Hinv].
    intros it Hit. apply elem_of_app. by left. }
  assert (Hitem : item ∈ before ++ [item]) by (apply elem_of_app; right; left).
  assert (Hpush : ∀ s, fromRows venue venueTitle source (before ++ [item]) s →
            fromRows venue venueTitle source (before ++ [item])
              ((if isOpener item then pushOpeners (Scraped.artists item)
                else pushHeadliners (Scraped.artists item)) s)).
  { intros s (Hv & Hn & Hs & Hrow & Hh & Ho).
    destruct (isOpener item) eqn:Hrole; repeat split; try done; cbn.
    - intros x [Hx|Hx]%elem_of_app; [by apply Ho|]. by exists item.
    - intros x [Hx|Hx]%elem_of_app; [by apply Hh|]. by exists item. }
  unfold groupStep.
  destruct (match rowKey item ≫= (fun k => byKey st !! k) with
            | Some i => Some i
            | None =>
                if isOpener item
                then findLast
                       (fun existing =>
                          bool_decide (dateISO existing = Scraped.date item)
                          && bool_decide (showUrl existing = None))
                       0 (shows st)
                else None
            end) as [i|]; cbn [byKey shows].
  - split; [|rewrite length_alter; lia].
    intros s (x & Hx & [->| ->])%elem_of_alter_inv; [by apply Hold|].
    apply Hpush. by apply Hold.
  - split; [|rewrite length_alter, length_app; simpl; lia].
    intros s (x & Hx & Hs)%elem_of_alter_inv.
    assert (Hx' : fromRows venue venueTitle source (before ++ [item]) x).
    { apply elem_of_app in Hx as [Hx|Hx]; [by apply Hold|].
      apply list_elem_of_singleton in Hx as ->.
      repeat split; try done; cbn.
      - by exists item.
      - by intros x ?%elem_of_nil.
      - by intros x ?%elem_of_nil. }
    destruct Hs as [->| ->]; [done | by apply Hpush].
Qed.

Lemma groupRows_fromRows venue venueTitle source rows :
  (∀ s, s ∈ groupRows venue venueTitle source rows →
        fromRows venue venueTitle source rows s)
  ∧ length (groupRows venue venueTitle source rows) ≤ length rows.
Proof.
  unfold groupRows.
  assert (Hgen : ∀ rows before st,
            (∀ s, s ∈ shows st → fromRows venue venueTitle source before s) →
            (∀ s, s ∈ shows (fold_left (groupStep venue venueTitle source) rows st) →
                  fromRows venue venueTitle source (before ++ rows) s)
            ∧ length (shows (fold_left (groupStep venue venueTitle source) rows st))
              ≤ length (shows st) + length rows).
  { clear rows. induction rows as [|item rows IH]; intros before st Hinv.
    - rewrite app_nil_r. simpl. split; [done | lia].
    - cbn [fold_left].
      destruct (groupStep_fromRows venue venueTitle source before st item Hinv)
        as [Hstep Hlen].
      destruct (IH (before ++ [item]) _ Hstep) as [Hall Hlen'].
      rewrite <- app_assoc in Hall. split; [done|]. simpl. lia. }
  destruct (Hgen rows [] {| byKey := ∅; shows := [] |}) as [Hall Hlen].
  - by intros s ?%elem_of_nil.
  - split; [done|]. simpl in Hlen. lia.
Qed.

Lemma dedupeFrom_length seen normalized :
  length (dedupeFrom seen normalized) ≤ length normalized.
Proof.
  revert seen. induction normalized as [|s rest IH]; intros seen; simpl; [done|].
  case_decide; simpl; [specialize (IH seen) | specialize (IH ({[buildShowKey s]} ∪ seen))];
    lia.
Qed.

(** The members of a normalized batch are normalized groups. *)
Lemma elem_of_normalizeShows localeCompare venue venueTitle source rows show :
  show ∈ normalizeShows localeCompare venue venueTitle source rows →
  ∃ g, g ∈ groupRows venue venueTitle source rows ∧ show = normalizeShow g.
Proof.
  rewrite normalizeShows_unfold, sortBy_Permutation. unfold dedupe.
  intros Hin%elem_of_dedupeFrom. apply list_elem_of_fmap in Hin as (g & -> & Hg).
  by exists g.
Qed.

(** X9 — [normalizeShows] makes its records of the rows alone: there are
    at most as many shows as rows, and each carries the venue it was
    asked for, the date, time and page of one of the rows, and only
    names the rows give in the same role. *)
Theorem normalizeShows_from_rows localeCompare venue venueTitle source rows :
  length (normalizeShows localeCompare venue venueTitle source rows) ≤ length rows
  ∧ ∀ show, show ∈ normalizeShows localeCompare venue venueTitle source rows →
            fromRows venue venueTitle source rows show.
Proof.
  destruct (groupRows_fromRows venue venueTitle source rows) as [Hall Hlen]. split.
  - rewrite normalizeShows_unfold, (Permutation_length (sortBy_Permutation _ _)).
    unfold dedupe. etransitivity; [apply dedupeFrom_length|].
    by rewrite length_map.
  - intros show (g & Hg & ->)%elem_of_normalizeShows.
    destruct (Hall g Hg) as (Hv & Hn & Hs & Hrow & Hh & Ho).
    split; [done|]. split; [done|]. split; [done|]. split; [done|].
    cbn [normalizeShow headliners openers]. unfold sortStrings.
    split; intros x Hx; rewrite sortBy_Permutation in Hx;
      apply (proj1 (elem_of_unique _ _)) in Hx; [by apply Hh | by apply Ho].
Qed.

Lemma normalizeShows_from_rows_sample :
  fromRows (id sampleVenue) (name sampleVenue) (calendarUrl sampleVenue)
    (rowsOfShow keptShow)
    (withShowId (buildShowId "bottom-of-the-hill" "2026-01-10" (Some url0110)
                   ["Unchanged Headliner"]) keptShow).
Proof.
  apply (proj2 (normalizeShows_from_rows compareCodeUnits (id sampleVenue)
                  (name sampleVenue) (calendarUrl sampleVenue) (rowsOfShow keptShow))).
  vm_compute. left.
Defined.

Lemma sortStrings_ascending xs : ascending (sortStrings (unique xs)).
Proof.
  destruct compareCodeUnits_total as (Htot & Htrans & _).
  assert (Hsorted : StronglySorted (leBy compareCodeUnits) (sortStrings (unique xs)))
    by by apply sortBy_StronglySorted.
  assert (Hnd : NoDup (sortStrings (unique xs))).
  { unfold sortStrings. rewrite sortBy_Permutation. apply NoDup_uniqueFrom. }
  unfold ascending. induction Hsorted as [|a l Hl IH Ha]; [constructor|].
  apply NoDup_cons in Hnd as [Hnotin Hnd]. constructor; [by apply IH|].
  rewrite Forall_forall in Ha |- *. intros b Hb.
  specialize (Ha b Hb). apply compareCodeUnits_le in Ha.
  destruct (String.compare a b) eqn:E; [|done|done].
  apply String.compare_eq_iff in E. subst. done.
Qed.

(** X10 — Every record of a normalized batch is canonical: its
    headliners and its openers are in strictly ascending order of code
    units, hence free of duplicates, and its identifier is the hash of
    its own venue, date, page and headliners. *)
Theorem normalizeShows_canonical localeCompare venue venueTitle source rows show :
  show ∈ normalizeShows localeCompare venue venueTitle source rows →
  ascending (headliners show) ∧ ascending (openers show)
  ∧ NoDup (headliners show) ∧ NoDup (openers show)
  ∧ showId show
    = buildShowId (venueId show) (dateISO show) (showUrl show) (headliners show).
Proof.
  intros (g & _ & ->)%elem_of_normalizeShows. cbn [normalizeShow headliners openers showId
    venueId dateISO showUrl].
  repeat split; try apply sortStrings_ascending;
    unfold sortStrings; rewrite sortBy_Permutation; apply NoDup_uniqueFrom.
Qed.

Lemma normalizeShows_canonical_sample :
  let show := withShowId (buildShowId "bottom-of-the-hill" "2026-01-10" (Some url0110)
                            ["Unchanged Headliner"]) keptShow in
  ascending (headliners show) ∧ ascending (openers show)
  ∧ NoDup (headliners show) ∧ NoDup (openers show)
  ∧ showId show
    = buildShowId (venueId show) (dateISO show) (showUrl show) (headliners show).
Proof.
  apply (normalizeShows_canonical compareCodeUnits (id sampleVenue)
           (name sampleVenue) (calendarUrl sampleVenue) (rowsOfShow keptShow)).
  vm_compute. left.
Defined.

Lemma NoDup_dedupeFrom seen normalized :
  NoDup (buildShowKey <$> dedupeFrom seen normalized)
  ∧ ∀ show, show ∈ dedupeFrom seen normalized → buildShowKey show ∉ seen.
Proof.
  revert seen. induction normalized as [|s rest IH]; intros seen; simpl.
  - split; [constructor | by intros ? ?%elem_of_nil].
  - case_decide as Hs; [apply IH|].
    destruct (IH ({[buildShowKey s]} ∪ seen)) as [Hnd Hout]. split.
    + rewrite fmap_cons. constructor; [|done].
      intros (y & Hy & Hin)%list_elem_of_fmap. specialize (Hout y Hin). set_solver.
    + intros show [->|Hin]%elem_of_cons; [done|]. specialize (Hout show Hin). set_solver.
Qed.

Lemma normalizeShows_NoDup_keys localeCompare venue venueTitle source rows :
  NoDup (buildShowKey <$> normalizeShows localeCompare venue venueTitle source rows).
Proof.
  rewrite normalizeShows_unfold, sortBy_Permutation. apply NoDup_dedupeFrom.
Qed.




(** ** Running the update twice *)

Lemma Forall2_sameButId_sym l k :
  Forall2 sameButId l k → Forall2 sameButId k l.
Proof.
  induction 1 as [|a b l k Hab _ IH]; constructor; [|done].
  unfold sameButId in *. intuition congruence.
Qed.

Lemma Forall2_sameButId_filter (today : string) l k :
  Forall2 sameButId l k →
  Forall2 sameButId
    (filter (fun show => JS.strGe (dateISO show) today = true) l)
    (filter (fun show => JS.strGe (dateISO show) today = true) k).
Proof.
  apply Forall2_filter. intros a b (Hd & _). by rewrite Hd.
Qed.

Lemma NoDup_keys_sameButId l k :
  Forall2 sameButId l k → NoDup (buildShowKey <$> k) → NoDup (buildShowKey <$> l).
Proof.
  intros Hsame Hnd.
  assert (Heq : buildShowKey <$> l = buildShowKey <$> k); [|by rewrite Heq].
  apply list_eq_Forall2, Forall2_fmap. eapply Forall2_impl; [exact Hsame|].
  intros a b Hab. apply strategies_ignore_id; [set_solver | done].
Qed.

Lemma NoDup_keys_filter (today : string) l :
  NoDup (buildShowKey <$> l) →
  NoDup (buildShowKey
           <$> filter (fun show => JS.strGe (dateISO show) today = true) l).
Proof.
  intros Hnd. eapply sublist_NoDup; [exact Hnd|].
  apply fmap_sublist, sublist_filter.
Qed.

(** X12 — Running the update again is a no-op: when a venue's scrape
    yields the same rows on the same day, the second pass over the venue
    writes no file, whatever the first pass did and whatever the clock
    says. *)
Theorem second_run_writes_nothing localeCompare pathJoin gatherScrapedShows
    generatedAt generatedAt' todayISO mergedArgs scrapedByVenue st v :
  let st1 := updateVenue localeCompare pathJoin gatherScrapedShows generatedAt
               todayISO mergedArgs scrapedByVenue st v in
  let st2 := updateVenue localeCompare pathJoin gatherScrapedShows generatedAt'
               todayISO mergedArgs scrapedByVenue st1 v in
  writes st2 = writes st1 ∧ files st2 = files st1.
Proof.
  cbn zeta.
  destruct (scrapedRows gatherScrapedShows mergedArgs scrapedByVenue v)
    as [rows error] eqn:Hrows.
  destruct (JS.truthy (JS.orElse error "")) eqn:Herr.
  { unfold updateVenue. rewrite Hrows, Herr. done. }
  pose proof (updateVenue_gate localeCompare pathJoin gatherScrapedShows generatedAt
                todayISO mergedArgs scrapedByVenue st v rows error Hrows Herr) as H1.
  cbn zeta in H1. destruct H1 as [Hopen Hclosed].
  set (st1 := updateVenue localeCompare pathJoin gatherScrapedShows generatedAt
                todayISO mergedArgs scrapedByVenue st v) in *.
  pose proof (updateVenue_gate localeCompare pathJoin gatherScrapedShows generatedAt'
                todayISO mergedArgs scrapedByVenue st1 v rows error Hrows Herr) as H2.
  cbn zeta in H2. destruct H2 as [_ Hclosed2]. apply Hclosed2. clear Hclosed2.
  set (path := venueFilePath pathJoin mergedArgs v) in *.
  set (N := normalizeShows localeCompare (id v) (name v) (calendarUrl v) rows) in *.
  pose proof (shouldWrite_spec localeCompare pathJoin todayISO mergedArgs
                (files st) v rows) as Hgate.
  destruct (venuePass_counts localeCompare pathJoin todayISO mergedArgs (files st) v rows)
    as (_ & _ & Hfuture).
  cbn zeta in Hfuture. rewrite Hfuture in Hgate. fold path N in Hgate.
  destruct (shouldWrite (venuePass localeCompare pathJoin todayISO mergedArgs
                           (files st) v rows)) eqn:Hwrite;
    [assert (Hg := proj1 Hgate eq_refl)
    |assert (Hg : ¬ _) by (intros Hg; apply Hgate in Hg; discriminate Hg)];
    clear Hgate Hfuture.
  - destruct (Hopen Hg) as [_ Hfiles]. rewrite Hfiles.
    unfold readPrevious. rewrite lookup_insert_eq. cbn [fileShows].
    set (next1 := preserveShowIds N _).
    assert (Hsame1 : Forall2 sameButId next1 N) by apply preserveShowIds_sameButId.
    assert (Hsame2 : Forall2 sameButId (preserveShowIds N next1) next1).
    { eapply Forall2_trans; [apply sameButId_trans | apply preserveShowIds_sameButId |].
      by apply Forall2_sameButId_sym. }
    rewrite (same_batch_diff _ _ (Forall2_sameButId_filter todayISO _ _ Hsame2)).
    + cbn. intros [?|[?|[?|?]]]; (done || lia).
    + apply NoDup_keys_filter. eapply NoDup_keys_sameButId; [exact Hsame1|].
      apply normalizeShows_NoDup_keys.
  - destruct (Hclosed Hg) as [_ Hfiles]. rewrite Hfiles. exact Hg.
Qed.

(** ** The venue loop *)

Section VenueLoop.
Variable localeCompare : string → string → Z.
Variable pathJoin : string → string → string.
Variable gatherScrapedShows :
  string → string → string * string → list Scraped.t * option string.
Variables generatedAt todayISO : string.
Variable mergedArgs : Args.
Variable scrapedByVenue : gmap string (list Scraped.t).


End VenueLoop.


(** ** Rows built from parsed shows *)

Lemma headlinersFirst_app before rows1 rows2 :
  headlinersFirst before (rows1 ++ rows2)
  ↔ headlinersFirst before rows1 ∧ headlinersFirst (before ++ rows1) rows2.
Proof.
  revert before. induction rows1 as [|item rows1 IH]; intros before.
  - rewrite app_nil_r. simpl. tauto.
  - cbn [app headlinersFirst]. rewrite IH, <- app_assoc. cbn [app]. tauto.
Qed.

Lemma toScrapedShows_roles show venue item :
  item ∈ toScrapedShows show venue →
  Scraped.date item = Parsed.dateISO show
  ∧ Scraped.time item = Parsed.time24 show
  ∧ Scraped.showUrl item = Parsed.showUrl show
  ∧ ((isOpener item = false ∧ Scraped.artists item = [Parsed.headliner show])
     ∨ (isOpener item = true
        ∧ ∃ opener, opener ∈ Parsed.openers show ∧ Scraped.artists item = [opener])).
Proof.
  unfold toScrapedShows. intros [->|Hin]%elem_of_cons.
  - repeat split. by left.
  - apply list_elem_of_fmap in Hin as (opener & -> & Hin). repeat split.
    right. split; [done|]. by exists opener.
Qed.

(** The rows of one parsed show are headed, whatever rows come before. *)
Lemma toScrapedShows_headed show venue before :
  headlinersFirst before (toScrapedShows show venue).
Proof.
  unfold toScrapedShows. cbn [headlinersFirst]. split; [done|].
  set (h := {| Scraped.date := Parsed.dateISO show;
               Scraped.artists := [Parsed.headliner show] |}).
  assert (Hgen : ∀ (names : list string) (earlier : list Scraped.t),
            h ∈ earlier →
            headlinersFirst earlier
              (map (fun opener =>
                      {| Scraped.date := Parsed.dateISO show;
                         Scraped.time := Parsed.time24 show;
                         Scraped.artists := [opener];
                         Scraped.roles := ["opener"];
                         Scraped.venue := venue;
                         Scraped.showUrl := Parsed.showUrl show;
                         Scraped.sourcePageUrl := Parsed.sourcePageUrl show |})
                 names)).
  { induction names as [|o names IH]; intros earlier Hh; [done|].
    cbn [map headlinersFirst]. split.
    - unfold headed. cbn. exists h. done.
    - apply IH. apply elem_of_app. by left. }
  apply Hgen. apply elem_of_app. right. left.
Qed.

Lemma buildShows_headed dateParse defaultVenue parsed start finish venue before :
  headlinersFirst before
    (buildShows dateParse defaultVenue parsed start finish venue).
Proof.
  unfold buildShows.
  generalize (filter
                (fun show =>
                   isWithinRange dateParse (Parsed.dateISO show) start finish = true)
                parsed) as kept.
  intros kept. revert before.
  induction kept as [|show kept IH]; intros before; [done|].
  cbn [map concat]. apply headlinersFirst_app.
  split; [apply toScrapedShows_headed | apply IH].
Qed.

Lemma elem_of_buildShows dateParse defaultVenue parsed start finish venue item :
  item ∈ buildShows dateParse defaultVenue parsed start finish venue
  ↔ ∃ show, show ∈ parsed
            ∧ isWithinRange dateParse (Parsed.dateISO show) start finish = true
            ∧ item ∈ toScrapedShows show (JS.orElse venue defaultVenue).
Proof.
  unfold buildShows. rewrite elem_of_concat. split.
  - intros (l & Hitem & Hl). apply list_elem_of_fmap in Hl as (show & -> & Hshow).
    apply list_elem_of_filter in Hshow as [Hrange Hshow]. by exists show.
  - intros (show & Hshow & Hrange & Hitem).
    exists (toScrapedShows show (JS.orElse venue defaultVenue)). split; [done|].
    apply list_elem_of_fmap. exists show. split; [done|].
    by apply list_elem_of_filter.
Qed.

(** X14 — The row builders of the venue parsers put the headliner row of
    a show before its opener rows, so a batch normalized from built rows
    has a headliner on every show when rows of one grouping key carry
    one date; and they build rows only of parsed shows whose date parses
    and lies within bounds that parse. *)
Theorem built_rows_have_headliners dateParse defaultVenue parsed start finish venue
    localeCompare venueId venueName sourceUrl :
  let rows := buildShows dateParse defaultVenue parsed start finish venue in
  sameKeySameDate rows →
  (∀ show, show ∈ normalizeShows localeCompare venueId venueName sourceUrl rows →
           headliners show ≠ [])
  ∧ (∀ item, item ∈ rows →
       ∃ show d s e, show ∈ parsed
                     ∧ item ∈ toScrapedShows show (JS.orElse venue defaultVenue)
                     ∧ dateParse (Parsed.dateISO show) = Some d
                     ∧ dateParse start = Some s ∧ dateParse finish = Some e
                     ∧ (s <= d <= e)%Z).
Proof.
  cbn zeta. intros Hdates. split.
  - intros show (g & Hg & ->)%elem_of_normalizeShows.
    apply normalizeShow_headliners.
    eapply groupRows_headliners; [apply buildShows_headed | exact Hdates | exact Hg].
  - intros item (show & Hshow & Hrange & Hitem)%elem_of_buildShows.
    unfold isWithinRange in Hrange.
    destruct (dateParse (Parsed.dateISO show)) as [d|] eqn:Hd; [|done].
    destruct (dateParse start) as [s|] eqn:Hst; [|done].
    destruct (dateParse finish) as [e|] eqn:Hfin; [|done].
    apply andb_true_iff in Hrange as [Hs%Z.leb_le He%Z.leb_le].
    exists show, d, s, e. split; [done|]. split; [done|]. split; [done|].
    split; [done|]. split; [done|]. lia.
Qed.

Lemma built_rows_have_headliners_sample :
  Forall (fun show => headliners show ≠ [])
    (sampleNormalize compareCodeUnits
       (buildBottomShows isoDateParse [parsedA; parsedB] "2026-01-01" "2026-12-31" None)).
Proof.
  apply Forall_forall.
  apply (built_rows_have_headliners isoDateParse "bottom-of-the-hill"
           [parsedA; parsedB] "2026-01-01" "2026-12-31" None compareCodeUnits).
  intros a b k Ha Hb. vm_compute in Ha, Hb.
  repeat (apply elem_of_cons in Ha as [->|Ha]); try (by apply elem_of_nil in Ha);
    repeat (apply elem_of_cons in Hb as [->|Hb]); try (by apply elem_of_nil in Hb);
    vm_compute; congruence.
Defined.

(** ** Gathering the rows of a venue *)

Lemma fold_emit messages rows error :
  fold_left emit messages (rows, error)
  = (rows ++ eventsOf messages, from_option Some error (last (errorsOf messages))).
Proof.
  revert rows error. induction messages as [|m messages IH]; intros rows error.
  - by rewrite app_nil_r.
  - cbn [fold_left]. destruct m as [text|show|text|n]; cbn [emit fst snd];
      rewrite IH; unfold eventsOf, errorsOf; cbn [omap list_omap]; try done.
    + by rewrite <- app_assoc.
    + fold (errorsOf messages). f_equal.
      destruct (errorsOf messages) as [|e es] eqn:E; [done|].
      rewrite last_cons_cons.
      destruct (last (e :: es)) as [x|] eqn:El; [done|].
      by apply last_None in El.
Qed.

(** X15 — [gatherScrapedShows] hands back the shows of the scraper's
    stream in the order they came and, as the error, the last error
    message of the stream, whether shows came before it or after; a
    venue other than the two it is wired to gets no rows and an error
    that is not empty. *)
Theorem gatherScrapedShows_collects scrapeTheIndependent scrapeBottom venueId
    calendarUrl range :
  gatherScrapedShows scrapeTheIndependent scrapeBottom venueId calendarUrl range
  = (if decide (venueId = "the-independent")
     then (eventsOf (scrapeTheIndependent calendarUrl range),
           last (errorsOf (scrapeTheIndependent calendarUrl range)))
     else if decide (venueId = "bottom-of-the-hill")
     then (eventsOf (scrapeBottom calendarUrl range),
           last (errorsOf (scrapeBottom calendarUrl range)))
     else ([], Some ("No scraper wired for " +:+ venueId +:+ ".")))
  ∧ (venueId ≠ "the-independent" → venueId ≠ "bottom-of-the-hill" →
     ∃ text, gatherScrapedShows scrapeTheIndependent scrapeBottom venueId
               calendarUrl range = ([], Some text)
             ∧ JS.truthy text = true).
Proof.
  unfold gatherScrapedShows. split.
  - repeat case_decide; rewrite ?fold_emit; cbn [app]; try done;
      by destruct (last _).
  - intros H1 H2. rewrite !decide_False by done. eexists. split; [done|]. done.
Qed.

Lemma gatherScrapedShows_collects_sample :
  ∃ text, gatherScrapedShows noStream noStream "the-chapel"
            "https://thechapelsf.com/music/" ("2026-01-01", "2026-12-31")
          = ([], Some text)
          ∧ JS.truthy text = true.
Proof.
  apply (proj2 (gatherScrapedShows_collects noStream noStream "the-chapel"
                  "https://thechapelsf.com/music/" ("2026-01-01", "2026-12-31")));
    discriminate.
Defined.



(** ** From parsed shows to records and back *)

Section RoundTrip.
Variables venue venueTitle source rowVenue : string.

Lemma toScrapedShows_key p item :
  JS.truthy (Parsed.showUrl p) = true →
  item ∈ toScrapedShows p rowVenue →
  JS.truthy (Scraped.showUrl item) = true ∧ rowKey item = Some (pageKey p).
Proof.
  intros Hurl Hitem. destruct (toScrapedShows_roles p rowVenue item Hitem)
    as (_ & _ & Hu & _).
  assert (Ht : JS.truthy (Scraped.showUrl item) = true) by by rewrite Hu.
  split; [done|]. destruct (rowKey_with_url item Ht) as [_ ->]. by rewrite Hu.
Qed.

Lemma filter_all {A : Type} (P : A → Prop) `{!∀ x, Decision (P x)} (l : list A) :
  (∀ x, x ∈ l → P x) → filter P l = l.
Proof.
  induction l as [|x l IH]; intros Hall; [done|]. rewrite filter_cons.
  rewrite decide_True by (apply Hall; left). f_equal. apply IH.
  intros y Hy. apply Hall. by right.
Qed.

Lemma filter_none {A : Type} (P : A → Prop) `{!∀ x, Decision (P x)} (l : list A) :
  (∀ x, x ∈ l → ¬ P x) → filter P l = [].
Proof.
  induction l as [|x l IH]; intros Hnone; [done|]. rewrite filter_cons.
  rewrite decide_False by (apply Hnone; left). apply IH.
  intros y Hy. apply Hnone. by right.
Qed.

(** The rows under the key of a parsed show are the rows of that show. *)
Lemma members_of_parsed parsed p :
  (∀ q, q ∈ parsed → JS.truthy (Parsed.showUrl q) = true) →
  NoDup (Parsed.showUrl <$> parsed) →
  p ∈ parsed →
  members (pageKey p) (concat (map (fun q => toScrapedShows q rowVenue) parsed))
  = toScrapedShows p rowVenue.
Proof.
  intros Hurls Hnd Hp. unfold members.
  induction parsed as [|q parsed IH]; [by apply elem_of_nil in Hp|].
  rewrite fmap_cons in Hnd. apply NoDup_cons in Hnd as [Hq Hnd].
  cbn [map concat]. rewrite filter_app.
  assert (Hother : ∀ q', q' ∈ parsed → Parsed.showUrl q' ≠ Parsed.showUrl q).
  { intros q' Hq' Heq. apply Hq. rewrite <- Heq. by apply list_elem_of_fmap_2. }
  destruct (decide (Parsed.showUrl q = Parsed.showUrl p)) as [Heq|Hne].
  - assert (q = p) as ->.
    { apply elem_of_cons in Hp as [->|Hp]; [done|]. by destruct (Hother p Hp). }
    rewrite filter_all, filter_none; [by rewrite app_nil_r | |].
    + intros item (l & Hitem & (q' & -> & Hq')%list_elem_of_fmap)%elem_of_concat.
      destruct (toScrapedShows_key q' item) as [_ Hk]; [apply Hurls; by right | done |].
      rewrite Hk. intros [= Hkeys%append_inv_head]. by apply (Hother q').
    + intros item Hitem.
      by destruct (toScrapedShows_key p item) as [_ Hk]; [apply Hurls; left | |].
  - rewrite filter_none.
    + cbn [app]. apply IH; [intros; apply Hurls; by right | done |].
      apply elem_of_cons in Hp as [->|Hp]; [done | done].
    + intros item Hitem.
      destruct (toScrapedShows_key q item) as [_ Hk]; [apply Hurls; left | done |].
      rewrite Hk. intros [= Hkeys%append_inv_head]. done.
Qed.

Lemma artistsOf_toScrapedShows p :
  artistsOf false (toScrapedShows p rowVenue) = [Parsed.headliner p]
  ∧ artistsOf true (toScrapedShows p rowVenue) = Parsed.openers p.
Proof.
  unfold artistsOf, toScrapedShows. rewrite !filter_cons.
  rewrite decide_True by done. rewrite decide_False by done.
  split.
  - rewrite filter_none; [done|].
    by intros item (o & -> & _)%list_elem_of_fmap.
  - rewrite filter_all by (by intros item (o & -> & _)%list_elem_of_fmap).
    induction (Parsed.openers p) as [|o os IH]; [done|].
    cbn [map fmap list_fmap concat app Scraped.artists] in *. by rewrite IH.
Qed.

(** The group of the rows of one parsed show, normalized. *)
Lemma normalizeShow_of_parsed p :
  JS.truthy (Parsed.showUrl p) = true →
  normalizeShow (buildGroup venue venueTitle source (toScrapedShows p rowVenue))
  = showOfParsed venue venueTitle source p.
Proof.
  intros Hurl. unfold normalizeShow, showOfParsed.
  destruct (artistsOf_toScrapedShows p) as [Hh Ho].
  cbn [buildGroup headliners openers venueId dateISO showUrl startTime venueName
         sourceUrl]. rewrite Hh, Ho.
  assert (Hone : sortStrings (unique [Parsed.headliner p]) = [Parsed.headliner p]).
  { unfold unique. cbn [uniqueFrom]. by rewrite decide_False by set_solver. }
  rewrite Hone. unfold toScrapedShows. cbn [head from_option mbind option_bind].
  unfold rowShowUrl. cbn [Scraped.showUrl Scraped.date Scraped.time].
  by rewrite Hurl.
Qed.

Lemma groupedBatch_of_parsed parsed :
  (∀ q, q ∈ parsed → JS.truthy (Parsed.showUrl q) = true) →
  NoDup (Parsed.showUrl <$> parsed) →
  groupedBatch venue venueTitle source
    (concat (map (fun q => toScrapedShows q rowVenue) parsed))
  ≡ₚ showOfParsed venue venueTitle source <$> parsed.
Proof.
  intros Hurls Hnd. unfold groupedBatch.
  set (rows := concat (map (fun q => toScrapedShows q rowVenue) parsed)).
  assert (Hrows : ∀ item, item ∈ rows →
            ∃ q, q ∈ parsed ∧ item ∈ toScrapedShows q rowVenue).
  { intros item (l & Hitem & (q & -> & Hq)%list_elem_of_fmap)%elem_of_concat.
    by exists q. }
  assert (Hall : allWithUrl rows).
  { intros item (q & Hq & Hitem)%Hrows.
    by destruct (toScrapedShows_key q item) as [? _]; [apply Hurls | |]. }
  destruct (groupRows_spec venue venueTitle source rows Hall)
    as (keys & Hkeys & Hin & ->).
  assert (Hperm : keys ≡ₚ pageKey <$> parsed).
  { apply NoDup_Permutation; [done | |].
    - apply NoDup_fmap_2_strong; [|by apply NoDup_fmap_1 in Hnd].
      intros a b Ha Hb Hab%append_inv_head.
      eapply NoDup_fmap_eq; [exact Hnd | done..].
    - intros k. rewrite Hin. split.
      + intros (item & (q & Hq & Hitem)%Hrows & Hk).
        destruct (toScrapedShows_key q item) as [_ Hk']; [by apply Hurls | done |].
        apply list_elem_of_fmap. exists q. split; [congruence | done].
      + intros (q & -> & Hq)%list_elem_of_fmap.
        exists {| Scraped.date := Parsed.dateISO q; Scraped.time := Parsed.time24 q;
                  Scraped.artists := [Parsed.headliner q];
                  Scraped.roles := ["headliner"]; Scraped.venue := rowVenue;
                  Scraped.showUrl := Parsed.showUrl q;
                  Scraped.sourcePageUrl := Parsed.sourcePageUrl q |}.
        assert (Hitem : ∀ item, item ∈ toScrapedShows q rowVenue → item ∈ rows).
        { intros item Hitem. apply elem_of_concat. eexists. split; [exact Hitem|].
          apply list_elem_of_fmap. by exists q. }
        split; [apply Hitem; left|].
        by destruct (toScrapedShows_key q _ (Hurls q Hq) (list_elem_of_here _ _)). }
  rewrite <- list_fmap_compose, Hperm, <- list_fmap_compose.
  assert (Heq : ∀ l : list Parsed.t, (∀ q, q ∈ l → q ∈ parsed) →
            (normalizeShow
               ∘ (fun k => buildGroup venue venueTitle source (members k rows))
               ∘ pageKey) <$> l
            = showOfParsed venue venueTitle source <$> l).
  { induction l as [|q l IH]; intros Hl; [done|]. rewrite !fmap_cons. f_equal.
    - cbn [compose]. unfold rows.
      rewrite members_of_parsed by (done || apply Hl; left).
      apply normalizeShow_of_parsed, Hurls, Hl. left.
    - apply IH. intros q' Hq'. apply Hl. by right. }
  by rewrite Heq.
Qed.
End RoundTrip.

(** X17 — Round trip through the rows: when the parsed shows in range
    each have a page, no two share a page, and no two come to one exact
    key, normalizing the rows built from them gives back exactly one
    record per parsed show: its date, its time in 12-hour form, its
    page, its headliner, its openers sorted and without duplicates, and
    the identifier hashed from these. *)
Theorem parsed_shows_round_trip dateParse defaultVenue parsed start finish rowVenue
    localeCompare venue venueTitle source :
  let kept :=
    filter (fun show => isWithinRange dateParse (Parsed.dateISO show) start finish = true)
      parsed in
  (∀ show, show ∈ kept → JS.truthy (Parsed.showUrl show) = true) →
  NoDup (Parsed.showUrl <$> kept) →
  NoDup (buildShowKey <$> (showOfParsed venue venueTitle source <$> kept)) →
  normalizeShows localeCompare venue venueTitle source
    (buildShows dateParse defaultVenue parsed start finish rowVenue)
  ≡ₚ showOfParsed venue venueTitle source <$> kept.
Proof.
  cbn zeta. intros Hurls Hpages Hkeys.
  rewrite normalizeShows_unfold, sortBy_Permutation. unfold buildShows, dedupe.
  pose proof (groupedBatch_of_parsed venue venueTitle source
                (JS.orElse rowVenue defaultVenue) _ Hurls Hpages) as Hperm.
  unfold groupedBatch in Hperm.
  rewrite dedupeFrom_NoDup; [done | | set_solver].
  by rewrite Hperm.
Qed.

Lemma parsed_shows_round_trip_sample :
  sampleNormalize compareCodeUnits
    (buildBottomShows isoDateParse [parsedA; parsedB] "2026-01-01" "2026-12-31" None)
  ≡ₚ [ showOfParsed (id sampleVenue) (name sampleVenue) (calendarUrl sampleVenue) parsedA;
       showOfParsed (id sampleVenue) (name sampleVenue) (calendarUrl sampleVenue) parsedB ].
Proof.
  apply (parsed_shows_round_trip isoDateParse "bottom-of-the-hill" [parsedA; parsedB]
           "2026-01-01" "2026-12-31" None compareCodeUnits).
  - intros show Hshow. vm_compute in Hshow.
    repeat (apply elem_of_cons in Hshow as [->|Hshow]); [done | done |].
    by apply elem_of_nil in Hshow.
  - apply (@bool_decide_unpack _ (NoDup_dec _)). vm_compute. exact I.
  - apply (@bool_decide_unpack _ (NoDup_dec _)). vm_compute. exact I.
Defined.

(** ** The identifier hash *)

Lemma toInt32_mod x : (toInt32 x mod 2 ^ 32 = x mod 2 ^ 32)%Z.
Proof.
  unfold toInt32.
  rewrite <- (Z.add_0_r ((x + 2 ^ 31) mod 2 ^ 32 - 2 ^ 31)).
  replace ((x + 2 ^ 31) mod 2 ^ 32 - 2 ^ 31 + 0)%Z
    with ((x + 2 ^ 31) mod 2 ^ 32 + (- 2 ^ 31))%Z by lia.
  rewrite Zplus_mod_idemp_l. f_equal. lia.
Qed.

Lemma lxor_mod a b :
  (Z.lxor a b mod 2 ^ 32 = Z.lxor (a mod 2 ^ 32) (b mod 2 ^ 32))%Z.
Proof.
  apply Z.bits_inj'. intros n Hn.
  destruct (Z.lt_ge_cases n 32) as [Hlt|Hge].
  - rewrite Z.mod_pow2_bits_low by lia. rewrite !Z.lxor_spec.
    rewrite !Z.mod_pow2_bits_low by lia. reflexivity.
  - rewrite Z.mod_pow2_bits_high by lia. rewrite Z.lxor_spec.
    rewrite !Z.mod_pow2_bits_high by lia. reflexivity.
Qed.

Lemma toInt32_eq x : ∃ q, toInt32 x = (x + q * 2 ^ 32)%Z.
Proof.
  unfold toInt32. exists (- ((x + 2 ^ 31) / 2 ^ 32))%Z.
  pose proof (Z.div_mod (x + 2 ^ 31) (2 ^ 32)). lia.
Qed.

Lemma shl32_eq x k : (0 <= k)%Z → ∃ q, shl32 x k = (x * 2 ^ k + q * 2 ^ 32)%Z.
Proof.
  intros Hk. unfold shl32. rewrite Z.shiftl_mul_pow2 by done.
  destruct (toInt32_eq x) as [q1 ->].
  destruct (toInt32_eq ((x + q1 * 2 ^ 32) * 2 ^ k)) as [q2 ->].
  exists (q1 * 2 ^ k + q2)%Z. ring.
Qed.

(** One round of the loop is one round of FNV-1a, modulo 2^32. *)
Lemma hashStep_fnv hash c :
  (toUint32 (hashStep hash c)
   = (Z.lxor (toUint32 hash) (JS.charCode c) * fnvPrime) mod 2 ^ 32)%Z.
Proof.
  unfold hashStep, toUint32. set (h := xor32 hash (JS.charCode c)).
  assert (Hh : (h mod 2 ^ 32
                = Z.lxor (hash mod 2 ^ 32) (JS.charCode c) mod 2 ^ 32)%Z).
  { unfold h, xor32.
    rewrite toInt32_mod, (lxor_mod (toInt32 hash)), !toInt32_mod.
    rewrite (lxor_mod (hash mod 2 ^ 32) (JS.charCode c)), Zmod_mod. done. }
  destruct (shl32_eq h 1) as [q1 ->]; [lia|].
  destruct (shl32_eq h 4) as [q4 ->]; [lia|].
  destruct (shl32_eq h 7) as [q7 ->]; [lia|].
  destruct (shl32_eq h 8) as [q8 ->]; [lia|].
  destruct (shl32_eq h 24) as [q24 ->]; [lia|].
  replace (h + (h * 2 ^ 1 + q1 * 2 ^ 32 + (h * 2 ^ 4 + q4 * 2 ^ 32)
                + (h * 2 ^ 7 + q7 * 2 ^ 32) + (h * 2 ^ 8 + q8 * 2 ^ 32)
                + (h * 2 ^ 24 + q24 * 2 ^ 32)))%Z
    with (h * fnvPrime + (q1 + q4 + q7 + q8 + q24) * 2 ^ 32)%Z
    by (unfold fnvPrime; lia).
  rewrite Z_mod_plus_full, <- Zmult_mod_idemp_l, Hh, Zmult_mod_idemp_l. done.
Qed.

Lemma hashLoop_fnv value hash :
  toUint32 (hashLoop value hash) = fnv1a value (toUint32 hash)
  ∨ value = EmptyString.
Proof.
  destruct value as [|c rest]; [by right|]. left.
  revert c hash. induction rest as [|c' rest IH]; intros c hash.
  - exact (hashStep_fnv hash c).
  - change (toUint32 (hashLoop (String c' rest) (hashStep hash c))
            = fnv1a (String c' rest)
                ((Z.lxor (toUint32 hash) (JS.charCode c) * fnvPrime) mod 2 ^ 32)%Z).
    rewrite IH. rewrite hashStep_fnv. reflexivity.
Qed.

(** X18 — The hash of [hashString] is FNV-1a on 32 bits: the shifts and
    additions of the loop multiply by the FNV prime modulo 2^32, the
    result is printed in hexadecimal and padded with zeros to eight
    characters. *)
Theorem hashString_is_fnv1a value :
  hashString value = JS.padStart 8 "0" (JS.toHexString (fnv1a value fnvOffsetBasis)).
Proof.
  unfold hashString.
  destruct (hashLoop_fnv value 2166136261) as [->| ->].
  - assert (toUint32 2166136261 = fnvOffsetBasis) as -> by (vm_compute; reflexivity).
    reflexivity.
  - vm_compute. reflexivity.
Qed.

(** ** The shape of an identifier *)

Lemma hex_digits_string d :
  String.length (HexadecimalString.NilEmpty.string_of_uint d) = Hexadecimal.nb_digits d
  ∧ stringForall isLowerHex (HexadecimalString.NilEmpty.string_of_uint d) = true.
Proof.
  induction d as [|d [IHl IHc]|d [IHl IHc]|d [IHl IHc]|d [IHl IHc]|d [IHl IHc]
                  |d [IHl IHc]|d [IHl IHc]|d [IHl IHc]|d [IHl IHc]|d [IHl IHc]
                  |d [IHl IHc]|d [IHl IHc]|d [IHl IHc]|d [IHl IHc]|d [IHl IHc]
                  |d [IHl IHc]];
    [done
    |split;
       [cbn; by rewrite IHl
       |cbn [HexadecimalString.NilEmpty.string_of_uint stringForall]; by rewrite IHc]..].
Qed.

Lemma usize_nb_digits d :
  HexadecimalPos.Unsigned.usize d = N.of_nat (Hexadecimal.nb_digits d).
Proof.
  induction d; [done|..];
    cbn [HexadecimalPos.Unsigned.usize Hexadecimal.nb_digits];
    rewrite Nat2N.inj_succ; congruence.
Qed.

(** A numeral without leading zeros has as many digits as its value
    needs. *)
Lemma hex_digits_bound d :
  Hexadecimal.unorm d = d →
  (N.of_hex_uint d < 16 ^ 8)%N →
  1 ≤ Hexadecimal.nb_digits d ≤ 8.
Proof.
  intros Hnorm Hlt.
  assert (Hlead : ∀ lead rest,
            (1 <= HexadecimalPos.Unsigned.of_lu (lead Hexadecimal.Nil))%N →
            (∀ u, Hexadecimal.revapp (lead rest) u = Hexadecimal.revapp rest (lead u)) →
            d = lead rest → Hexadecimal.nb_digits rest < 8).
  { intros lead rest Hone Hrev ->.
    unfold N.of_hex_uint in Hlt.
    rewrite HexadecimalPos.Unsigned.of_uint_alt in Hlt.
    unfold Hexadecimal.rev in Hlt. rewrite Hrev in Hlt.
    rewrite HexadecimalPos.Unsigned.of_lu_revapp, usize_nb_digits in Hlt.
    destruct (decide (Hexadecimal.nb_digits rest < 8)) as [|Hge]; [done|].
    assert (16 ^ 8 <= 16 ^ N.of_nat (Hexadecimal.nb_digits rest))%N
      by (apply N.pow_le_mono_r; lia).
    nia. }
  destruct d as [|d|d|d|d|d|d|d|d|d|d|d|d|d|d|d|d];
    cbn [Hexadecimal.nb_digits];
    try (split; [lia|];
         match goal with
         | |- context [Hexadecimal.nb_digits ?r] =>
             assert (Hexadecimal.nb_digits r < 8); [|lia]
         end;
         eapply (Hlead _ d); [| |reflexivity]; [vm_compute; discriminate | done]).
  - done.
  - rewrite HexadecimalFacts.unorm_D0 in Hnorm.
    unfold Hexadecimal.unorm in Hnorm.
    destruct (Hexadecimal.nzhead d) eqn:E;
      try (exfalso; eapply (HexadecimalFacts.nzhead_nonzero d); rewrite E; exact Hnorm).
    injection Hnorm as <-. simpl. lia.
Qed.

Lemma string_length_append (a b : string) :
  String.length (a +:+ b) = String.length a + String.length b.
Proof. induction a as [|c a IH]; simpl; [done | by rewrite IH]. Qed.

Lemma stringForall_append accept (a b : string) :
  stringForall accept (a +:+ b) = stringForall accept a && stringForall accept b.
Proof. induction a as [|c a IH]; simpl; [done | by rewrite IH, andb_assoc]. Qed.

Lemma repeatChar_shape accept c n :
  accept c = true →
  String.length (JS.repeatChar c n) = n
  ∧ stringForall accept (JS.repeatChar c n) = true.
Proof.
  intros Hc. induction n as [|n [IHl IHc]]; [done|]. simpl. by rewrite IHl, IHc, Hc.
Qed.

Lemma toHexString_shape n :
  (0 <= n < 2 ^ 32)%Z →
  1 ≤ String.length (JS.toHexString n) ≤ 8
  ∧ stringForall isLowerHex (JS.toHexString n) = true.
Proof.
  intros Hn. unfold JS.toHexString.
  set (d := N.to_hex_uint (Z.to_N n)).
  assert (Hnorm : Hexadecimal.unorm d = d).
  { unfold d. rewrite <- (HexadecimalN.Unsigned.of_to (Z.to_N n)) at 2.
    by rewrite HexadecimalN.Unsigned.to_of. }
  assert (Hlt : (N.of_hex_uint d < 16 ^ 8)%N).
  { unfold d. rewrite HexadecimalN.Unsigned.of_to.
    change (16 ^ 8)%N with (Z.to_N (2 ^ 32)). lia. }
  pose proof (hex_digits_bound d Hnorm Hlt) as Hdigits.
  destruct (hex_digits_string d) as [Hlen Hchars].
  assert (Hstr : HexadecimalString.NilZero.string_of_uint d
                 = HexadecimalString.NilEmpty.string_of_uint d).
  { destruct d; try done; simpl in Hdigits; lia. }
  rewrite Hstr, Hlen. done.
Qed.

Lemma hashString_shape value : eightHex (hashString value).
Proof.
  unfold eightHex, hashString, JS.padStart.
  destruct (toHexString_shape (toUint32 (hashLoop value 2166136261))) as [Hlen Hchars].
  { unfold toUint32. apply Z.mod_pos_bound. done. }
  destruct (repeatChar_shape isLowerHex "0"
              (8 - String.length (JS.toHexString (toUint32 (hashLoop value 2166136261)))))
    as [Hpl Hpc]; [done|].
  rewrite string_length_append, stringForall_append, Hpl, Hpc, Hchars.
  split; [lia | done].
Qed.

(** X19 — An identifier is always eight lowercase hexadecimal digits:
    that is what [hashString] and so [buildShowId] return for every
    input, and what every record of a normalized batch carries as its
    [showId]. *)
Theorem showId_is_eight_hex_digits :
  (∀ value, eightHex (hashString value))
  ∧ (∀ venueId dateISO showUrl headliners,
       eightHex (buildShowId venueId dateISO showUrl headliners))
  ∧ (∀ localeCompare venueId venueName sourceUrl rows show,
       show ∈ normalizeShows localeCompare venueId venueName sourceUrl rows →
       eightHex (showId show)).
Proof.
  split; [apply hashString_shape|]. split; [intros; apply hashString_shape|].
  intros lc v n s rows show (g & _ & ->)%elem_of_normalizeShows.
  apply hashString_shape.
Qed.

(** ** Runs of a character class *)

Section Runs.
Variable inClass : ascii → bool.
Variable replacement : ascii.

Lemma separated_weaken s :
  separated inClass replacement true s = true →
  separated inClass replacement false s = true.
Proof.
  destruct s as [|c rest]; [done|]. cbn [separated].
  destruct (inClass c); [|done]. by rewrite andb_false_r.
Qed.

Lemma replaceRuns_separated inRun s :
  separated inClass replacement inRun (replaceRuns inClass replacement inRun s) = true.
Proof.
  revert inRun. induction s as [|c rest IH]; intros inRun; [done|].
  cbn [replaceRuns]. destruct (inClass c) eqn:Hc.
  - destruct inRun; [apply IH|]. cbn [separated].
    destruct (inClass replacement).
    + by rewrite Ascii.eqb_refl, IH.
    + apply separated_weaken, IH.
  - cbn [separated]. rewrite Hc. apply IH.
Qed.

Lemma replaceRuns_fixed inRun s :
  separated inClass replacement inRun s = true →
  replaceRuns inClass replacement inRun s = s.
Proof.
  revert inRun. induction s as [|c rest IH]; intros inRun; [done|].
  cbn [separated replaceRuns]. destruct (inClass c).
  - intros [[Hc%Ascii.eqb_eq Hrun%negb_true_iff]%andb_true_iff Hrest]%andb_true_iff.
    subst. by rewrite IH.
  - intros Hrest. by rewrite IH.
Qed.
End Runs.

(** ** White space *)

Lemma dropSpaces_separated afterRun s :
  separated JS.isSpace " " afterRun s = true →
  separated JS.isSpace " " true (JS.dropSpaces s) = true.
Proof.
  revert afterRun. induction s as [|c rest IH]; intros afterRun; [done|].
  cbn [separated JS.dropSpaces]. destruct (JS.isSpace c) eqn:Hc.
  - intros [_ Hrest]%andb_true_iff. by eapply IH.
  - intros Hrest. cbn [separated]. by rewrite Hc.
Qed.

Lemma dropSpaces_fixed s :
  separated JS.isSpace " " true s = true → JS.dropSpaces s = s.
Proof.
  destruct s as [|c rest]; [done|]. cbn [separated JS.dropSpaces].
  destruct (JS.isSpace c); [|done]. by rewrite andb_false_r.
Qed.

Lemma trimEnd_separated afterRun s :
  separated JS.isSpace " " afterRun s = true →
  separated JS.isSpace " " afterRun (trimEnd s) = true.
Proof.
  revert afterRun. induction s as [|c rest IH]; intros afterRun; [done|].
  cbn [separated trimEnd]. intros Hs.
  destruct (trimEnd rest) as [|k kept] eqn:Hkept.
  - destruct (JS.isSpace c) eqn:Hc; [done|]. cbn [separated]. by rewrite Hc.
  - cbn [separated]. destruct (JS.isSpace c).
    + apply andb_true_iff in Hs as [-> Hrest]. by apply IH.
    + by apply IH.
Qed.

Lemma trimEnd_idempotent s : trimEnd (trimEnd s) = trimEnd s.
Proof.
  induction s as [|c rest IH]; [done|]. cbn [trimEnd].
  destruct (trimEnd rest) as [|k kept] eqn:Hkept.
  - destruct (JS.isSpace c) eqn:Hc; [done|]. cbn [trimEnd]. by rewrite Hc.
  - cbn [trimEnd]. cbn [trimEnd] in IH. by rewrite IH.
Qed.

(** What [trimEnd] leaves starts as the text did. *)
Lemma dropSpaces_trimEnd s :
  JS.dropSpaces s = s → JS.dropSpaces (trimEnd s) = trimEnd s.
Proof.
  destruct s as [|c rest]; [done|]. cbn [JS.dropSpaces trimEnd].
  destruct (JS.isSpace c) eqn:Hc.
  - intros Heq. exfalso.
    assert (Hlen : String.length (JS.dropSpaces rest) ≤ String.length rest).
    { clear. induction rest as [|c rest IH]; simpl; [done|].
      destruct (JS.isSpace c); simpl; lia. }
    rewrite Heq in Hlen. simpl in Hlen. lia.
  - intros _. destruct (trimEnd rest); cbn [JS.dropSpaces]; by rewrite Hc.
Qed.

Lemma dropSpaces_idempotent s : JS.dropSpaces (JS.dropSpaces s) = JS.dropSpaces s.
Proof.
  induction s as [|c rest IH]; [done|]. cbn [JS.dropSpaces].
  destruct (JS.isSpace c) eqn:Hc; [done|]. cbn [JS.dropSpaces]. by rewrite Hc.
Qed.

Lemma trim_idempotent s : trim (trim s) = trim s.
Proof.
  unfold trim. rewrite dropSpaces_trimEnd by apply dropSpaces_idempotent.
  apply trimEnd_idempotent.
Qed.

Lemma normalizeWhitespace_tidy value : tidy (normalizeWhitespace value).
Proof.
  unfold tidy, normalizeWhitespace, trim. split; [|apply trimEnd_idempotent].
  apply trimEnd_separated. eapply dropSpaces_separated, replaceRuns_separated.
Qed.

Lemma normalizeWhitespace_fixed value : tidy value → normalizeWhitespace value = value.
Proof.
  intros [Hsep Htrim]. unfold normalizeWhitespace, trim.
  rewrite replaceRuns_fixed by by apply separated_weaken.
  by rewrite dropSpaces_fixed.
Qed.

(** X20 — [normalizeWhitespace] brings a text to normal form: in the
    result every run of white space has become one space and none is
    left at either end; a text already in that form comes back as it
    is; so normalizing twice is normalizing once. *)
Theorem normalizeWhitespace_normal_form value :
  tidy (normalizeWhitespace value)
  ∧ (tidy value → normalizeWhitespace value = value)
  ∧ normalizeWhitespace (normalizeWhitespace value) = normalizeWhitespace value.
Proof.
  split; [apply normalizeWhitespace_tidy|]. split; [apply normalizeWhitespace_fixed|].
  apply normalizeWhitespace_fixed, normalizeWhitespace_tidy.
Qed.

Lemma normalizeWhitespace_normal_form_sample :
  normalizeWhitespace "Band A with Band B" = "Band A with Band B".
Proof.
  apply (proj1 (proj2 (normalizeWhitespace_normal_form "Band A with Band B"))).
  split; reflexivity.
Defined.

(** X21 — [splitOpeners] returns names only: no entry is empty, none
    has white space at either end, and none is the placeholder TBA,
    alone or after "support" or "more", in any case of the letters. *)
Theorem splitOpeners_names value item :
  item ∈ splitOpeners value →
  item ≠ EmptyString ∧ trim item = item ∧ isPlaceholder item = false
  ∧ JS.toLowerCase item ≠ "tba".
Proof.
  unfold splitOpeners. cbn zeta.
  destruct (JS.truthy (trim _)); [|by intros ?%elem_of_nil].
  intros [Hkeep Hin]%list_elem_of_filter.
  apply andb_true_iff in Hkeep as [Hne%truthy_spec Hreal%negb_true_iff].
  apply list_elem_of_fmap in Hin as (piece & -> & _).
  split; [done|]. split; [apply trim_idempotent|]. split; [done|].
  intros Htba. unfold isPlaceholder in Hreal.
  by rewrite Htba in Hreal.
Qed.

Lemma splitOpeners_names_sample :
  "Band A" ≠ EmptyString ∧ trim "Band A" = "Band A" ∧ isPlaceholder "Band A" = false
  ∧ JS.toLowerCase "Band A" ≠ "tba".
Proof.
  apply (splitOpeners_names "with Band A, Band B, TBA" "Band A").
  vm_compute. left.
Defined.

(** ** Venue identifiers *)

Lemma dropFirstHyphen_separated s :
  separated (fun c => negb (isSlugChar c)) "-" false s = true →
  separated (fun c => negb (isSlugChar c)) "-" true (dropFirstHyphen s) = true.
Proof.
  destruct s as [|c rest]; [done|]. unfold dropFirstHyphen.
  destruct (Ascii.eqb_spec c "-") as [->|Hne].
  - cbn. done.
  - assert (Hsame : match c with
                    | "-"%char => rest
                    | _ => String c rest
                    end = String c rest).
    { destruct c as [[] [] [] [] [] [] [] []]; try done. }
    rewrite Hsame. cbn [separated]. destruct (negb (isSlugChar c)); [|done].
    intros [[Hc%Ascii.eqb_eq _]%andb_true_iff _]%andb_true_iff. done.
Qed.

Lemma dropLastHyphen_separated afterRun s :
  separated (fun c => negb (isSlugChar c)) "-" afterRun s = true →
  separated (fun c => negb (isSlugChar c)) "-" afterRun (dropLastHyphen s) = true.
Proof.
  revert afterRun. induction s as [|c rest IH]; intros afterRun; [done|].
  destruct rest as [|c' rest].
  - cbn [dropLastHyphen]. by destruct (Ascii.eqb c "-").
  - change (dropLastHyphen (String c (String c' rest)))
      with (String c (dropLastHyphen (String c' rest))).
    cbn [separated]. destruct (negb (isSlugChar c)).
    + intros [-> Hrest]%andb_true_iff. by apply IH.
    + by apply IH.
Qed.

Lemma dropLastHyphen_idempotent s :
  separated (fun c => negb (isSlugChar c)) "-" false s = true →
  dropLastHyphen (dropLastHyphen s) = dropLastHyphen s.
Proof.
  induction s as [|c rest IH]; [done|]. destruct rest as [|c' rest].
  - cbn [dropLastHyphen]. destruct (Ascii.eqb c "-") eqn:Hc; [done|].
    cbn [dropLastHyphen]. by rewrite Hc.
  - change (dropLastHyphen (String c (String c' rest)))
      with (String c (dropLastHyphen (String c' rest))).
    intros Hsep.
    assert (Hrest : separated (fun c => negb (isSlugChar c)) "-" false
                      (String c' rest) = true).
    { cbn [separated] in Hsep. destruct (negb (isSlugChar c)).
      - apply andb_true_iff in Hsep as [_ Hsep]. by apply separated_weaken.
      - done. }
    specialize (IH Hrest).
    destruct (dropLastHyphen (String c' rest)) as [|k kept] eqn:Hkept.
    + (* the rest was one hyphen: [c] is no hyphen, as no two follow each other *)
      cbn [dropLastHyphen]. destruct (Ascii.eqb_spec c "-") as [->|Hne]; [|done].
      exfalso. destruct rest as [|c'' rest].
      * cbn [dropLastHyphen] in Hkept. destruct (Ascii.eqb c' "-") eqn:Hc'; [|done].
        apply Ascii.eqb_eq in Hc'. subst c'. cbn in Hsep. done.
      * change (dropLastHyphen (String c' (String c'' rest)))
          with (String c' (dropLastHyphen (String c'' rest))) in Hkept. done.
    + change (dropLastHyphen (String c (String k kept)))
        with (String c (dropLastHyphen (String k kept))). by rewrite IH.
Qed.

Lemma toLowerCase_slug afterRun s :
  separated (fun c => negb (isSlugChar c)) "-" afterRun s = true →
  JS.toLowerCase s = s.
Proof.
  revert afterRun. induction s as [|c rest IH]; intros afterRun; [done|].
  cbn [separated JS.toLowerCase]. destruct (isSlugChar c) eqn:Hc; cbn [negb].
  - intros Hrest. rewrite (IH _ Hrest). f_equal.
    unfold JS.lowerChar. case_match eqn:Hup; [|done]. exfalso.
    unfold isSlugChar in Hc. cbn zeta in Hc.
    rewrite !orb_true_iff, !andb_true_iff, !Z.leb_le in Hc, Hup. lia.
  - intros [[->%Ascii.eqb_eq _]%andb_true_iff Hrest]%andb_true_iff.
    by rewrite (IH _ Hrest).
Qed.

Lemma dropFirstHyphen_fixed s :
  separated (fun c => negb (isSlugChar c)) "-" true s = true → dropFirstHyphen s = s.
Proof.
  destruct s as [|c rest]; [done|]. cbn [separated].
  destruct (negb (isSlugChar c)) eqn:Hc.
  - by rewrite andb_false_r.
  - intros _. destruct (Ascii.eqb_spec c "-") as [->|Hne]; [done|].
    unfold dropFirstHyphen. destruct c as [[] [] [] [] [] [] [] []]; done.
Qed.

Lemma slugify_slug value : slug (slugify value).
Proof.
  unfold slug, slugify. split.
  - apply dropLastHyphen_separated, dropFirstHyphen_separated, replaceRuns_separated.
  - apply dropLastHyphen_idempotent, separated_weaken, dropFirstHyphen_separated,
      replaceRuns_separated.
Qed.

Lemma slugify_fixed value : slug value → slugify value = value.
Proof.
  intros [Hsep Hlast]. unfold slugify.
  rewrite (toLowerCase_slug _ _ Hsep).
  rewrite replaceRuns_fixed by by apply separated_weaken.
  by rewrite dropFirstHyphen_fixed.
Qed.

(** X22 — [slugify] yields an identifier in normal form: lowercase
    letters and digits, with single hyphens only between them; an
    identifier in that form is its own slug; so [slugify] is
    idempotent. *)
Theorem slugify_normal_form value :
  slug (slugify value)
  ∧ (slug value → slugify value = value)
  ∧ slugify (slugify value) = slugify value.
Proof.
  split; [apply slugify_slug|]. split; [apply slugify_fixed|].
  apply slugify_fixed, slugify_slug.
Qed.

Lemma slugify_normal_form_sample : slugify "bottom-of-the-hill" = "bottom-of-the-hill".
Proof.
  apply (proj1 (proj2 (slugify_normal_form "bottom-of-the-hill"))).
  split; reflexivity.
Defined.

(** ** Times of day *)

(** X23 — Times survive the trip through the two clocks: for every time
    of the 12-hour clock, printed with or without minutes, in either
    case of the meridiem, after "Show:" or not, [parseShowTime] reads
    the time on the 24-hour clock, and [formatTime12] turns that back
    into the hour, the minutes and the meridiem the page showed. *)
Theorem clock_round_trip prefixed upper hour minutes pm :
  1 ≤ hour ≤ 12 →
  (∀ m, minutes = Some m → m < 60) →
  parseShowTime (clockText prefixed upper hour minutes pm) = clock24 hour minutes pm
  ∧ formatTime12 (clock24 hour minutes pm) = Some (clockShown hour minutes pm).
Proof.
  intros Hhour Hminutes.
  assert (Hparse :
    forallb (fun prefixed =>
      forallb (fun upper =>
        forallb (fun hour =>
          forallb (fun minutes =>
            forallb (fun pm =>
              bool_decide
                (parseShowTime (clockText prefixed upper hour minutes pm)
                 = clock24 hour minutes pm))
              [true; false])
            (None :: List.map Some (seq 0 60)))
          (seq 1 12))
        [true; false])
      [true; false] = true) by (vm_compute; reflexivity).
  assert (Hformat :
    forallb (fun hour =>
      forallb (fun minutes =>
        forallb (fun pm =>
          bool_decide
            (formatTime12 (clock24 hour minutes pm)
             = Some (clockShown hour minutes pm)))
          [true; false])
        (None :: List.map Some (seq 0 60)))
      (seq 1 12) = true) by (vm_compute; reflexivity).
  assert (Hbool : ∀ b : bool, In b [true; false]) by (intros []; simpl; auto).
  assert (Hminute : In minutes (None :: List.map Some (seq 0 60))).
  { destruct minutes as [m|]; [right | by left].
    apply in_map, in_seq. specialize (Hminutes m eq_refl). lia. }
  assert (Hin : In hour (seq 1 12)) by (apply in_seq; lia).
  split.
  - pose proof (proj1 (forallb_forall _ _) Hparse prefixed (Hbool _)) as H1.
    pose proof (proj1 (forallb_forall _ _) H1 upper (Hbool _)) as H2.
    pose proof (proj1 (forallb_forall _ _) H2 hour Hin) as H3.
    pose proof (proj1 (forallb_forall _ _) H3 minutes Hminute) as H4.
    pose proof (proj1 (forallb_forall _ _) H4 pm (Hbool _)) as H5.
    by apply bool_decide_eq_true in H5.
  - pose proof (proj1 (forallb_forall _ _) Hformat hour Hin) as H3.
    pose proof (proj1 (forallb_forall _ _) H3 minutes Hminute) as H4.
    pose proof (proj1 (forallb_forall _ _) H4 pm (Hbool _)) as H5.
    by apply bool_decide_eq_true in H5.
Qed.

Lemma clock_round_trip_sample :
  parseShowTime "Show: 8:30 PM" = "20:30" ∧ formatTime12 "20:30" = Some "8:30 PM".
Proof.
  apply (clock_round_trip true true 8 (Some 30) true); [lia|].
  intros m [= <-]. lia.
Defined.

(** ** Dates need digits *)

Lemma suffixOf_refl s : suffixOf s s.
Proof. by exists EmptyString. Qed.

Lemma suffixOf_trans a b c : suffixOf a b → suffixOf b c → suffixOf a c.
Proof.
  intros [p ->] [q ->]. exists (q +:+ p).
  induction q as [|ch q IH]; [done|].
  change (String ch (q +:+ p +:+ a) = String ch ((q +:+ p) +:+ a)). by f_equal.
Qed.

Lemma suffixOf_tail c s : suffixOf s (String c s).
Proof. by exists (String c EmptyString). Qed.

Lemma digitFree_suffix rest s : digitFree s → suffixOf rest s → digitFree rest.
Proof.
  unfold digitFree. intros Hs [before ->].
  rewrite stringForall_append in Hs. by apply andb_true_iff in Hs as [_ ?].
Qed.

(** A match ends in its continuation, on what is left of the text. *)
Lemma run_None r s caps k :
  (∀ rest caps', suffixOf rest s → k rest caps' = None) →
  Regex.run r s caps k = None.
Proof.
  revert s caps k. induction r as [|accept|a IHa b IHb|a IHa b IHb|min max a IHa|index a IHa];
    intros s caps k Hk; cbn [Regex.run].
  - apply Hk, suffixOf_refl.
  - destruct s as [|c rest]; [done|]. destruct (accept c); [|done].
    apply Hk, suffixOf_tail.
  - apply IHa. intros rest caps' Hrest. apply IHb.
    intros rest' caps'' Hrest'. apply Hk. by eapply suffixOf_trans.
  - rewrite IHa by done. by apply IHb.
  - generalize (String.length s) at 1 as fuel. generalize 0 as count.
    intros count fuel. revert count s caps Hk.
    induction fuel as [|fuel IH]; intros count s caps Hk.
    + destruct (min <=? count); [|done]. apply Hk, suffixOf_refl.
    + assert (Hstop : (if min <=? count then k s caps else None) = None).
      { destruct (min <=? count); [|done]. apply Hk, suffixOf_refl. }
      rewrite Hstop. destruct (Regex.withinMax count max); [|done].
      rewrite IHa; [done|]. intros rest caps' Hrest. apply IH.
      intros rest' caps'' Hrest'. apply Hk. by eapply suffixOf_trans.
  - apply IHa. intros rest caps' Hrest. by apply Hk.
Qed.

(** One digit or more do not match where there is none. *)
Lemma digits_None min max s caps k :
  1 ≤ min → digitFree s → Regex.run (Regex.digits min max) s caps k = None.
Proof.
  intros Hmin Hs. unfold Regex.digits. cbn [Regex.run].
  assert (Hstop : (min <=? 0) = false) by (apply Nat.leb_gt; lia).
  destruct s as [|c rest]; cbn [String.length]; rewrite Hstop; [done|].
  destruct (Regex.withinMax 0 (Some max)); [|done].
  unfold digitFree in Hs. cbn [stringForall] in Hs.
  apply andb_true_iff in Hs as [Hc%negb_true_iff _]. by rewrite Hc.
Qed.

Lemma search_None r groups s :
  (∀ rest caps k, suffixOf rest s → Regex.run r rest caps k = None) →
  Regex.search r groups s = None.
Proof.
  induction s as [|c s IH]; intros Hrun; cbn [Regex.search].
  - by rewrite Hrun by apply suffixOf_refl.
  - rewrite Hrun by apply suffixOf_refl. apply IH.
    intros rest caps k Hrest. apply Hrun.
    eapply suffixOf_trans; [exact Hrest | apply suffixOf_tail].
Qed.

Lemma toLowerCase_digitFree s : digitFree s → digitFree (JS.toLowerCase s).
Proof.
  unfold digitFree. induction s as [|c s IH]; [done|].
  cbn [stringForall JS.toLowerCase]. intros [Hc Hs]%andb_true_iff.
  rewrite IH by done. rewrite andb_true_r.
  destruct c as [[] [] [] [] [] [] [] []]; vm_compute in Hc |- *; done.
Qed.

Lemma parseDateISOFromText_digitFree value referenceDate :
  digitFree value → parseDateISOFromText value referenceDate = EmptyString.
Proof.
  intros Hfree%toLowerCase_digitFree. unfold parseDateISOFromText. cbn zeta.
  assert (Hdot : Regex.search dotDateRe 2 (JS.toLowerCase value) = None).
  { apply search_None. intros rest caps k Hrest. unfold dotDateRe.
    cbn [Regex.run]. apply digits_None; [done|]. by eapply digitFree_suffix. }
  assert (Hslash : Regex.search slashDateRe 3 (JS.toLowerCase value) = None).
  { apply search_None. intros rest caps k Hrest. unfold slashDateRe.
    cbn [Regex.run]. apply digits_None; [done|]. by eapply digitFree_suffix. }
  assert (Hname : Regex.search monthNameRe 3 (JS.toLowerCase value) = None).
  { apply search_None. intros rest caps k Hrest. unfold monthNameRe.
    match goal with
    | |- Regex.run (Regex.Seq ?months (Regex.Seq ?spaces (Regex.Seq ?day ?more)))
           _ _ _ = None =>
        change (Regex.run months rest caps
                  (fun rest1 caps1 =>
                     Regex.run spaces rest1 caps1
                       (fun rest2 caps2 =>
                          Regex.run (Regex.Seq day more) rest2 caps2 k)) = None)
    end.
    apply run_None. intros rest1 caps1 Hrest1.
    apply run_None. intros rest2 caps2 Hrest2.
    cbn [Regex.run]. apply digits_None; [done|].
    eapply digitFree_suffix; [exact Hfree|].
    eapply suffixOf_trans; [exact Hrest2|].
    eapply suffixOf_trans; [exact Hrest1 | exact Hrest]. }
  by rewrite Hdot, Hslash, Hname.
Qed.

Lemma parseShowTime_digitFree value : digitFree value → parseShowTime value = EmptyString.
Proof.
  intros Hfree. unfold parseShowTime.
  assert (Hnone : Regex.search showTimeRe 3 value = None); [|by rewrite Hnone].
  apply search_None. intros rest caps k Hrest. unfold showTimeRe. cbn zeta.
  match goal with
  | |- Regex.run (Regex.Seq ?lead (Regex.Seq ?hour ?more)) _ _ _ = None =>
      change (Regex.run lead rest caps
                (fun rest1 caps1 => Regex.run (Regex.Seq hour more) rest1 caps1 k)
              = None)
  end.
  apply run_None. intros rest1 caps1 Hrest1.
  cbn [Regex.run]. apply digits_None; [done|].
  eapply digitFree_suffix; [exact Hfree|]. by eapply suffixOf_trans.
Qed.

(** X24 — Dates and times need digits: from a text without any,
    [parseDateISOFromText] reads no date, in none of its three
    notations, and returns the empty string; [parseShowTime] reads no
    time and returns the empty string, which [formatTime12] shows as an
    unknown start time. *)
Theorem digit_free_text_reads_nothing value referenceDate :
  digitFree value →
  parseDateISOFromText value referenceDate = EmptyString
  ∧ parseShowTime value = EmptyString
  ∧ formatTime12 (parseShowTime value) = None.
Proof.
  intros Hfree. split; [by apply parseDateISOFromText_digitFree|].
  rewrite parseShowTime_digitFree by done. done.
Qed.

Lemma digit_free_text_reads_nothing_sample :
  parseDateISOFromText "Doors at seven, show TBA" referenceDate = EmptyString
  ∧ parseShowTime "Doors at seven, show TBA" = EmptyString
  ∧ formatTime12 (parseShowTime "Doors at seven, show TBA") = None.
Proof.
  apply (digit_free_text_reads_nothing "Doors at seven, show TBA" referenceDate).
  reflexivity.
Defined.

(** ** The window of an inferred year *)

Lemma DateUTC_days year monthIndex day :
  (100 <= year)%Z → (0 <= monthIndex <= 11)%Z →
  JS.DateUTC year monthIndex day
  = ((JS.daysFromCivil year (monthIndex + 1) 1 + day - 1) * JS.msPerDay)%Z.
Proof.
  intros Hy Hm. unfold JS.DateUTC.
  assert ((0 <=? year)%Z && (year <=? 99)%Z = false) as ->.
  { apply andb_false_iff. right. apply Z.leb_gt. lia. }
  cbn zeta. rewrite Z.div_small, Z.mod_small by lia. by rewrite Z.add_0_r.
Qed.

(** X25 — The year [inferYear] picks puts a month and day of the
    calendar within a window around the reference date: never more than
    31 days before it, never more than 365 days after it. *)
Theorem inferYear_window month day reference :
  (100 <= JS.getUTCFullYear reference)%Z →
  (0 <= JS.getUTCMonth reference <= 11)%Z →
  (1 <= JS.getUTCDate reference <= 31)%Z →
  (1 <= month <= 12)%Z → (1 <= day <= 31)%Z →
  let today :=
    JS.DateUTC (JS.getUTCFullYear reference) (JS.getUTCMonth reference)
      (JS.getUTCDate reference) in
  let inferred := JS.DateUTC (inferYear month day reference) (month - 1) day in
  (today - 31 * JS.msPerDay <= inferred <= today + 365 * JS.msPerDay)%Z.
Proof.
  intros Hy Hmr Hdr Hm Hd. cbn zeta. unfold inferYear.
  destruct reference as [y mr dr].
  cbn [JS.getUTCFullYear JS.getUTCMonth JS.getUTCDate] in *.
  rewrite (DateUTC_days y mr dr), (DateUTC_days y (month - 1) day) by lia.
  case_match eqn:Hroll;
    [apply Z.ltb_lt in Hroll | apply Z.ltb_ge in Hroll];
    rewrite DateUTC_days by lia;
    unfold JS.msPerDay in *; unfold JS.daysFromCivil in *;
    replace (month - 1 + 1)%Z with month in * by lia;
    destruct (Z.leb_spec month 2), (Z.ltb_spec 2 month),
      (Z.leb_spec (mr + 1) 2), (Z.ltb_spec 2 (mr + 1));
    try lia; Z.div_mod_to_equations; lia.
Qed.

Lemma inferYear_window_sample :
  (JS.DateUTC 2026 0 5 - 31 * JS.msPerDay
   <= JS.DateUTC (inferYear 12 31 referenceDate) (12 - 1) 31
   <= JS.DateUTC 2026 0 5 + 365 * JS.msPerDay)%Z.
Proof.
  apply (inferYear_window 12 31 referenceDate); simpl; lia.
Defined.

(** ** The merged list of all venues *)

Section SortShows.
Variable localeCompare : string → string → Z.
Hypothesis order : totalOrder localeCompare.



End SortShows.



(** ** The two ways to infer a year *)

(** X27 — The parser of The Independent infers years with no days of
    grace: the date it gives a month and day of the calendar is never
    before the reference date and never more than 365 days after it;
    and it differs from [inferYear] of the shared utilities exactly for
    the days that lie up to 31 days before the reference date, which it
    moves to the next year. *)
Theorem independent_inferYear_not_past month day reference :
  (100 <= JS.getUTCFullYear reference)%Z →
  (0 <= JS.getUTCMonth reference <= 11)%Z →
  (1 <= JS.getUTCDate reference <= 31)%Z →
  (1 <= month <= 12)%Z → (1 <= day <= 31)%Z →
  let today :=
    JS.DateUTC (JS.getUTCFullYear reference) (JS.getUTCMonth reference)
      (JS.getUTCDate reference) in
  let candidate := JS.DateUTC (JS.getUTCFullYear reference) (month - 1) day in
  let inferred :=
    JS.DateUTC (Independent.inferYear month day reference) (month - 1) day in
  (today <= inferred <= today + 365 * JS.msPerDay)%Z
  ∧ (Independent.inferYear month day reference ≠ inferYear month day reference
     ↔ (today - 31 * JS.msPerDay <= candidate < today)%Z).
Proof.
  intros Hy Hmr Hdr Hm Hd. cbn zeta. unfold Independent.inferYear, inferYear.
  destruct reference as [y mr dr].
  cbn [JS.getUTCFullYear JS.getUTCMonth JS.getUTCDate] in *.
  split.
  - rewrite (DateUTC_days y mr dr), (DateUTC_days y (month - 1) day) by lia.
    case_match eqn:Hroll;
      [apply Z.ltb_lt in Hroll | apply Z.ltb_ge in Hroll];
      rewrite DateUTC_days by lia;
      unfold JS.msPerDay in *; unfold JS.daysFromCivil in *;
      replace (month - 1 + 1)%Z with month in * by lia;
      destruct (Z.leb_spec month 2), (Z.ltb_spec 2 month),
        (Z.leb_spec (mr + 1) 2), (Z.ltb_spec 2 (mr + 1));
      try lia; Z.div_mod_to_equations; lia.
  - generalize (JS.DateUTC y mr dr) as today.
    generalize (JS.DateUTC y (month - 1) day) as candidate.
    intros candidate today. unfold JS.msPerDay.
    repeat match goal with
           | |- context [(?a <? ?b)%Z] => destruct (Z.ltb_spec a b)
           end; split; intros; (lia || done).
Qed.

Lemma independent_inferYear_not_past_sample :
  (JS.DateUTC 2026 0 5
   <= JS.DateUTC (Independent.inferYear 12 31 referenceDate) (12 - 1) 31
   <= JS.DateUTC 2026 0 5 + 365 * JS.msPerDay)%Z
  ∧ (Independent.inferYear 12 31 referenceDate ≠ inferYear 12 31 referenceDate
     ↔ (JS.DateUTC 2026 0 5 - 31 * JS.msPerDay <= JS.DateUTC 2026 (12 - 1) 31
        < JS.DateUTC 2026 0 5)%Z).
Proof.
  apply (independent_inferYear_not_past 12 31 referenceDate); simpl; lia.
Defined.
